(** * day18: collecting every key of a maze over the shortest total path

    A shallow embedding of [main.go].  Cells live on the Go heap and are
    shared through pointers, so the embedding keeps an arena of cells and
    uses indices into it as pointers.  The cell slices of search states are
    kept in a second store, since [state.copy] exists precisely because
    slices alias their backing array.  The memo table is a finite map from
    the strings built by [state.String].

    Functions that can fault return an [option]: [None] stands for a Go
    panic (a nil pointer, an index out of range) and, in the two functions
    that take a bound on their rounds, for a bound that was too small.  The
    bounds are shown to be large enough below. *)

From Stdlib Require Import ZArith Lia Ascii String Sorted.
From stdpp Require Import gmap strings list fin_maps pretty.

Local Open Scope Z_scope.

(** ** Machine arithmetic

    [int] and [uint] are 64 bits wide, [byte] is 8 bits wide.  Values are
    kept in [Z]; every operation that can leave the range wraps. *)

Definition uint_wrap (z : Z) : Z := z mod 2 ^ 64.
Definition int_wrap (z : Z) : Z := (z + 2 ^ 63) mod 2 ^ 64 - 2 ^ 63.
Definition int_add (a b : Z) : Z := int_wrap (a + b).

Definition byte_val (c : ascii) : Z := Z.of_N (N_of_ascii c).
Definition byte_of (z : Z) : ascii := ascii_of_N (Z.to_N (z mod 256)).
Definition byte_sub (c d : ascii) : Z := (byte_val c - byte_val d) mod 256.
Definition byte_or (c : ascii) (z : Z) : ascii := byte_of (Z.lor (byte_val c) z).

(** ** keyset: a set of lower-case letters as a bitmap in a [uint] *)

Abbreviation keyset := Z.

(** [k>>(char-'a')&1 == 1] *)
Definition contains (k : keyset) (char : ascii) : bool :=
  Z.land (Z.shiftr k (byte_sub char "a")) 1 =? 1.

(** [k | 1<<(char-'a')]; the constant [1] is a [keyset] here, so the shift
    is taken in 64 bits. *)
Definition plus (k : keyset) (char : ascii) : keyset :=
  Z.lor k (uint_wrap (Z.shiftl 1 (byte_sub char "a"))).

(** [k&keys == keys] *)
Definition containsAll (k keys : keyset) : bool :=
  Z.land k keys =? keys.

(** ** Cells, paths and the maze *)

Module CellType.
Inductive t := empty | start | key | door.
Definition eqb (a b : t) : bool :=
  match a, b with
  | empty, empty | start, start | key, key | door, door => true
  | _, _ => false
  end.
End CellType.

(** A [*cell] that is not nil: the index of the cell in the arena. *)
Abbreviation ptr := nat.

Module path.
Record t := mk { len : Z; dest : ptr; reqKeys : keyset }.
End path.

Module cell.
Record t := mk {
  char : ascii;
  adj : list ptr;
  paths : list path.t;
  cellType : CellType.t
}.
Definition set_adj (c : t) (a : list ptr) : t :=
  mk (char c) a (paths c) (cellType c).
Definition set_paths (c : t) (ps : list path.t) : t :=
  mk (char c) (adj c) ps (cellType c).
End cell.

(** The arena: every cell allocated so far, in allocation order. *)
Abbreviation heap := (list cell.t).

(** [rows] holds a nil or a cell pointer for every grid position; the row
    slices are disjoint windows of one backing array. *)
Module maze.
Record t := mk {
  w : nat;
  h : nat;
  rows : list (list (option ptr));
  keys : keyset
}.
End maze.

Definition leb_ascii (a b : ascii) : bool := byte_val a <=? byte_val b.

(** [newCell]: a cell for [char] with its type. *)
Definition newCell (char : ascii) : cell.t :=
  cell.mk char [] []
    (if Ascii.eqb char "@" then CellType.start
     else if leb_ascii "a" char && leb_ascii char "z" then CellType.key
     else if leb_ascii "A" char && leb_ascii char "Z" then CellType.door
     else CellType.empty).

(** Allocation of a cell on the heap. *)
Definition alloc (hp : heap) (c : cell.t) : ptr * heap :=
  (length hp, hp ++ [c]).

(** [join]: each of the two cells is appended to the other's list. *)
Definition join (hp : heap) (c c1 : ptr) : option heap :=
  x ← hp !! c;
  let hp1 := <[c := cell.set_adj x (cell.adj x ++ [c1])]> hp in
  y ← hp1 !! c1;
  Some (<[c1 := cell.set_adj y (cell.adj y ++ [c])]> hp1).

(** [newMaze].  When [w*h] does not fit an [int] the Go code panics, in
    [make] or at the first row slice that leaves the backing array. *)
Definition newMaze (w h : nat) : option maze.t :=
  if Z.of_nat w * Z.of_nat h <? 2 ^ 63
  then Some (maze.mk w h (replicate h (replicate w None)) 0)
  else None.

(** [m.rows[i][j]]; [None] is an index out of range. *)
Definition cell_at (m : maze.t) (i j : nat) : option (option ptr) :=
  row ← maze.rows m !! i; row !! j.

Definition set_cell_at (m : maze.t) (i j : nat) (c : ptr) : option maze.t :=
  row ← maze.rows m !! i;
  if decide (j < length row)%nat
  then Some (maze.mk (maze.w m) (maze.h m)
               (<[i := <[j := Some c]> row]> (maze.rows m)) (maze.keys m))
  else None.

(** One of the four neighbour tests of [addCell], after its bounds test. *)
Definition joinAt (m : maze.t) (hp : heap) (c : ptr) (i j : nat) : option heap :=
  n ← cell_at m i j;
  match n with
  | Some c1 => join hp c c1
  | None => Some hp
  end.

(** [addCell] *)
Definition addCell (m : maze.t) (hp : heap) (i j : nat) (c : ptr)
  : option (maze.t * heap) :=
  m1 ← set_cell_at m i j c;
  hp1 ← (if decide (0 < i)%nat then joinAt m1 hp c (i - 1) j else Some hp);
  hp2 ← (if decide (0 < j)%nat then joinAt m1 hp1 c i (j - 1) else Some hp1);
  hp3 ← (if decide (i + 1 < maze.h m1)%nat then joinAt m1 hp2 c (i + 1) j else Some hp2);
  hp4 ← (if decide (j + 1 < maze.w m1)%nat then joinAt m1 hp3 c i (j + 1) else Some hp3);
  x ← hp4 !! c;
  if CellType.eqb (cell.cellType x) CellType.key
  then Some (maze.mk (maze.w m1) (maze.h m1) (maze.rows m1)
               (plus (maze.keys m1) (cell.char x)), hp4)
  else Some (m1, hp4).

(** ** findPaths: breadth-first search from a cell *)

(** The loop over [current.dest.adj]. *)
Fixpoint visitAdj (hp : heap) (current : path.t) (adjs : list ptr)
    (seen : gset ptr) (q : list path.t) : option (gset ptr * list path.t) :=
  match adjs with
  | [] => Some (seen, q)
  | a :: adjs' =>
      if decide (a ∈ seen) then visitAdj hp current adjs' seen q
      else
        x ← hp !! a;
        let next := path.mk (int_add (path.len current) 1) a (path.reqKeys current) in
        let next :=
          if CellType.eqb (cell.cellType x) CellType.door
          then path.mk (path.len next) (path.dest next)
                 (plus (path.reqKeys next) (byte_or (cell.char x) 32))
          else next in
        visitAdj hp current adjs' ({[a]} ∪ seen) (q ++ [next])
  end.

(** The queue loop; [n] bounds the number of iterations. *)
Fixpoint bfsLoop (n : nat) (hp : heap) (seen : gset ptr) (q paths : list path.t)
  : option (list path.t) :=
  match q with
  | [] => Some paths
  | current :: _ =>
      match n with
      | O => None
      | S n' =>
          d ← hp !! path.dest current;
          let paths :=
            if CellType.eqb (cell.cellType d) CellType.key
            then paths ++ [current] else paths in
          '(seen, q) ← visitAdj hp current (cell.adj d) seen q;
          bfsLoop n' hp seen (tail q) paths
      end
  end.

(** [findPaths].  Every cell enters the queue at most once, so the loop runs
    at most once per cell of the heap. *)
Definition findPaths (hp : heap) (c : ptr) : option (list path.t) :=
  bfsLoop (S (length hp)) hp {[c]} [path.mk 0 c 0] [].

(** ** buildPaths, start and readMaze *)

(** The body of the loops of [buildPaths] for one grid slot. *)
Definition buildPathsCell (hp : heap) (slot : option ptr) : option heap :=
  match slot with
  | None => Some hp
  | Some c =>
      x ← hp !! c;
      if CellType.eqb (cell.cellType x) CellType.key
         || CellType.eqb (cell.cellType x) CellType.start
      then ps ← findPaths hp c; Some (<[c := cell.set_paths x ps]> hp)
      else Some hp
  end.

Fixpoint buildPathsRow (hp : heap) (row : list (option ptr)) : option heap :=
  match row with
  | [] => Some hp
  | slot :: row' => hp' ← buildPathsCell hp slot; buildPathsRow hp' row'
  end.

Fixpoint buildPathsRows (hp : heap) (rows : list (list (option ptr))) : option heap :=
  match rows with
  | [] => Some hp
  | row :: rows' => hp' ← buildPathsRow hp row; buildPathsRows hp' rows'
  end.

Definition buildPaths (m : maze.t) (hp : heap) : option heap :=
  buildPathsRows hp (maze.rows m).

Fixpoint startRow (hp : heap) (row : list (option ptr)) (startCells : list ptr)
  : option (list ptr) :=
  match row with
  | [] => Some startCells
  | None :: row' => startRow hp row' startCells
  | Some c :: row' =>
      x ← hp !! c;
      if CellType.eqb (cell.cellType x) CellType.start
      then startRow hp row' (startCells ++ [c])
      else startRow hp row' startCells
  end.

Fixpoint startRows (hp : heap) (rows : list (list (option ptr))) (startCells : list ptr)
  : option (list ptr) :=
  match rows with
  | [] => Some startCells
  | row :: rows' => sc ← startRow hp row startCells; startRows hp rows' sc
  end.

(** [m.start()] *)
Definition start (m : maze.t) (hp : heap) : option (list ptr) :=
  startRows hp (maze.rows m) [].

(** The loop over the characters of row [i], from column [j] on.  The rows
    are ASCII text, so [range] visits every byte. *)
Fixpoint readRow (i j : nat) (row : string) (m : maze.t) (hp : heap)
  : option (maze.t * heap) :=
  match row with
  | EmptyString => Some (m, hp)
  | String char row' =>
      '(m1, hp1) ←
        (if Ascii.eqb char "#" then Some (m, hp)
         else let '(c, hp') := alloc hp (newCell char) in addCell m hp' i j c);
      readRow i (S j) row' m1 hp1
  end.

Fixpoint readRows (i : nat) (rows : list string) (m : maze.t) (hp : heap)
  : option (maze.t * heap) :=
  match rows with
  | [] => Some (m, hp)
  | row :: rows' =>
      '(m1, hp1) ← readRow i 0%nat row m hp;
      readRows (S i) rows' m1 hp1
  end.

(** [readMaze], from the lines the scanner produced. *)
Definition readMaze (rows : list string) : option (maze.t * heap) :=
  r0 ← head rows;
  m ← newMaze (String.length r0) (length rows);
  '(m1, hp1) ← readRows 0%nat rows m [];
  hp2 ← buildPaths m1 hp1;
  Some (m1, hp2).

(** ** Search states *)

(** A [[]*cell]: the index of its backing array in the slice store. *)
Abbreviation slice := nat.
Abbreviation store := (list (list ptr)).

Module state.
Record t := mk { cells : slice; keys : keyset }.
End state.

(** [s.String()]: the characters of the cells, then the keys in decimal. *)
Fixpoint cellChars (hp : heap) (cs : list ptr) : option string :=
  match cs with
  | [] => Some EmptyString
  | c :: cs' => x ← hp !! c; r ← cellChars hp cs'; Some (String (cell.char x) r)
  end.

Definition state_String (hp : heap) (st : store) (s : state.t) : option string :=
  cs ← st !! state.cells s;
  chars ← cellChars hp cs;
  Some (chars +:+ pretty (Z.to_N (state.keys s))).

(** [s.copy()]: a new backing array with the contents of the old one. *)
Definition state_copy (st : store) (s : state.t) : option (state.t * store) :=
  cs ← st !! state.cells s;
  Some (state.mk (length st) (state.keys s), st ++ [cs]).

(** [sl[i] = c] *)
Definition slice_set (st : store) (sl : slice) (i : nat) (c : ptr) : option store :=
  cs ← st !! sl;
  if decide (i < length cs)%nat then Some (<[sl := <[i := c]> cs]> st) else None.

(** ** shortestPath *)

Section search.
(** The loops of [shortestPath] never touch the memo table themselves, so
    they are written over any state [X] threaded through the recursive
    calls [rec]. *)
Context {X : Type}.
Variable hp : heap.
Variable rec : state.t → store * X → option (Z * (store * X)).

(** The loop over [cell.paths] for agent [i]. *)
Fixpoint pathsLoop (s : state.t) (i : nat) (ps : list path.t) (min : Z)
    (wd : store * X) : option (Z * (store * X)) :=
  match ps with
  | [] => Some (min, wd)
  | p :: ps' =>
      d ← hp !! path.dest p;
      if contains (state.keys s) (cell.char d)
         || negb (containsAll (state.keys s) (path.reqKeys p))
      then pathsLoop s i ps' min wd
      else
        '(nextState, st1) ← state_copy wd.1 s;
        st2 ← slice_set st1 (state.cells nextState) i (path.dest p);
        let nextState :=
          state.mk (state.cells nextState) (plus (state.keys s) (cell.char d)) in
        '(r, wd') ← rec nextState (st2, wd.2);
        let dist := int_add (path.len p) r in
        let min := if (min =? 0) || (dist <? min) then dist else min in
        pathsLoop s i ps' min wd'
  end.

(** The loop over [s.cells], at index [i] with [n] cells to go. *)
Fixpoint cellsLoop (s : state.t) (n i : nat) (min : Z) (wd : store * X)
  : option (Z * (store * X)) :=
  match n with
  | O => Some (min, wd)
  | S n' =>
      cs ← wd.1 !! state.cells s;
      c ← cs !! i;
      x ← hp !! c;
      '(min', wd') ← pathsLoop s i (cell.paths x) min wd;
      cellsLoop s n' (S i) min' wd'
  end.
End search.

(** [shortestPath]; [fuel] bounds the depth of the recursion. *)
Fixpoint shortestPath (fuel : nat) (m : maze.t) (hp : heap) (s : state.t)
    (wd : store * gmap string Z) : option (Z * (store * gmap string Z)) :=
  match fuel with
  | O => None
  | S fuel' =>
      stateKey ← state_String hp wd.1 s;
      if state.keys s =? maze.keys m then Some (0, wd)
      else
        match wd.2 !! stateKey with
        | Some d => Some (d, wd)
        | None =>
            cs ← wd.1 !! state.cells s;
            '(min, (st', table')) ←
              cellsLoop hp (shortestPath fuel' m hp) s (length cs) 0%nat 0 wd;
            Some (min, (st', <[stateKey := min]> table'))
        end
  end.

(** The same search without the memo table. *)
Fixpoint shortestPathNoMemo (fuel : nat) (m : maze.t) (hp : heap) (s : state.t)
    (wd : store * unit) : option (Z * (store * unit)) :=
  match fuel with
  | O => None
  | S fuel' =>
      stateKey ← state_String hp wd.1 s;
      if state.keys s =? maze.keys m then Some (0, wd)
      else
        cs ← wd.1 !! state.cells s;
        cellsLoop hp (shortestPathNoMemo fuel' m hp) s (length cs) 0%nat 0 wd
  end.

(** [main] after the input is read: the maze, the initial state on the start
    cells and the search with an empty table. *)
Definition initial (m : maze.t) (hp : heap) : option (state.t * store) :=
  sc ← start m hp; Some (state.mk 0%nat 0, [sc]).

Definition run (fuel : nat) (rows : list string) : option Z :=
  '(m, hp) ← readMaze rows;
  '(s, st) ← initial m hp;
  '(result, _) ← shortestPath fuel m hp s (st, ∅);
  Some result.

(** * Specification-side definitions *)

(** The lower-case letters, the characters of keys. *)
Definition lowercase (c : ascii) : Prop := 97 <= byte_val c <= 122.

(** A path is eligible in a state when the key at its destination is not
    collected yet and every key it requires is. *)
Definition eligible (hp : heap) (keys : keyset) (p : path.t) : bool :=
  match hp !! path.dest p with
  | Some d => negb (contains keys (cell.char d)) && containsAll keys (path.reqKeys p)
  | None => false
  end.

(** The candidate next state when agent [i] follows path [p]. *)
Definition nextCells (cs : list ptr) (i : nat) (p : path.t) : list ptr :=
  <[i := path.dest p]> cs.
Definition nextKeys (hp : heap) (keys : keyset) (p : path.t) : keyset :=
  match hp !! path.dest p with
  | Some d => plus keys (cell.char d)
  | None => keys
  end.

(** ** The search with the cell slices read as values

    Since no call changes a slice it did not create itself, the search can
    be read over the contents of [s.cells]; only the memo table is left as
    state. *)

Section pure_search.
Context {X : Type}.
Variable hp : heap.
Variable recP : list ptr → keyset → X → option (Z * X).

Fixpoint pathsLoopP (cs : list ptr) (keys : keyset) (i : nat) (ps : list path.t)
    (min : Z) (x : X) : option (Z * X) :=
  match ps with
  | [] => Some (min, x)
  | p :: ps' =>
      d ← hp !! path.dest p;
      if contains keys (cell.char d) || negb (containsAll keys (path.reqKeys p))
      then pathsLoopP cs keys i ps' min x
      else if decide (i < length cs)%nat then
        '(r, x') ← recP (<[i := path.dest p]> cs) (plus keys (cell.char d)) x;
        let dist := int_add (path.len p) r in
        let min := if (min =? 0) || (dist <? min) then dist else min in
        pathsLoopP cs keys i ps' min x'
      else None
  end.

Fixpoint cellsLoopP (cs : list ptr) (keys : keyset) (n i : nat) (min : Z) (x : X)
  : option (Z * X) :=
  match n with
  | O => Some (min, x)
  | S n' =>
      c ← cs !! i;
      xc ← hp !! c;
      '(min', x') ← pathsLoopP cs keys i (cell.paths xc) min x;
      cellsLoopP cs keys n' (S i) min' x'
  end.
End pure_search.

Definition stringOf (hp : heap) (cs : list ptr) (keys : keyset) : option string :=
  chars ← cellChars hp cs; Some (chars +:+ pretty (Z.to_N keys)).

Fixpoint memoP (fuel : nat) (hp : heap) (mkeys : keyset) (cs : list ptr)
    (keys : keyset) (table : gmap string Z) : option (Z * gmap string Z) :=
  match fuel with
  | O => None
  | S fuel' =>
      stateKey ← stringOf hp cs keys;
      if keys =? mkeys then Some (0, table)
      else
        match table !! stateKey with
        | Some d => Some (d, table)
        | None =>
            '(min, table') ←
              cellsLoopP hp (memoP fuel' hp mkeys) cs keys (length cs) 0%nat 0 table;
            Some (min, <[stateKey := min]> table')
        end
  end.

Fixpoint nomemoP (fuel : nat) (hp : heap) (mkeys : keyset) (cs : list ptr)
    (keys : keyset) (u : unit) : option (Z * unit) :=
  match fuel with
  | O => None
  | S fuel' =>
      stateKey ← stringOf hp cs keys;
      if keys =? mkeys then Some (0, u)
      else cellsLoopP hp (nomemoP fuel' hp mkeys) cs keys (length cs) 0%nat 0 u
  end.

(** A result without the slice store. *)
Definition erase {X : Type} (o : option (Z * (store * X))) : option (Z * X) :=
  '(r, (_, x)) ← o; Some (r, x).

(** Cells that are on the heap. *)
Definition valid (hp : heap) (c : ptr) : Prop := is_Some (hp !! c).

(** Every recorded path ends at a cell of the heap that holds a letter. *)
Definition wf_paths (hp : heap) : Prop :=
  forall c x p, hp !! c = Some x -> p ∈ cell.paths x ->
    exists d, hp !! path.dest p = Some d /\ lowercase (cell.char d).

(** The number of letters that are not in a keyset. *)
Definition missing (keys : keyset) : nat :=
  length (filter (fun n : nat => Z.testbit keys (Z.of_nat n) = false) (seq 0 26)).

(** ** The recursive calls of one step

    A callee that only records the state it is called on. *)
Definition logCall (s : state.t) (wd : store * list (list ptr * keyset))
  : option (Z * (store * list (list ptr * keyset))) :=
  cs ← wd.1 !! state.cells s; Some (0, (wd.1, wd.2 ++ [(cs, state.keys s)])).

(** The candidate next states of a state, agent by agent and path by path:
    one for every eligible path, none for any other. *)
Definition candidatesOf (hp : heap) (cs : list ptr) (keys : keyset) (i : nat)
    (ps : list path.t) : list (list ptr * keyset) :=
  map (fun p => (nextCells cs i p, nextKeys hp keys p))
      (filter (fun p => eligible hp keys p = true) ps).

Fixpoint candidatesFrom (hp : heap) (cs : list ptr) (keys : keyset) (i : nat)
    (rest : list ptr) : list (list ptr * keyset) :=
  match rest with
  | [] => []
  | c :: rest' =>
      match hp !! c with
      | Some x => candidatesOf hp cs keys i (cell.paths x)
      | None => []
      end ++ candidatesFrom hp cs keys (S i) rest'
  end.

Definition allCandidates (hp : heap) (cs : list ptr) (keys : keyset)
  : list (list ptr * keyset) :=
  candidatesFrom hp cs keys 0 cs.

(** ** Scenarios *)

Definition maze1 : list string :=
  ["#########"; "#b.A.@.a#"; "#########"]%string.

(** ** The maze as a graph on a grid *)

(** [q] is in the adjacency list of [p]. *)
Definition edge (hp : heap) (p q : ptr) : Prop :=
  exists x, hp !! p = Some x /\ q ∈ cell.adj x.

(** Cell [c] is the one at row [i] and column [j]. *)
Definition at_pos (m : maze.t) (i j : nat) (c : ptr) : Prop :=
  cell_at m i j = Some (Some c).

(** Grid positions one row or one column apart. *)
Definition orthogonal (i j i' j' : nat) : Prop :=
  (i = i' /\ (j = S j' \/ j' = S j)) \/ (j = j' /\ (i = S i' \/ i' = S i)).

(** What holds of the heap while cells are joined: the cells are as
    [newCell] typed them and have no paths yet, adjacency is symmetric and
    links cells at orthogonal positions of [m] only. *)
Record joined (m : maze.t) (hp : heap) : Prop := {
  jn_typed : forall c x, hp !! c = Some x ->
    cell.cellType x = cell.cellType (newCell (cell.char x)) /\ cell.paths x = [];
  jn_sym : forall p q, edge hp p q -> edge hp q p;
  jn_orth : forall p q, edge hp p q ->
    exists i1 j1 i2 j2, at_pos m i1 j1 p /\ at_pos m i2 j2 q /\ orthogonal i1 j1 i2 j2
}.

(** What holds while the grid is swept in row-major order, with the sweep
    at row [i] and column [j]: the cells placed so far are the cells of the
    heap, each at one position before [(i, j)], and the keyset of the maze
    holds the letter of every key cell. *)
Record swept (m : maze.t) (hp : heap) (i j : nat) : Prop := {
  sw_rows : length (maze.rows m) = maze.h m;
  sw_cols : forall row, row ∈ maze.rows m -> length row = maze.w m;
  sw_joined : joined m hp;
  sw_placed : forall c, valid hp c -> exists i' j', at_pos m i' j' c;
  sw_before : forall i' j' c, at_pos m i' j' c ->
    valid hp c /\ (i' < i \/ (i' = i /\ j' < j))%nat;
  sw_inj : forall i1 j1 i2 j2 c,
    at_pos m i1 j1 c -> at_pos m i2 j2 c -> i1 = i2 /\ j1 = j2;
  sw_keys : forall c x, hp !! c = Some x -> cell.cellType x = CellType.key ->
    contains (maze.keys m) (cell.char x) = true;
  sw_size : (length hp <= i * maze.w m + Nat.min j (maze.w m))%nat
}.

(** A heap that has the cells of another one, with the same characters. *)
Definition keeps (hp hp' : heap) : Prop :=
  length hp' = length hp /\
  forall p x, hp !! p = Some x -> exists x', hp' !! p = Some x' /\ cell.char x' = cell.char x.

(** The graph of a heap: its cells without their path lists. *)
Definition strip (hp : heap) : heap := (fun x => cell.set_paths x []) <$> hp.

(** Start and key cells, the cells that get a path list. *)
Definition landmark (x : cell.t) : bool :=
  CellType.eqb (cell.cellType x) CellType.key
  || CellType.eqb (cell.cellType x) CellType.start.

(** The path lists of a heap are those [findPaths] computes on [hp1]. *)
Definition paths_from (hp1 hp : heap) : Prop :=
  strip hp = strip hp1 /\
  forall c x, hp !! c = Some x ->
    cell.paths x = [] \/ (landmark x = true /\ findPaths hp1 c = Some (cell.paths x)).

(** Cell [c] has its path list, if it is to have one. *)
Definition paths_done (hp1 hp : heap) (c : ptr) : Prop :=
  forall x, hp !! c = Some x -> landmark x = true -> findPaths hp1 c = Some (cell.paths x).

(** What [readMaze] establishes. *)
Record maze_ok (m : maze.t) (hp : heap) : Prop := {
  ok_typed : forall c x, hp !! c = Some x ->
    cell.cellType x = cell.cellType (newCell (cell.char x));
  ok_sym : forall p q, edge hp p q -> edge hp q p;
  ok_orth : forall p q, edge hp p q ->
    exists i1 j1 i2 j2, at_pos m i1 j1 p /\ at_pos m i2 j2 q /\ orthogonal i1 j1 i2 j2;
  ok_placed : forall c, valid hp c <-> exists i j, at_pos m i j c;
  ok_inj : forall i1 j1 i2 j2 c,
    at_pos m i1 j1 c -> at_pos m i2 j2 c -> i1 = i2 /\ j1 = j2;
  ok_paths : forall c x, hp !! c = Some x ->
    if landmark x then findPaths hp c = Some (cell.paths x) else cell.paths x = [];
  ok_keys : forall c x, hp !! c = Some x -> cell.cellType x = CellType.key ->
    contains (maze.keys m) (cell.char x) = true;
  ok_size : Z.of_nat (length hp) < 2 ^ 63
}.

(** ** Walks and distances in the adjacency graph *)

Inductive walk (hp : heap) (c : ptr) : ptr -> nat -> Prop :=
  | walk_here : walk hp c c 0
  | walk_step d e n : walk hp c d n -> edge hp d e -> walk hp c e (S n).

(** [n] is the least number of hops from [c] to [k]. *)
Definition distance (hp : heap) (c k : ptr) (n : nat) : Prop :=
  walk hp c k n /\ forall n', walk hp c k n' -> (n <= n')%nat.

Definition reachable (hp : heap) (c k : ptr) : Prop := exists n, walk hp c k n.

(** The path ends at a key cell. *)
Definition key_dest (hp : heap) (p : path.t) : bool :=
  match hp !! path.dest p with
  | Some d => CellType.eqb (cell.cellType d) CellType.key
  | None => false
  end.

(** What holds of the search from [c] between two rounds of its queue loop:
    [dn] are the paths taken from the queue so far and [q] is the queue. *)
Record bfs_inv (hp : heap) (c : ptr) (seen : gset ptr) (dn q : list path.t) : Prop := {
  bi_seen : forall a, a ∈ seen <-> a ∈ (path.dest <$> (dn ++ q));
  bi_nodup : NoDup (path.dest <$> (dn ++ q));
  bi_first : head (dn ++ q) = Some (path.mk 0 c 0);
  bi_valid : forall p, p ∈ dn ++ q -> valid hp (path.dest p);
  bi_walk : forall p, p ∈ dn ++ q ->
    0 <= path.len p /\ walk hp c (path.dest p) (Z.to_nat (path.len p));
  bi_index : forall k p, (dn ++ q) !! k = Some p -> path.len p <= Z.of_nat k;
  bi_sorted : forall k1 k2 p1 p2, (k1 <= k2)%nat ->
    (dn ++ q) !! k1 = Some p1 -> (dn ++ q) !! k2 = Some p2 -> path.len p1 <= path.len p2;
  bi_close : forall hd p, head q = Some hd -> p ∈ dn ++ q -> path.len p <= path.len hd + 1;
  bi_edges : forall p v, p ∈ dn -> edge hp (path.dest p) v ->
    exists p', p' ∈ dn ++ q /\ path.dest p' = v /\ path.len p' <= path.len p + 1;
  bi_doors : (forall a x, hp !! a = Some x -> cell.cellType x <> CellType.door) ->
    forall p, p ∈ dn ++ q -> path.reqKeys p = 0
}.

(** Rows of ASCII text.  On other bytes [range] steps over whole runes,
    which [readRow] does not follow. *)
Definition ascii_rows (rows : list string) : bool :=
  forallb (fun row => forallb (fun ch => byte_val ch <? 128) (list_ascii_of_string row)) rows.

(** ** Memoization *)

(** No letter is on two cells of the maze. *)
Definition unique_letters (hp : heap) : Prop :=
  forall p q x y, hp !! p = Some x -> hp !! q = Some y ->
    lowercase (cell.char x) -> cell.char x = cell.char y -> p = q.

(** The cell lists of the states that a search from [cs0] can come to:
    every agent is where it was in [cs0] or on a cell with a letter. *)
Definition shape (hp : heap) (cs0 cs : list ptr) : Prop :=
  Forall2 (fun c0 c => c = c0 \/ exists x, hp !! c = Some x /\ lowercase (cell.char x)) cs0 cs.

(** Every entry of the table is the value the search without a table
    returns for the state the entry belongs to. *)
Definition table_ok (hp : heap) (mkeys : keyset) (cs0 : list ptr)
    (t : gmap string Z) : Prop :=
  forall key v, t !! key = Some v ->
    forall cs keys, shape hp cs0 cs -> 0 <= keys -> stringOf hp cs keys = Some key ->
      exists fuel, nomemoP fuel hp mkeys cs keys tt = Some (v, tt).

Definition maze_dup : list string :=
  ["##########"; "#a.@..a.b#"; "##########"]%string.

(** [unique_letters] as a test. *)
Definition unique_lettersb (hp : heap) : bool :=
  forallb (fun p => forallb (fun q =>
    match hp !! p, hp !! q with
    | Some x, Some y =>
        implb ((97 <=? byte_val (cell.char x)) && (byte_val (cell.char x) <=? 122)
               && Ascii.eqb (cell.char x) (cell.char y))
              (Nat.eqb p q)
    | _, _ => true
    end) (seq 0 (length hp))) (seq 0 (length hp)).

(** The maze and the heap [readMaze] builds for the first scenario; the
    cells of [b . A . @ . a] are 0 to 6 in this order. *)
Definition scenario1_maze : maze.t :=
  Eval vm_compute in
    match readMaze maze1 with Some (m, _) => m | None => maze.mk 0 0 [] 0 end.
Definition scenario1_heap : heap :=
  Eval vm_compute in
    match readMaze maze1 with Some (_, hp) => hp | None => [] end.
Definition scenario1_key_a : cell.t :=
  Eval vm_compute in default (newCell "a") (scenario1_heap !! 6%nat).

(** A maze with the letter [a] on two cells: the door [C] has no key, so
    from the left [a] (cell 8) the key [b] is reachable through the door
    only, and from the right [a] (cell 13) freely. *)
Definition maze_stuck : list string :=
  ["#....@.#"; "#.####.#"; "#aCb..a#"]%string.

(** A maze whose key [b] is walled off; its cells [a . @ b] are 0 to 3. *)
Definition maze_walled : list string :=
  ["#######"; "#a.@#b#"; "#######"]%string.
Definition walled_maze : maze.t :=
  Eval vm_compute in
    match readMaze maze_walled with Some (m, _) => m | None => maze.mk 0 0 [] 0 end.
Definition walled_heap : heap :=
  Eval vm_compute in
    match readMaze maze_walled with Some (_, hp) => hp | None => [] end.

(** A maze with one key and no door; its cells [@ . a] are 0 to 2. *)
Definition maze_one : list string :=
  ["#####"; "#@.a#"; "#####"]%string.
Definition one_maze : maze.t :=
  Eval vm_compute in
    match readMaze maze_one with Some (m, _) => m | None => maze.mk 0 0 [] 0 end.
Definition one_heap : heap :=
  Eval vm_compute in
    match readMaze maze_one with Some (_, hp) => hp | None => [] end.
Definition one_key : cell.t :=
  Eval vm_compute in default (newCell "a") (one_heap !! 2%nat).

(** Input that [readMaze] reads without a fault: there is a first row, no
    row is longer than it, and the grid fits an [int]. *)
Definition fits (rows : list string) : Prop :=
  match rows with
  | [] => False
  | r0 :: _ =>
      Z.of_nat (String.length r0) * Z.of_nat (length rows) < 2 ^ 63 /\
      Forall (fun row => (String.length row <= String.length r0)%nat) rows
  end.

(** ** Further specification-side definitions *)

(** The input [readMaze] reads without a fault: there is a first row, the
    grid fits an [int], and no row has a character other than ['#'] at or
    past the length of the first row. *)
Definition accepted (rows : list string) : Prop :=
  match rows with
  | [] => False
  | r0 :: _ =>
      Z.of_nat (String.length r0) * Z.of_nat (length rows) < 2 ^ 63 /\
      forall i row k ch,
        rows !! i = Some row -> String.get k row = Some ch -> ch <> "#"%char ->
        (k < String.length r0)%nat
  end.

(** The character of the input at row [i] and column [j]. *)
Definition char_at (rows : list string) (i j : nat) : option ascii :=
  row ← rows !! i; String.get j row.

(** What holds of the maze and the input while the grid is swept, with the
    sweep at row [i] and column [j]: the cells placed are the characters
    other than ['#'] read so far, cells at orthogonal positions are joined,
    and the keyset of the maze holds letters of cells only. *)
Record parsed (rows : list string) (m : maze.t) (hp : heap) (i j : nat) : Prop := {
  pa_cell : forall i' j' c, at_pos m i' j' c ->
    exists x, hp !! c = Some x /\ char_at rows i' j' = Some (cell.char x) /\
      cell.char x <> "#"%char;
  pa_char : forall i' j' ch, (i' < i \/ (i' = i /\ j' < j))%nat ->
    char_at rows i' j' = Some ch -> ch <> "#"%char -> exists c, at_pos m i' j' c;
  pa_adj : forall i1 j1 i2 j2 p q,
    at_pos m i1 j1 p -> at_pos m i2 j2 q -> orthogonal i1 j1 i2 j2 -> edge hp p q;
  pa_keys_range : 0 <= maze.keys m < 2 ^ 26;
  pa_keys : forall c, lowercase c -> contains (maze.keys m) c = true ->
    exists p x, hp !! p = Some x /\ cell.char x = c
}.

(** A walk from [c] with its length and the lower-cased letters of the
    doors it enters, as [findPaths] gathers them in [reqKeys]. *)
Inductive route (hp : heap) (c : ptr) : ptr -> nat -> keyset -> Prop :=
  | route_here : route hp c c 0 0
  | route_step d e n ks x :
      route hp c d n ks -> edge hp d e -> hp !! e = Some x ->
      route hp c e (S n)
        (if CellType.eqb (cell.cellType x) CellType.door
         then plus ks (byte_or (cell.char x) 32) else ks).

(** The paths of a list are in the order of their lengths. *)
Definition by_length (ps : list path.t) : Prop :=
  StronglySorted (fun p1 p2 => path.len p1 <= path.len p2) ps.

(** The cells of the grid in row-major order. *)
Definition grid_cells (m : maze.t) : list ptr := omap id (mjoin (maze.rows m)).

(** Cell [c] is a start cell. *)
Definition is_start (hp : heap) (c : ptr) : bool :=
  match hp !! c with
  | Some x => CellType.eqb (cell.cellType x) CellType.start
  | None => false
  end.

(** ** Sequences of moves *)

(** Agent [i] can follow path [p] in the state: [p] is a path of the cell
    the agent is on and it is eligible. *)
Definition follows (hp : heap) (cs : list ptr) (keys : keyset) (i : nat) (p : path.t)
  : Prop :=
  exists c x, cs !! i = Some c /\ hp !! c = Some x /\ p ∈ cell.paths x /\
    eligible hp keys p = true.

(** [plan hp mkeys cs keys d]: there is a sequence of moves from the state
    that goes on until the keys are [mkeys] or no move is left, and the
    lengths of its paths add up to [d]. *)
Inductive plan (hp : heap) (mkeys : keyset) : list ptr -> keyset -> Z -> Prop :=
  | plan_done cs : plan hp mkeys cs mkeys 0
  | plan_stuck cs keys :
      keys <> mkeys -> (forall i p, ~ follows hp cs keys i p) -> plan hp mkeys cs keys 0
  | plan_move cs keys i p d :
      keys <> mkeys -> follows hp cs keys i p ->
      plan hp mkeys (nextCells cs i p) (nextKeys hp keys p) d ->
      plan hp mkeys cs keys (path.len p + d).

(** [r] is the least total of a plan from the state. *)
Definition least_plan (hp : heap) (mkeys : keyset) (cs : list ptr) (keys : keyset)
    (r : Z) : Prop :=
  plan hp mkeys cs keys r /\ forall d, plan hp mkeys cs keys d -> r <= d.

(** Every agent that is on a key cell has the letter of that cell. *)
Definition settled (hp : heap) (cs : list ptr) (keys : keyset) : Prop :=
  forall c x, c ∈ cs -> hp !! c = Some x -> cell.cellType x = CellType.key ->
    contains keys (cell.char x) = true.

(** What holds of [min] in the loops of [shortestPath] when the moves in
    [seen] are done: it is zero as long as no move could be made, and the
    least total of a plan that begins with one of the moves after that. *)
Definition least_so_far (hp : heap) (mkeys : keyset) (cs : list ptr) (keys : keyset)
    (seen : nat -> path.t -> Prop) (bound min : Z) : Prop :=
  0 <= min <= bound /\
  (min <> 0 -> exists j q d, follows hp cs keys j q /\
     plan hp mkeys (nextCells cs j q) (nextKeys hp keys q) d /\ min = path.len q + d) /\
  (forall j q, seen j q -> follows hp cs keys j q -> 0 < min) /\
  (forall j q d, seen j q -> follows hp cs keys j q ->
     plan hp mkeys (nextCells cs j q) (nextKeys hp keys q) d -> min <= path.len q + d).

(** No cell is twice in an adjacency list. *)
Definition nodup_adj (hp : heap) : Prop :=
  forall p x, hp !! p = Some x -> NoDup (cell.adj x).

(** * Properties *)

(** ** Bytes and keysets *)

Lemma byte_val_range c : 0 <= byte_val c < 256.
Proof.
  unfold byte_val. pose proof (N_ascii_bounded c). lia.
Qed.

Lemma byte_val_inj c d : byte_val c = byte_val d -> c = d.
Proof.
  unfold byte_val. intros H. apply N2Z.inj in H.
  rewrite <- (ascii_N_embedding c), <- (ascii_N_embedding d). congruence.
Qed.

Lemma byte_sub_nonneg c d : 0 <= byte_sub c d.
Proof. unfold byte_sub. apply Z.mod_pos_bound. lia. Qed.

Lemma byte_sub_a c : lowercase c -> byte_sub c "a" = byte_val c - 97.
Proof.
  unfold lowercase, byte_sub. intros H.
  change (byte_val "a") with 97. rewrite Z.mod_small; lia.
Qed.

Lemma contains_testbit k char :
  contains k char = Z.testbit k (byte_sub char "a").
Proof.
  unfold contains. pose proof (byte_sub_nonneg char "a") as Hn.
  change 1 with (Z.ones 1) at 1. rewrite Z.land_ones by lia.
  change (2 ^ 1) with 2. rewrite <- Z.bit0_eqb.
  rewrite Z.shiftr_spec by lia. f_equal.
Qed.

Lemma plus_testbit k char n :
  0 <= n ->
  Z.testbit (plus k char) n =
  Z.testbit k n || (bool_decide (n = byte_sub char "a") && bool_decide (n < 64)).
Proof.
  intros Hn. unfold plus, uint_wrap. pose proof (byte_sub_nonneg char "a") as Hs.
  rewrite Z.lor_spec. f_equal.
  rewrite Z.shiftl_1_l.
  destruct (decide (n < 64)) as [Hlt|Hge].
  - rewrite Z.mod_pow2_bits_low by lia. rewrite Z.pow2_bits_eqb by lia.
    rewrite (bool_decide_eq_true_2 (n < 64)) by done. rewrite andb_true_r.
    destruct (Z.eqb_spec (byte_sub char "a") n); case_bool_decide; congruence.
  - rewrite Z.mod_pow2_bits_high by lia.
    rewrite (bool_decide_eq_false_2 (n < 64)) by done. by rewrite andb_false_r.
Qed.

Lemma plus_nonneg k char : 0 <= k -> 0 <= plus k char.
Proof.
  intros Hk. unfold plus, uint_wrap. apply Z.lor_nonneg. split; [done|].
  apply Z.mod_pos_bound. lia.
Qed.

Lemma plus_uint k char : 0 <= k < 2 ^ 64 -> 0 <= plus k char < 2 ^ 64.
Proof.
  intros Hk. split; [apply plus_nonneg; lia|].
  unfold plus, uint_wrap.
  assert (Hm : 0 <= Z.shiftl 1 (byte_sub char "a") mod 2 ^ 64 < 2 ^ 64)
    by (apply Z.mod_pos_bound; lia).
  set (x := Z.shiftl 1 (byte_sub char "a") mod 2 ^ 64) in *.
  destruct (Z.eq_dec (Z.lor k x) 0) as [->|Hne]; [lia|].
  assert (0 <= Z.lor k x) by (apply Z.lor_nonneg; lia).
  apply Z.log2_lt_pow2; [lia|]. rewrite Z.log2_lor by lia.
  apply Z.max_lub_lt.
  - destruct (Z.eq_dec k 0) as [->|]; [simpl; lia|]. apply Z.log2_lt_pow2; lia.
  - destruct (Z.eq_dec x 0) as [->|]; [simpl; lia|]. apply Z.log2_lt_pow2; lia.
Qed.

Lemma contains_plus_same k c : lowercase c -> contains (plus k c) c = true.
Proof.
  intros Hc. rewrite contains_testbit, plus_testbit by apply byte_sub_nonneg.
  rewrite byte_sub_a by done. unfold lowercase in Hc.
  rewrite !bool_decide_eq_true_2 by lia. apply orb_true_r.
Qed.

Lemma contains_plus_other k c d :
  lowercase c -> lowercase d -> d <> c -> contains (plus k c) d = contains k d.
Proof.
  intros Hc Hd Hne. rewrite !contains_testbit, plus_testbit by apply byte_sub_nonneg.
  rewrite !byte_sub_a by done.
  rewrite (bool_decide_eq_false_2 (_ = _)); [by rewrite orb_false_r|].
  intros Heq. apply Hne, byte_val_inj. lia.
Qed.

Lemma containsAll_bits k ks :
  containsAll k ks = true <->
  forall n, 0 <= n -> Z.testbit ks n = true -> Z.testbit k n = true.
Proof.
  unfold containsAll. rewrite Z.eqb_eq. split.
  - intros H n Hn Hb. rewrite <- H in Hb. rewrite Z.land_spec in Hb.
    by apply andb_true_iff in Hb as [? _].
  - intros H. apply Z.bits_inj'. intros n Hn. rewrite Z.land_spec.
    destruct (Z.testbit ks n) eqn:E; [|apply andb_false_r].
    by rewrite (H n Hn E).
Qed.

Lemma letter_bit n : 0 <= n < 26 -> exists c, lowercase c /\ byte_sub c "a" = n.
Proof.
  intros Hn. exists (byte_of (n + 97)).
  assert (Hv : byte_val (byte_of (n + 97)) = n + 97).
  { unfold byte_val, byte_of. rewrite Z.mod_small by lia.
    rewrite N_ascii_embedding; [lia|]. lia. }
  assert (Hl : lowercase (byte_of (n + 97))) by (unfold lowercase; lia).
  split; [done|]. rewrite byte_sub_a by done. lia.
Qed.

Lemma low_bits_only ks n : 0 <= ks < 2 ^ 26 -> 26 <= n -> Z.testbit ks n = false.
Proof.
  intros Hks Hn. destruct (Z.eq_dec ks 0) as [->|]; [apply Z.bits_0|].
  apply Z.bits_above_log2; [lia|].
  assert (Z.log2 ks < 26) by (apply Z.log2_lt_pow2; lia). lia.
Qed.

Lemma containsAll_letters k ks :
  0 <= ks < 2 ^ 26 ->
  containsAll k ks = true <->
  forall e, lowercase e -> contains ks e = true -> contains k e = true.
Proof.
  intros Hks. rewrite containsAll_bits. split.
  - intros H e He. rewrite !contains_testbit. apply H, byte_sub_nonneg.
  - intros H n Hn Hb. destruct (decide (n < 26)) as [Hlt|Hge].
    + destruct (letter_bit n) as (c & Hc & <-); [lia|].
      rewrite <- contains_testbit in *. by apply H.
    + rewrite low_bits_only in Hb by lia. done.
Qed.

(** C7 (counterexample): the keyset type is a whole [uint], and a bit that
    belongs to no letter makes [containsAll] fail although every letter of
    the argument is contained. *)
Lemma containsAll_not_letter_subset :
  containsAll 0 (2 ^ 26) = false /\
  (forall e, lowercase e -> contains (2 ^ 26) e = true -> contains 0 e = true).
Proof.
  split; [reflexivity|].
  intros e He Hc. rewrite contains_testbit, byte_sub_a in Hc by done.
  unfold lowercase in He. rewrite Z.pow2_bits_eqb in Hc by lia.
  apply Z.eqb_eq in Hc. lia.
Qed.

(** C7 (amended): [plus] and [contains] are insertion and membership over
    the lower-case letters, and [containsAll] is the subset test on letters
    for every argument that holds letters only. *)
Theorem keyset_set_semantics (k ks : keyset) (c d : ascii) :
  lowercase c -> lowercase d -> 0 <= ks < 2 ^ 26 ->
  contains (plus k c) c = true /\
  (d <> c -> contains (plus k c) d = contains k d) /\
  (containsAll k ks = true <->
   forall e, lowercase e -> contains ks e = true -> contains k e = true).
Proof.
  intros Hc Hd Hks. split; [by apply contains_plus_same|]. split.
  - by apply contains_plus_other.
  - by apply containsAll_letters.
Qed.

Lemma keyset_set_semantics_witness :
  contains (plus 5 "b"%char) "b"%char = true /\
  ("a"%char <> "b"%char -> contains (plus 5 "b"%char) "a"%char = contains 5 "a"%char) /\
  (containsAll 5 4 = true <->
   forall e, lowercase e -> contains 4 e = true -> contains 5 e = true).
Proof.
  apply (keyset_set_semantics 5 4 "b"%char "a"%char); unfold lowercase; vm_compute;
    intuition congruence.
Defined.

(** ** The slice store only grows *)

Lemma copy_then_set st s i c ns st1 st2 :
  state_copy st s = Some (ns, st1) ->
  slice_set st1 (state.cells ns) i c = Some st2 ->
  exists cs, st !! state.cells s = Some cs /\ (i < length cs)%nat /\
    ns = state.mk (length st) (state.keys s) /\ st2 = st ++ [<[i := c]> cs].
Proof.
  unfold state_copy, slice_set. intros Hc Hs.
  destruct (st !! state.cells s) as [cs|] eqn:E; simplify_eq/=.
  rewrite lookup_app_r, Nat.sub_diag in Hs by lia. simpl in Hs.
  case_decide; simplify_eq/=. exists cs. repeat split; try done.
  rewrite insert_app_r_alt, Nat.sub_diag by lia. done.
Qed.

Lemma copy_then_set_ok st s i c cs :
  st !! state.cells s = Some cs -> (i < length cs)%nat ->
  state_copy st s = Some (state.mk (length st) (state.keys s), st ++ [cs]) /\
  slice_set (st ++ [cs]) (length st) i c = Some (st ++ [<[i := c]> cs]).
Proof.
  intros E Hi. unfold state_copy, slice_set. rewrite E. simpl. split; [done|].
  rewrite lookup_app_r, Nat.sub_diag by lia. simpl.
  rewrite decide_True by done.
  rewrite insert_app_r_alt, Nat.sub_diag by lia. done.
Qed.

Section loops_grow.
Context {X : Type}.
Variable hp : heap.
Variable rec : state.t → store * X → option (Z * (store * X)).
Hypothesis rec_grows : forall s wd r wd',
  rec s wd = Some (r, wd') -> wd.1 `prefix_of` wd'.1.

Lemma pathsLoop_grows ps : forall s i min wd r wd',
  pathsLoop hp rec s i ps min wd = Some (r, wd') -> wd.1 `prefix_of` wd'.1.
Proof.
  induction ps as [|p ps IH]; simpl; intros s i min wd r wd' H.
  - by simplify_eq.
  - destruct (hp !! path.dest p) as [d|]; simpl in H; [|done].
    destruct (contains _ _ || negb _); [by eapply IH|].
    destruct (state_copy wd.1 s) as [[ns st1]|] eqn:Ec; simpl in H; [|done].
    destruct (slice_set st1 _ _ _) as [st2|] eqn:Es; simpl in H; [|done].
    destruct (rec _ _) as [[r1 wd1]|] eqn:Er; simpl in H; [|done].
    destruct (copy_then_set _ _ _ _ _ _ _ Ec Es) as (cs & _ & _ & _ & ->).
    apply rec_grows in Er. simpl in Er. apply IH in H.
    etrans; [|exact H]. etrans; [|exact Er]. by apply prefix_app_r.
Qed.

Lemma cellsLoop_grows n : forall s i min wd r wd',
  cellsLoop hp rec s n i min wd = Some (r, wd') -> wd.1 `prefix_of` wd'.1.
Proof.
  induction n as [|n IH]; simpl; intros s i min wd r wd' H.
  - by simplify_eq.
  - destruct (wd.1 !! state.cells s) as [cs|]; simpl in H; [|done].
    destruct (cs !! i) as [c|]; simpl in H; [|done].
    destruct (hp !! c) as [x|]; simpl in H; [|done].
    destruct (pathsLoop _ _ _ _ _ _ _) as [[m1 wd1]|] eqn:Ep; simpl in H; [|done].
    apply pathsLoop_grows in Ep. apply IH in H. by etrans.
Qed.
End loops_grow.

Lemma shortestPath_grows fuel m hp : forall s wd r wd',
  shortestPath fuel m hp s wd = Some (r, wd') -> wd.1 `prefix_of` wd'.1.
Proof.
  induction fuel as [|fuel IH]; simpl; intros s wd r wd' H; [done|].
  destruct (state_String hp wd.1 s) as [k|]; simpl in H; [|done].
  destruct (state.keys s =? maze.keys m); [by simplify_eq|].
  destruct (wd.2 !! k); [by simplify_eq|].
  destruct (wd.1 !! state.cells s) as [cs|]; simpl in H; [|done].
  destruct (cellsLoop _ _ _ _ _ _ _) as [[m1 [st1 t1]]|] eqn:Ec; simpl in H; [|done].
  simplify_eq. apply cellsLoop_grows in Ec; [done|]. exact IH.
Qed.

Lemma shortestPathNoMemo_grows fuel m hp : forall s wd r wd',
  shortestPathNoMemo fuel m hp s wd = Some (r, wd') -> wd.1 `prefix_of` wd'.1.
Proof.
  induction fuel as [|fuel IH]; simpl; intros s wd r wd' H; [done|].
  destruct (state_String hp wd.1 s) as [k|]; simpl in H; [|done].
  destruct (state.keys s =? maze.keys m); [by simplify_eq|].
  destruct (wd.1 !! state.cells s) as [cs|]; simpl in H; [|done].
  apply cellsLoop_grows in H; [done|]. exact IH.
Qed.

Lemma prefix_lookup_keep (st st' : store) sl cs :
  st `prefix_of` st' -> st !! sl = Some cs -> st' !! sl = Some cs.
Proof. intros Hp Hl. by eapply prefix_lookup_Some. Qed.

(** C10: a call of [shortestPath] that returns leaves every slice that
    existed before the call as it was, the cells of its state argument among
    them; the keys of the state are passed by value.  Candidate states are
    written on fresh copies only. *)
Theorem shortestPath_keeps_state fuel m hp s st table r st' table' :
  shortestPath fuel m hp s (st, table) = Some (r, (st', table')) ->
  st' !! state.cells s = st !! state.cells s /\
  is_Some (st !! state.cells s) /\
  forall sl cs, st !! sl = Some cs -> st' !! sl = Some cs.
Proof.
  intros H. pose proof (shortestPath_grows _ _ _ _ _ _ _ H) as Hp. simpl in Hp.
  assert (Hs : is_Some (st !! state.cells s)).
  { destruct fuel; simpl in H; [done|]. unfold state_String in H. simpl in H.
    destruct (st !! state.cells s); [by eexists|done]. }
  split; [|split; [done|]].
  - destruct Hs as [cs Hcs]. rewrite Hcs. by eapply prefix_lookup_keep.
  - intros sl cs. by apply prefix_lookup_keep.
Qed.

(** ** The search over slice contents *)

Section loops_refine.
Context {X : Type}.
Variable hp : heap.
Variable rec : state.t → store * X → option (Z * (store * X)).
Variable recP : list ptr → keyset → X → option (Z * X).
Hypothesis rec_grows : forall s wd r wd',
  rec s wd = Some (r, wd') -> wd.1 `prefix_of` wd'.1.
Hypothesis rec_refines : forall s st x cs,
  st !! state.cells s = Some cs -> erase (rec s (st, x)) = recP cs (state.keys s) x.

Lemma pathsLoop_refines ps : forall s i min st x cs,
  st !! state.cells s = Some cs ->
  erase (pathsLoop hp rec s i ps min (st, x)) = pathsLoopP hp recP cs (state.keys s) i ps min x.
Proof.
  induction ps as [|p ps IH]; simpl; intros s i min st x cs Hcs; [done|].
  destruct (hp !! path.dest p) as [d|]; simpl; [|done].
  destruct (contains _ _ || negb _); [by apply IH|].
  case_decide as Hi.
  - destruct (copy_then_set_ok st s i (path.dest p) cs Hcs Hi) as [-> Hset].
    simpl. rewrite Hset. simpl.
    set (ns := state.mk (length st) (plus (state.keys s) (cell.char d))).
    assert (Hns : (st ++ [<[i:=path.dest p]> cs]) !! state.cells ns
                  = Some (<[i:=path.dest p]> cs)).
    { simpl. by rewrite lookup_app_r, Nat.sub_diag by lia. }
    pose proof (rec_refines ns _ x _ Hns) as Hr. simpl in Hr. rewrite <- Hr.
    destruct (rec ns _) as [[r [st1 x1]]|] eqn:Er; simpl; [|done].
    apply IH. apply rec_grows in Er. simpl in Er.
    eapply prefix_lookup_keep; [|exact Hcs]. etrans; [|exact Er]. by apply prefix_app_r.
  - unfold state_copy. rewrite Hcs. simpl. unfold slice_set. simpl.
    rewrite lookup_app_r, Nat.sub_diag by lia. simpl. by rewrite decide_False.
Qed.

Lemma cellsLoop_refines n : forall s i min st x cs,
  st !! state.cells s = Some cs ->
  erase (cellsLoop hp rec s n i min (st, x)) = cellsLoopP hp recP cs (state.keys s) n i min x.
Proof.
  induction n as [|n IH]; simpl; intros s i min st x cs Hcs; [done|].
  rewrite Hcs. simpl.
  destruct (cs !! i) as [c|]; simpl; [|done].
  destruct (hp !! c) as [xc|]; simpl; [|done].
  rewrite <- (pathsLoop_refines _ s i min st x cs Hcs).
  destruct (pathsLoop _ _ _ _ _ _ _) as [[m1 [st1 x1]]|] eqn:Ep; simpl; [|done].
  apply IH. apply (pathsLoop_grows hp rec rec_grows) in Ep. simpl in Ep.
  by eapply prefix_lookup_keep.
Qed.
End loops_refine.

Lemma state_String_stringOf hp st s cs :
  st !! state.cells s = Some cs -> state_String hp st s = stringOf hp cs (state.keys s).
Proof. intros H. unfold state_String, stringOf. by rewrite H. Qed.

Lemma shortestPath_refines fuel m hp : forall s st table cs,
  st !! state.cells s = Some cs ->
  erase (shortestPath fuel m hp s (st, table))
  = memoP fuel hp (maze.keys m) cs (state.keys s) table.
Proof.
  induction fuel as [|fuel IH]; simpl; intros s st table cs Hcs; [done|].
  rewrite (state_String_stringOf _ _ _ _ Hcs).
  destruct (stringOf _ _ _) as [k|]; simpl; [|done].
  destruct (state.keys s =? maze.keys m); [done|].
  destruct (table !! k); [done|].
  rewrite Hcs. simpl.
  rewrite <- (cellsLoop_refines hp (shortestPath fuel m hp) (memoP fuel hp (maze.keys m))
    (shortestPath_grows fuel m hp) (fun s st x cs H => IH s st x cs H)
    (length cs) s 0%nat 0 st table cs Hcs).
  by destruct (cellsLoop _ _ _ _ _ _ _) as [[m1 [st1 t1]]|].
Qed.

Lemma shortestPathNoMemo_refines fuel m hp : forall s st u cs,
  st !! state.cells s = Some cs ->
  erase (shortestPathNoMemo fuel m hp s (st, u))
  = nomemoP fuel hp (maze.keys m) cs (state.keys s) u.
Proof.
  induction fuel as [|fuel IH]; simpl; intros s st u cs Hcs; [done|].
  rewrite (state_String_stringOf _ _ _ _ Hcs).
  destruct (stringOf _ _ _) as [k|]; simpl; [|done].
  destruct (state.keys s =? maze.keys m); [done|].
  rewrite Hcs. simpl.
  apply (cellsLoop_refines hp (shortestPathNoMemo fuel m hp) (nomemoP fuel hp (maze.keys m))
    (shortestPathNoMemo_grows fuel m hp) (fun s st x cs H => IH s st x cs H)).
  done.
Qed.

Lemma erase_Some {X} (o : option (Z * (store * X))) r x :
  erase o = Some (r, x) -> exists st, o = Some (r, (st, x)).
Proof. destruct o as [[r' [st x']]|]; simpl; intros; simplify_eq. by eexists. Qed.

(** ** More fuel changes no result *)

Section loops_mono.
Context {X : Type}.
Variable hp : heap.
Variables recP recP' : list ptr → keyset → X → option (Z * X).
Hypothesis rec_le : forall cs keys x r, recP cs keys x = Some r -> recP' cs keys x = Some r.

Lemma pathsLoopP_mono ps : forall cs keys i min x r,
  pathsLoopP hp recP cs keys i ps min x = Some r ->
  pathsLoopP hp recP' cs keys i ps min x = Some r.
Proof.
  induction ps as [|p ps IH]; simpl; intros cs keys i min x r H; [done|].
  destruct (hp !! path.dest p) as [d|]; simpl in *; [|done].
  destruct (contains _ _ || negb _); [by apply IH|].
  case_decide; [|done].
  destruct (recP _ _ _) as [[r1 x1]|] eqn:Er; simpl in H; [|done].
  rewrite (rec_le _ _ _ _ Er). simpl. by apply IH.
Qed.

Lemma cellsLoopP_mono n : forall cs keys i min x r,
  cellsLoopP hp recP cs keys n i min x = Some r ->
  cellsLoopP hp recP' cs keys n i min x = Some r.
Proof.
  induction n as [|n IH]; simpl; intros cs keys i min x r H; [done|].
  destruct (cs !! i) as [c|]; simpl in *; [|done].
  destruct (hp !! c) as [xc|]; simpl in *; [|done].
  destruct (pathsLoopP hp recP _ _ _ _ _ _) as [[m1 x1]|] eqn:Ep; simpl in H; [|done].
  rewrite (pathsLoopP_mono _ _ _ _ _ _ _ Ep). simpl. by apply IH.
Qed.
End loops_mono.

Lemma memoP_S fuel hp mkeys : forall cs keys t r,
  memoP fuel hp mkeys cs keys t = Some r -> memoP (S fuel) hp mkeys cs keys t = Some r.
Proof.
  induction fuel as [|fuel IH]; intros cs keys t r H; [done|].
  remember (S fuel) as f1. rewrite Heqf1 in H. simpl in *.
  destruct (stringOf _ _ _) as [k|]; simpl in *; [|done].
  destruct (keys =? mkeys); [done|].
  destruct (t !! k); [done|].
  destruct (cellsLoopP _ (memoP fuel _ _) _ _ _ _ _ _) as [[m1 t1]|] eqn:Ec; simpl in H; [|done].
  rewrite (cellsLoopP_mono hp (memoP fuel hp mkeys) (memoP f1 hp mkeys)) with (r := (m1, t1));
    [done| |done].
  subst f1. exact IH.
Qed.

Lemma memoP_mono fuel fuel' hp mkeys cs keys t r :
  (fuel <= fuel')%nat ->
  memoP fuel hp mkeys cs keys t = Some r -> memoP fuel' hp mkeys cs keys t = Some r.
Proof. induction 1; [done|]. intros. by apply memoP_S, IHle. Qed.

Lemma nomemoP_S fuel hp mkeys : forall cs keys u r,
  nomemoP fuel hp mkeys cs keys u = Some r -> nomemoP (S fuel) hp mkeys cs keys u = Some r.
Proof.
  induction fuel as [|fuel IH]; intros cs keys u r H; [done|].
  remember (S fuel) as f1. rewrite Heqf1 in H. simpl in *.
  destruct (stringOf _ _ _) as [k|]; simpl in *; [|done].
  destruct (keys =? mkeys); [done|].
  apply (cellsLoopP_mono hp (nomemoP fuel hp mkeys) (nomemoP f1 hp mkeys)); [|done].
  subst f1. exact IH.
Qed.

Lemma nomemoP_mono fuel fuel' hp mkeys cs keys u r :
  (fuel <= fuel')%nat ->
  nomemoP fuel hp mkeys cs keys u = Some r -> nomemoP fuel' hp mkeys cs keys u = Some r.
Proof. induction 1; [done|]. intros. by apply nomemoP_S, IHle. Qed.

(** ** Every recursive call collects a new letter *)

Lemma filter_length_le {A} (P Q : A → Prop) `{!∀ x, Decision (P x)} `{!∀ x, Decision (Q x)}
    (l : list A) :
  (forall x, x ∈ l -> P x -> Q x) -> (length (filter P l) <= length (filter Q l))%nat.
Proof.
  induction l as [|a l IH]; intros Hpq; [done|].
  rewrite !filter_cons.
  assert (IH' : (length (filter P l) <= length (filter Q l))%nat).
  { apply IH. intros x Hx. apply Hpq. by right. }
  destruct (decide (P a)) as [Hp|Hp].
  - rewrite decide_True by (apply Hpq; [left|done]). simpl. lia.
  - destruct (decide (Q a)); simpl; lia.
Qed.

Lemma filter_length_lt {A} (P Q : A → Prop) `{!∀ x, Decision (P x)} `{!∀ x, Decision (Q x)}
    (l : list A) a :
  (forall x, x ∈ l -> P x -> Q x) -> a ∈ l -> Q a -> ~ P a ->
  (length (filter P l) < length (filter Q l))%nat.
Proof.
  induction l as [|b l IH]; intros Hpq Ha Hq Hp; [by apply elem_of_nil in Ha|].
  rewrite !filter_cons.
  assert (Hl : forall x, x ∈ l -> P x -> Q x) by (intros x Hx; apply Hpq; by right).
  apply elem_of_cons in Ha as [<-|Ha].
  - rewrite decide_False, decide_True by done. simpl.
    pose proof (filter_length_le P Q l Hl). lia.
  - specialize (IH Hl Ha Hq Hp).
    destruct (decide (P b)) as [Hpb|Hpb].
    + rewrite decide_True by (apply Hpq; [left|done]). simpl. lia.
    + destruct (decide (Q b)); simpl; lia.
Qed.

Lemma missing_le_26 keys : (missing keys <= 26)%nat.
Proof.
  unfold missing. etrans; [apply length_filter|]. by rewrite length_seq.
Qed.

Lemma missing_plus keys c :
  lowercase c -> contains keys c = false -> (missing (plus keys c) < missing keys)%nat.
Proof.
  intros Hc Hn. unfold missing.
  rewrite contains_testbit, byte_sub_a in Hn by done. unfold lowercase in Hc.
  apply filter_length_lt with (a := Z.to_nat (byte_val c - 97)).
  - intros n _. rewrite plus_testbit by lia. intros H.
    by apply orb_false_iff in H as [? _].
  - apply elem_of_seq. lia.
  - rewrite Z2Nat.id by lia. done.
  - rewrite Z2Nat.id by lia. rewrite plus_testbit by lia.
    rewrite byte_sub_a by done.
    rewrite !bool_decide_eq_true_2 by lia. rewrite orb_true_r. done.
Qed.

(** ** The search returns *)

Lemma cellChars_valid hp cs : Forall (valid hp) cs -> is_Some (cellChars hp cs).
Proof.
  induction 1 as [|c cs [x Hx] _ [r Hr]]; simpl; [by eexists|].
  rewrite Hx. simpl. rewrite Hr. simpl. by eexists.
Qed.

Lemma cellChars_Some_valid hp cs r : cellChars hp cs = Some r -> Forall (valid hp) cs.
Proof.
  revert r. induction cs as [|c cs IH]; simpl; intros r H; [constructor|].
  destruct (hp !! c) as [x|] eqn:E; simpl in H; [|done].
  destruct (cellChars hp cs) as [r'|]; simpl in H; [|done].
  constructor; [by eexists|]. by eapply IH.
Qed.

Lemma stringOf_valid hp cs keys : Forall (valid hp) cs -> is_Some (stringOf hp cs keys).
Proof.
  intros H. unfold stringOf. destruct (cellChars_valid _ _ H) as [r ->]. simpl. by eexists.
Qed.

Section loops_total.
Context {X : Type}.
Variable hp : heap.
Variable recP : list ptr → keyset → X → option (Z * X).
Variable D : list ptr → keyset → Prop.
Variable I : X → Prop.
Hypothesis rec_total : forall cs keys x, D cs keys -> I x ->
  exists r x', recP cs keys x = Some (r, x') /\ I x'.

Lemma pathsLoopP_total ps : forall cs keys i min x,
  (i < length cs)%nat -> I x ->
  (forall p, p ∈ ps -> is_Some (hp !! path.dest p)) ->
  (forall p, p ∈ ps -> eligible hp keys p = true ->
     D (nextCells cs i p) (nextKeys hp keys p)) ->
  exists r x', pathsLoopP hp recP cs keys i ps min x = Some (r, x') /\ I x'.
Proof.
  induction ps as [|p ps IH]; simpl; intros cs keys i min x Hi Hx Hv Hd; [by eauto|].
  assert (Hps : forall q, q ∈ ps -> q ∈ p :: ps) by (intros; by right).
  destruct (Hv p) as [d Hdp]; [by left|]. rewrite Hdp. simpl.
  destruct (contains _ _ || negb _) eqn:Es; [by apply IH; auto|].
  rewrite decide_True by done.
  apply orb_false_iff in Es as [Es1 Es2]. apply negb_false_iff in Es2.
  destruct (rec_total (<[i:=path.dest p]> cs) (plus keys (cell.char d)) x)
    as (r & x' & -> & Hx'); [|done|].
  { specialize (Hd p). unfold eligible, nextCells, nextKeys in Hd. rewrite Hdp in Hd.
    apply Hd; [by left|]. by rewrite Es1, Es2. }
  simpl. apply IH; auto.
Qed.

Lemma cellsLoopP_total n : forall cs keys i min x,
  (i + n <= length cs)%nat -> I x -> Forall (valid hp) cs ->
  (forall j c xc p, cs !! j = Some c -> hp !! c = Some xc -> p ∈ cell.paths xc ->
     is_Some (hp !! path.dest p) /\
     (eligible hp keys p = true -> D (nextCells cs j p) (nextKeys hp keys p))) ->
  exists r x', cellsLoopP hp recP cs keys n i min x = Some (r, x') /\ I x'.
Proof.
  induction n as [|n IH]; simpl; intros cs keys i min x Hi Hx Hv Hd; [by eauto|].
  destruct (lookup_lt_is_Some_2 cs i) as [c Hc]; [lia|]. rewrite Hc. simpl.
  destruct (proj1 (Forall_lookup _ _) Hv i c Hc) as [xc Hxc]. rewrite Hxc. simpl.
  destruct (pathsLoopP_total (cell.paths xc) cs keys i min x) as (r & x' & -> & Hx');
    [lia|done| | |].
  - intros p Hp. by apply (Hd i c xc p).
  - intros p Hp. by apply (Hd i c xc p).
  - simpl. apply IH; auto. lia.
Qed.
End loops_total.

Lemma wf_paths_next hp cs keys j c xc p :
  wf_paths hp -> Forall (valid hp) cs ->
  cs !! j = Some c -> hp !! c = Some xc -> p ∈ cell.paths xc ->
  is_Some (hp !! path.dest p) /\
  (eligible hp keys p = true ->
     Forall (valid hp) (nextCells cs j p) /\
     (missing (nextKeys hp keys p) < missing keys)%nat).
Proof.
  intros Hwf Hv Hc Hxc Hp. destruct (Hwf c xc p Hxc Hp) as (d & Hd & Hl).
  split; [by eexists|]. unfold eligible, nextCells, nextKeys. rewrite Hd.
  intros He. apply andb_true_iff in He as [He _]. apply negb_true_iff in He.
  split; [|by apply missing_plus].
  apply Forall_insert; [done|by eexists].
Qed.

Lemma memoP_total hp mkeys : wf_paths hp -> forall fuel cs keys t,
  Forall (valid hp) cs -> (missing keys < fuel)%nat ->
  exists r t', memoP fuel hp mkeys cs keys t = Some (r, t').
Proof.
  intros Hwf. induction fuel as [|fuel IH]; intros cs keys t Hv Hm; [lia|].
  simpl. destruct (stringOf_valid hp cs keys Hv) as [k ->]. simpl.
  destruct (keys =? mkeys); [by eauto|].
  destruct (t !! k); [by eauto|].
  destruct (cellsLoopP_total hp (memoP fuel hp mkeys)
    (fun cs' keys' => Forall (valid hp) cs' /\ (missing keys' < fuel)%nat) (fun _ => True))
    with (n := length cs) (cs := cs) (keys := keys) (i := 0%nat) (min := 0) (x := t)
    as (r & t' & -> & _); [| lia | done | done | |].
  - intros cs' keys' x [Hv' Hm'] _. destruct (IH cs' keys' x Hv' Hm') as (r & t' & ->).
    by eauto.
  - intros j c xc p Hc Hxc Hp.
    destruct (wf_paths_next hp cs keys j c xc p Hwf Hv Hc Hxc Hp) as [H1 H2].
    split; [done|]. intros He. destruct (H2 He). split; [done|lia].
  - simpl. by eauto.
Qed.

Lemma nomemoP_total hp mkeys : wf_paths hp -> forall fuel cs keys,
  Forall (valid hp) cs -> (missing keys < fuel)%nat ->
  exists r, nomemoP fuel hp mkeys cs keys tt = Some (r, tt).
Proof.
  intros Hwf. induction fuel as [|fuel IH]; intros cs keys Hv Hm; [lia|].
  simpl. destruct (stringOf_valid hp cs keys Hv) as [k ->]. simpl.
  destruct (keys =? mkeys); [by eauto|].
  destruct (cellsLoopP_total hp (nomemoP fuel hp mkeys)
    (fun cs' keys' => Forall (valid hp) cs' /\ (missing keys' < fuel)%nat) (fun _ => True))
    with (n := length cs) (cs := cs) (keys := keys) (i := 0%nat) (min := 0) (x := tt)
    as (r & [] & -> & _); [| lia | done | done | |].
  - intros cs' keys' [] [Hv' Hm'] _. destruct (IH cs' keys' Hv' Hm') as (r & ->).
    by eauto.
  - intros j c xc p Hc Hxc Hp.
    destruct (wf_paths_next hp cs keys j c xc p Hwf Hv Hc Hxc Hp) as [H1 H2].
    split; [done|]. intros He. destruct (H2 He). split; [done|lia].
  - by eauto.
Qed.

(** ** A state without an eligible path *)

Section loops_skip.
Context {X : Type}.
Variable hp : heap.
Variable recP : list ptr → keyset → X → option (Z * X).

Lemma pathsLoopP_skip ps : forall cs keys i min x,
  (forall p, p ∈ ps -> exists d, hp !! path.dest p = Some d /\
     (contains keys (cell.char d) = true \/ containsAll keys (path.reqKeys p) = false)) ->
  pathsLoopP hp recP cs keys i ps min x = Some (min, x).
Proof.
  induction ps as [|p ps IH]; simpl; intros cs keys i min x H; [done|].
  destruct (H p) as (d & -> & Hd); [by left|]. simpl.
  assert (contains keys (cell.char d) || negb (containsAll keys (path.reqKeys p)) = true)
    as -> by (destruct Hd as [-> | ->]; [done|apply orb_true_r]).
  apply IH. intros q Hq. apply H. by right.
Qed.

Lemma cellsLoopP_skip n : forall cs keys i min x,
  (i + n <= length cs)%nat -> Forall (valid hp) cs ->
  (forall c xc p, c ∈ cs -> hp !! c = Some xc -> p ∈ cell.paths xc ->
     exists d, hp !! path.dest p = Some d /\
     (contains keys (cell.char d) = true \/ containsAll keys (path.reqKeys p) = false)) ->
  cellsLoopP hp recP cs keys n i min x = Some (min, x).
Proof.
  induction n as [|n IH]; simpl; intros cs keys i min x Hi Hv H; [done|].
  destruct (lookup_lt_is_Some_2 cs i) as [c Hc]; [lia|]. rewrite Hc. simpl.
  destruct (proj1 (Forall_lookup _ _) Hv i c Hc) as [xc Hxc]. rewrite Hxc. simpl.
  rewrite pathsLoopP_skip.
  - simpl. apply IH; [lia|done|done].
  - intros p Hp. apply (H c xc p); [|done|done]. by eapply list_elem_of_lookup_2.
Qed.
End loops_skip.


(** ** The recursive calls of one step *)

Lemma eligible_spec hp keys p d :
  hp !! path.dest p = Some d ->
  eligible hp keys p
  = negb (contains keys (cell.char d) || negb (containsAll keys (path.reqKeys p))).
Proof.
  intros H. unfold eligible. rewrite H.
  by destruct (contains _ _), (containsAll _ _).
Qed.

Lemma pathsLoopP_log hp ps : forall cs keys i min log,
  (i < length cs)%nat ->
  (forall p, p ∈ ps -> is_Some (hp !! path.dest p)) ->
  exists r,
    pathsLoopP hp (fun cs' keys' log' => Some (0, log' ++ [(cs', keys')])) cs keys i ps min log
    = Some (r, log ++ candidatesOf hp cs keys i ps).
Proof.
  induction ps as [|p ps IH]; simpl; intros cs keys i min log Hi Hv.
  - exists min. unfold candidatesOf. simpl. by rewrite app_nil_r.
  - destruct (Hv p) as [d Hd]; [by left|]. rewrite Hd. simpl.
    assert (Hv' : forall q, q ∈ ps -> is_Some (hp !! path.dest q))
      by (intros q Hq; apply Hv; by right).
    unfold candidatesOf. rewrite filter_cons.
    rewrite (eligible_spec hp keys p d Hd).
    destruct (contains _ _ || negb _) eqn:Es; simpl.
    + by apply IH.
    + rewrite decide_True by done. simpl.
      edestruct IH as [r ->]; [exact Hi|exact Hv'|].
      exists r. unfold candidatesOf, nextCells, nextKeys. rewrite Hd.
      by rewrite <- app_assoc.
Qed.

Lemma cellsLoopP_log hp n : forall cs keys i min log,
  (i + n = length cs)%nat -> Forall (valid hp) cs ->
  (forall c x p, c ∈ cs -> hp !! c = Some x -> p ∈ cell.paths x ->
     is_Some (hp !! path.dest p)) ->
  exists r,
    cellsLoopP hp (fun cs' keys' log' => Some (0, log' ++ [(cs', keys')])) cs keys n i min log
    = Some (r, log ++ candidatesFrom hp cs keys i (drop i cs)).
Proof.
  induction n as [|n IH]; simpl; intros cs keys i min log Hi Hv Hp.
  - exists min. rewrite drop_ge by lia. simpl. by rewrite app_nil_r.
  - destruct (lookup_lt_is_Some_2 cs i) as [c Hc]; [lia|]. rewrite Hc. simpl.
    destruct (proj1 (Forall_lookup _ _) Hv i c Hc) as [xc Hxc]. rewrite Hxc. simpl.
    destruct (pathsLoopP_log hp (cell.paths xc) cs keys i min log) as [r1 ->]; [lia| |].
    { intros p Hpp. apply (Hp c xc p); [|done|done]. by eapply list_elem_of_lookup_2. }
    simpl. destruct (IH cs keys (S i) r1 (log ++ candidatesOf hp cs keys i (cell.paths xc)))
      as [r ->]; [lia|done|done|].
    exists r. rewrite (drop_S _ _ _ Hc). simpl. rewrite Hxc. by rewrite <- app_assoc.
Qed.


(** Membership in the candidates, in the words of the two tests. *)
Lemma elem_of_candidatesOf hp cs keys i ps c' k' :
  (c', k') ∈ candidatesOf hp cs keys i ps <->
  exists p d, p ∈ ps /\ hp !! path.dest p = Some d /\
    contains keys (cell.char d) = false /\ containsAll keys (path.reqKeys p) = true /\
    c' = <[i := path.dest p]> cs /\ k' = plus keys (cell.char d).
Proof.
  unfold candidatesOf. rewrite list_elem_of_fmap. split.
  - intros (p & Heq & Hp). apply list_elem_of_filter in Hp as [He Hp].
    unfold eligible in He. destruct (hp !! path.dest p) as [d|] eqn:Hd; [|done].
    apply andb_true_iff in He as [H1 H2]. apply negb_true_iff in H1.
    exists p, d. unfold nextCells, nextKeys in Heq. rewrite Hd in Heq. by simplify_eq.
  - intros (p & d & Hp & Hd & H1 & H2 & -> & ->). exists p. split.
    + unfold nextCells, nextKeys. by rewrite Hd.
    + apply list_elem_of_filter. split; [|done]. unfold eligible. by rewrite Hd, H1, H2.
Qed.

(** ** Joining cells *)

Lemma join_spec hp c c1 hp2 :
  join hp c c1 = Some hp2 -> c <> c1 ->
  length hp2 = length hp /\
  (forall p x, hp !! p = Some x -> exists x2, hp2 !! p = Some x2 /\
     cell.char x2 = cell.char x /\ cell.cellType x2 = cell.cellType x /\
     cell.paths x2 = cell.paths x) /\
  (forall p q, edge hp2 p q <-> edge hp p q \/ (p = c /\ q = c1) \/ (p = c1 /\ q = c)).
Proof.
  unfold join. intros H Hne.
  destruct (hp !! c) as [x|] eqn:Hx; simpl in H; [|done].
  rewrite list_lookup_insert_ne in H by done.
  destruct (hp !! c1) as [y|] eqn:Hy; simpl in H; [|done].
  simplify_eq.
  assert (Hc : (c < length hp)%nat) by (by eapply lookup_lt_Some).
  assert (Hc1 : (c1 < length hp)%nat) by (by eapply lookup_lt_Some).
  assert (Hlk : forall p, (<[c1 := cell.set_adj y (cell.adj y ++ [c])]>
      (<[c := cell.set_adj x (cell.adj x ++ [c1])]> hp)) !! p =
      if decide (p = c1) then Some (cell.set_adj y (cell.adj y ++ [c]))
      else if decide (p = c) then Some (cell.set_adj x (cell.adj x ++ [c1]))
      else hp !! p).
  { intros p. destruct (decide (p = c1)) as [->|Hp1].
    - rewrite list_lookup_insert_eq; [done|]. by rewrite length_insert.
    - rewrite list_lookup_insert_ne by done.
      destruct (decide (p = c)) as [->|Hp].
      + by rewrite list_lookup_insert_eq.
      + by rewrite list_lookup_insert_ne. }
  split; [by rewrite !length_insert|]. split.
  - intros p z Hp. rewrite Hlk.
    destruct (decide (p = c1)) as [->|]; [simplify_eq; by eexists|].
    destruct (decide (p = c)) as [->|]; [simplify_eq; by eexists|].
    by eexists.
  - intros p q. unfold edge. rewrite Hlk. split.
    + intros (z & Hz & Hq).
      destruct (decide (p = c1)) as [->|].
      { simplify_eq. simpl in Hq. apply elem_of_app in Hq as [Hq|Hq].
        - left. by eexists.
        - apply list_elem_of_singleton in Hq. auto. }
      destruct (decide (p = c)) as [->|].
      { simplify_eq. simpl in Hq. apply elem_of_app in Hq as [Hq|Hq].
        - left. by eexists.
        - apply list_elem_of_singleton in Hq. auto. }
      left. by eexists.
    + intros [(z & Hz & Hq)|[[-> ->]|[-> ->]]].
      * destruct (decide (p = c1)) as [->|].
        { simplify_eq. eexists. split; [done|]. simpl. apply elem_of_app. by left. }
        destruct (decide (p = c)) as [->|].
        { simplify_eq. eexists. split; [done|]. simpl. apply elem_of_app. by left. }
        by eexists.
      * rewrite decide_False by done. rewrite decide_True by done.
        eexists. split; [done|]. simpl. apply elem_of_app. right. by left.
      * rewrite decide_True by done.
        eexists. split; [done|]. simpl. apply elem_of_app. right. by left.
Qed.

Lemma join_total hp c c1 : valid hp c -> valid hp c1 -> is_Some (join hp c c1).
Proof.
  intros [x Hx] [y Hy]. unfold join. rewrite Hx. simpl.
  assert (Hc : (c < length hp)%nat) by (by eapply lookup_lt_Some).
  destruct (decide (c = c1)) as [<-|Hne].
  - rewrite list_lookup_insert_eq by done. simpl. by eexists.
  - rewrite list_lookup_insert_ne by done. rewrite Hy. simpl. by eexists.
Qed.

Lemma joinAt_joined m hp c i j i' j' hp2 :
  joinAt m hp c i' j' = Some hp2 ->
  joined m hp ->
  at_pos m i j c -> orthogonal i j i' j' ->
  (forall i1 j1 i2 j2 n, at_pos m i1 j1 n -> at_pos m i2 j2 n -> i1 = i2 /\ j1 = j2) ->
  joined m hp2 /\ length hp2 = length hp /\
  (forall p x, hp !! p = Some x -> exists x2, hp2 !! p = Some x2 /\ cell.char x2 = cell.char x).
Proof.
  unfold joinAt. intros H [Ht Hs Ho] Hc Horth Hinj.
  destruct (cell_at m i' j') as [[n|]|] eqn:Hn; simpl in H; [| |done].
  2:{ simplify_eq. split; [done|]. split; [done|]. intros p x Hp. by exists x. }
  assert (Hne : c <> n).
  { intros <-. destruct (Hinj _ _ _ _ _ Hc Hn) as [-> ->].
    unfold orthogonal in Horth. lia. }
  destruct (join_spec _ _ _ _ H Hne) as (Hlen & Hattr & Hedge).
  split; [|split; [done|]].
  - split.
    + intros p x2 Hp2.
      destruct (lookup_lt_is_Some_2 hp p) as [x Hx].
      { rewrite <- Hlen. by eapply lookup_lt_Some. }
      destruct (Hattr p x Hx) as (x2' & Hx2 & Hch & Hty & Hpa). simplify_eq.
      rewrite Hch, Hty, Hpa. by apply (Ht p).
    + intros p q. rewrite !Hedge. intros [He|[[-> ->]|[-> ->]]]; auto.
    + intros p q. rewrite Hedge. intros [He|[[-> ->]|[-> ->]]]; [by apply Ho| |].
      * by exists i, j, i', j'.
      * exists i', j', i, j. split; [done|]. split; [done|].
        unfold orthogonal in *. lia.
  - intros p x Hp. destruct (Hattr p x Hp) as (x2 & ? & ? & _). by exists x2.
Qed.

(** ** Adding a cell *)

Lemma set_cell_at_spec m i j c m1 :
  set_cell_at m i j c = Some m1 ->
  maze.w m1 = maze.w m /\ maze.h m1 = maze.h m /\ maze.keys m1 = maze.keys m /\
  length (maze.rows m1) = length (maze.rows m) /\
  (forall row1, row1 ∈ maze.rows m1 -> exists row, row ∈ maze.rows m /\ length row1 = length row) /\
  (exists row, maze.rows m !! i = Some row /\ (j < length row)%nat) /\
  (forall i' j' n, at_pos m1 i' j' n <->
     (i' = i /\ j' = j /\ n = c) \/ ((i' <> i \/ j' <> j) /\ at_pos m i' j' n)).
Proof.
  unfold set_cell_at. intros H.
  destruct (maze.rows m !! i) as [row|] eqn:Hrow; simpl in H; [|done].
  case_decide as Hj; [|done]. simplify_eq. simpl.
  assert (Hi : (i < length (maze.rows m))%nat) by (by eapply lookup_lt_Some).
  repeat split; try done.
  - by rewrite length_insert.
  - intros row1 Hr. apply list_elem_of_lookup in Hr as [k Hk].
    destruct (decide (k = i)) as [->|Hne].
    + rewrite list_lookup_insert_eq in Hk by done. simplify_eq.
      exists row. split; [by eapply list_elem_of_lookup_2|]. by rewrite length_insert.
    + rewrite list_lookup_insert_ne in Hk by done.
      exists row1. split; [by eapply list_elem_of_lookup_2|done].
  - by exists row.
  - unfold at_pos, cell_at. simpl. intros Hn.
    destruct (decide (i' = i)) as [->|Hne].
    + rewrite list_lookup_insert_eq in Hn by done. simpl in Hn.
      destruct (decide (j' = j)) as [->|Hnej].
      * rewrite list_lookup_insert_eq in Hn by done. simplify_eq. auto.
      * rewrite list_lookup_insert_ne in Hn by done. right.
        split; [auto|]. by rewrite Hrow.
    + rewrite list_lookup_insert_ne in Hn by done. auto.
  - unfold at_pos, cell_at. simpl. intros [(-> & -> & ->)|[Hne Hn]].
    + rewrite list_lookup_insert_eq by done. simpl.
      by rewrite list_lookup_insert_eq.
    + destruct (decide (i' = i)) as [->|Hnei].
      * rewrite list_lookup_insert_eq by done. simpl.
        rewrite Hrow in Hn. simpl in Hn.
        rewrite list_lookup_insert_ne; [done|]. destruct Hne; congruence.
      * by rewrite list_lookup_insert_ne.
Qed.

Lemma edge_alloc hp x p q :
  cell.adj x = [] -> edge (hp ++ [x]) p q <-> edge hp p q.
Proof.
  intros Hx. unfold edge. split.
  - intros (y & Hy & Hq). destruct (decide (p < length hp)%nat).
    + rewrite lookup_app_l in Hy by done. by exists y.
    + apply lookup_lt_Some in Hy as Hlt. rewrite length_app in Hlt. simpl in Hlt.
      assert (p = length hp) as -> by lia.
      rewrite lookup_app_r, Nat.sub_diag in Hy by lia. simplify_eq/=.
      rewrite Hx in Hq. by apply elem_of_nil in Hq.
  - intros (y & Hy & Hq). exists y. split; [|done].
    by apply lookup_app_l_Some.
Qed.

Lemma contains_plus_mono k c d : contains k d = true -> contains (plus k c) d = true.
Proof.
  rewrite !contains_testbit, plus_testbit by apply byte_sub_nonneg.
  intros ->. done.
Qed.

Lemma newCell_key char :
  cell.cellType (newCell char) = CellType.key <-> lowercase char.
Proof.
  unfold newCell, lowercase, leb_ascii. simpl.
  change (byte_val "a") with 97. change (byte_val "z") with 122.
  change (byte_val "A") with 65. change (byte_val "Z") with 90.
  destruct (Ascii.eqb_spec char "@") as [->|Hne].
  - split; [done|]. vm_compute. intros [H _]. exfalso. by apply H.
  - destruct (Z.leb_spec 97 (byte_val char)), (Z.leb_spec (byte_val char) 122); simpl;
      try (split; [|lia]);
      try (split; [done|lia]);
      destruct (Z.leb_spec 65 (byte_val char)), (Z.leb_spec (byte_val char) 90); simpl;
      try done; try lia.
Qed.

Lemma keeps_refl hp : keeps hp hp.
Proof. split; [done|]. intros p x H. by exists x. Qed.

Lemma keeps_trans hp1 hp2 hp3 : keeps hp1 hp2 -> keeps hp2 hp3 -> keeps hp1 hp3.
Proof.
  intros [L1 H1] [L2 H2]. split; [congruence|].
  intros p x Hp. destruct (H1 p x Hp) as (x2 & Hx2 & E2).
  destruct (H2 p x2 Hx2) as (x3 & Hx3 & E3). exists x3. split; [done|congruence].
Qed.

Lemma at_pos_rows m m' i j c :
  maze.rows m = maze.rows m' -> at_pos m i j c <-> at_pos m' i j c.
Proof. unfold at_pos, cell_at. by intros ->. Qed.

Lemma joined_rows m m' hp : maze.rows m = maze.rows m' -> joined m hp -> joined m' hp.
Proof.
  intros Hr [Ht Hs Ho]. split; [done|done|].
  intros p q He. destruct (Ho p q He) as (i1 & j1 & i2 & j2 & H1 & H2 & H3).
  exists i1, j1, i2, j2. by rewrite <- !(at_pos_rows m m' _ _ _ Hr).
Qed.

Lemma joinAt_if (P : Prop) `{!Decision P} m hp c i j i' j' hp2 :
  (if decide P then joinAt m hp c i' j' else Some hp) = Some hp2 ->
  joined m hp ->
  at_pos m i j c -> (P -> orthogonal i j i' j') ->
  (forall i1 j1 i2 j2 n, at_pos m i1 j1 n -> at_pos m i2 j2 n -> i1 = i2 /\ j1 = j2) ->
  joined m hp2 /\ keeps hp hp2.
Proof.
  intros H Hj Hc Ho Hinj. case_decide as HP.
  - destruct (joinAt_joined m hp c i j i' j' hp2 H Hj Hc (Ho HP) Hinj) as (? & ? & ?).
    split; [done|]. by split.
  - simplify_eq. split; [done|apply keeps_refl].
Qed.

Lemma addCell_swept m hp i j ch m2 hp2 :
  swept m hp i j ->
  addCell m (hp ++ [newCell ch]) i j (length hp) = Some (m2, hp2) ->
  swept m2 hp2 i (S j) /\ (j < maze.w m)%nat.
Proof.
  intros [Hrows Hcols Hjn Hplaced Hbefore Hinj Hkeys Hsize] H.
  unfold addCell in H.
  destruct (set_cell_at m i j (length hp)) as [m1|] eqn:Hset; simpl in H; [|done].
  destruct (set_cell_at_spec _ _ _ _ _ Hset)
    as (Hw & Hh & Hk & Hlen & Hrl & (row & Hrow & Hj) & Hpos).
  assert (Hjw : (j < maze.w m)%nat).
  { rewrite <- (Hcols row); [done|]. by eapply list_elem_of_lookup_2. }
  set (c := length hp) in *. set (hp0 := hp ++ [newCell ch]) in *.
  assert (Hfresh : ~ valid hp c).
  { intros [x Hx]. apply lookup_lt_Some in Hx. unfold c in Hx. lia. }
  assert (Hold : forall i' j' n, at_pos m i' j' n -> at_pos m1 i' j' n /\ n <> c).
  { intros i' j' n Hn. destruct (Hbefore _ _ _ Hn) as [Hv Hlt]. split.
    - apply Hpos. right. split; [lia|done].
    - intros ->. done. }
  assert (F1 : at_pos m1 i j c) by (apply Hpos; auto).
  assert (F2 : forall i1 j1 i2 j2 n,
    at_pos m1 i1 j1 n -> at_pos m1 i2 j2 n -> i1 = i2 /\ j1 = j2).
  { intros i1 j1 i2 j2 n H1 H2.
    apply Hpos in H1 as [(-> & -> & ->)|[_ H1]]; apply Hpos in H2 as [(-> & -> & E)|[_ H2]];
      try done.
    - by destruct (Hold _ _ _ H2).
    - subst n. by destruct (Hold _ _ _ H1).
    - by eapply Hinj. }
  assert (F3 : joined m1 hp0).
  { destruct Hjn as [Ht Hs Ho]. split.
    - intros p x Hp. unfold hp0 in Hp.
      apply lookup_app_Some in Hp as [Hp|[_ Hp]]; [by eapply Ht|].
      destruct (p - length hp)%nat; simpl in Hp; [|done]. by simplify_eq.
    - intros p q. unfold hp0. rewrite !edge_alloc by done. apply Hs.
    - intros p q. unfold hp0. rewrite edge_alloc by done. intros He.
      destruct (Ho p q He) as (i1 & j1 & i2 & j2 & H1 & H2 & H3).
      exists i1, j1, i2, j2. split; [by apply Hold|]. split; [by apply Hold|done]. }
  destruct (if decide (0 < i)%nat then _ else _) as [hp1|] eqn:E1; simpl in H; [|done].
  destruct (joinAt_if _ _ _ _ i j _ _ _ E1 F3 F1) as [J1 K1];
    [unfold orthogonal; lia|exact F2|].
  destruct (if decide (0 < j)%nat then _ else _) as [hp2'|] eqn:E2; simpl in H; [|done].
  destruct (joinAt_if _ _ _ _ i j _ _ _ E2 J1 F1) as [J2 K2];
    [unfold orthogonal; lia|exact F2|].
  destruct (if decide (i + 1 < maze.h m1)%nat then _ else _) as [hp3|] eqn:E3;
    simpl in H; [|done].
  destruct (joinAt_if _ _ _ _ i j _ _ _ E3 J2 F1) as [J3 K3];
    [unfold orthogonal; lia|exact F2|].
  destruct (if decide (j + 1 < maze.w m1)%nat then _ else _) as [hp4|] eqn:E4;
    simpl in H; [|done].
  destruct (joinAt_if _ _ _ _ i j _ _ _ E4 J3 F1) as [J4 K4];
    [unfold orthogonal; lia|exact F2|].
  pose proof (keeps_trans _ _ _ (keeps_trans _ _ _ (keeps_trans _ _ _ K1 K2) K3) K4)
    as [KL KC].
  assert (H0c : hp0 !! c = Some (newCell ch)).
  { unfold hp0, c. by rewrite lookup_app_r, Nat.sub_diag by lia. }
  destruct (KC c _ H0c) as (x & Hx & Hxc). simpl in Hxc.
  rewrite Hx in H. simpl in H.
  assert (Hlen4 : length hp4 = S (length hp)).
  { rewrite KL. unfold hp0. rewrite length_app. simpl. lia. }
  assert (Hm2 : maze.rows m2 = maze.rows m1 /\ maze.w m2 = maze.w m /\ maze.h m2 = maze.h m /\
    hp2 = hp4 /\
    maze.keys m2 = (if CellType.eqb (cell.cellType x) CellType.key
                    then plus (maze.keys m) ch else maze.keys m)).
  { destruct (CellType.eqb _ _); simplify_eq; simpl; rewrite ?Hxc, ?Hk; done. }
  destruct Hm2 as (Hr2 & Hw2 & Hh2 & -> & Hk2).
  split; [|done]. split.
  - by rewrite Hr2, Hlen, Hh2.
  - intros row2 Hin. rewrite Hr2 in Hin. destruct (Hrl _ Hin) as (row' & Hin' & ->).
    rewrite Hw2. by apply Hcols.
  - by apply (joined_rows m1).
  - intros n [y Hy]. apply lookup_lt_Some in Hy. rewrite Hlen4 in Hy.
    destruct (decide (n = c)) as [->|Hne].
    + exists i, j. by apply (at_pos_rows m2 m1).
    + destruct (Hplaced n) as (i' & j' & Hn).
      { apply lookup_lt_is_Some_2. unfold c in Hne. lia. }
      exists i', j'. apply (at_pos_rows m2 m1); [done|]. by apply Hold.
  - intros i' j' n Hn. apply (at_pos_rows m2 m1) in Hn; [|done].
    apply Hpos in Hn as [(-> & -> & ->)|[_ Hn]].
    + split; [|lia]. apply lookup_lt_is_Some_2. unfold c. lia.
    + destruct (Hbefore _ _ _ Hn) as [[y Hy] Hlt]. split; [|lia].
      apply lookup_lt_is_Some_2. apply lookup_lt_Some in Hy. lia.
  - intros i1 j1 i2 j2 n H1 H2. apply (at_pos_rows m2 m1) in H1, H2; try done.
    by eapply F2.
  - intros n y Hy Hty. rewrite Hk2.
    destruct (jn_typed _ _ J4 _ _ Hy) as [Hty' _].
    destruct (decide (n = c)) as [->|Hne].
    + assert (y = x) as -> by congruence.
      rewrite Hty. simpl. rewrite Hxc. apply contains_plus_same.
      apply newCell_key. by rewrite <- Hxc, <- Hty'.
    + assert (Hn : (n < length hp)%nat).
      { apply lookup_lt_Some in Hy. unfold c in Hne. lia. }
      destruct (lookup_lt_is_Some_2 hp n Hn) as [y0 Hy0].
      destruct (KC n y0) as (y' & Hy' & Hyc); [by apply lookup_app_l_Some|].
      assert (y' = y) as -> by congruence.
      assert (contains (maze.keys m) (cell.char y) = true) as Hc.
      { rewrite Hyc. apply (Hkeys n y0 Hy0).
        destruct (jn_typed _ _ Hjn _ _ Hy0) as [-> _]. by rewrite <- Hyc, <- Hty'. }
      destruct (CellType.eqb _ _); [by apply contains_plus_mono|done].
  - rewrite Hlen4, Hw2. lia.
Qed.

Lemma addCell_dims m hp i j c m1 hp1 :
  addCell m hp i j c = Some (m1, hp1) ->
  maze.w m1 = maze.w m /\ maze.h m1 = maze.h m.
Proof.
  unfold addCell. intros Ha.
  destruct (set_cell_at m i j c) as [m0|] eqn:Hset; simpl in Ha; [|done].
  destruct (set_cell_at_spec _ _ _ _ _ Hset) as (Hw & Hh & _).
  repeat (match type of Ha with
          | context [mbind _ ?o] => destruct o; simpl in Ha; [|done]
          end).
  destruct (CellType.eqb _ _); by simplify_eq.
Qed.

(** ** The sweep over the rows *)

Lemma readRow_swept row : forall i j m hp m' hp',
  swept m hp i j ->
  readRow i j row m hp = Some (m', hp') ->
  swept m' hp' i (j + String.length row) /\
  maze.w m' = maze.w m /\ maze.h m' = maze.h m.
Proof.
  induction row as [|ch row IH]; simpl; intros i j m hp m' hp' Hs H.
  - simplify_eq. by rewrite Nat.add_0_r.
  - destruct (Ascii.eqb ch "#").
    + simpl in H. replace (j + S (String.length row))%nat with (S j + String.length row)%nat by lia.
      apply (IH i (S j) m hp); [|done].
      destruct Hs as [Hrows Hcols Hjn Hplaced Hbefore Hinj Hkeys Hsize]. split; try done.
      * intros i' j' c Hc. destruct (Hbefore _ _ _ Hc). split; [done|lia].
      * lia.
    + destruct (addCell _ _ _ _ _) as [[m1 hp1]|] eqn:Ha; simpl in H; [|done].
      destruct (addCell_swept _ _ _ _ _ _ _ Hs Ha) as [Hs1 Hj].
      destruct (addCell_dims _ _ _ _ _ _ _ Ha) as [Hw Hh].
      replace (j + S (String.length row))%nat with (S j + String.length row)%nat by lia.
      destruct (IH i (S j) m1 hp1 m' hp' Hs1 H) as (? & ? & ?).
      split; [done|]. split; congruence.
Qed.

Lemma swept_next_row m hp i j : swept m hp i j -> swept m hp (S i) 0.
Proof.
  intros [Hrows Hcols Hjn Hplaced Hbefore Hinj Hkeys Hsize]. split; try done.
  - intros i' j' c Hc. destruct (Hbefore _ _ _ Hc). split; [done|lia].
  - lia.
Qed.

Lemma readRows_swept rows : forall i m hp m' hp',
  swept m hp i 0 ->
  readRows i rows m hp = Some (m', hp') ->
  swept m' hp' (i + length rows) 0 /\
  maze.w m' = maze.w m /\ maze.h m' = maze.h m.
Proof.
  induction rows as [|row rows IH]; simpl; intros i m hp m' hp' Hs H.
  - simplify_eq. by rewrite Nat.add_0_r.
  - destruct (readRow i 0 row m hp) as [[m1 hp1]|] eqn:Hr; simpl in H; [|done].
    destruct (readRow_swept _ _ _ _ _ _ _ Hs Hr) as (Hs1 & Hw & Hh).
    apply swept_next_row in Hs1.
    replace (i + S (length rows))%nat with (S i + length rows)%nat by lia.
    destruct (IH (S i) m1 hp1 m' hp' Hs1 H) as (? & ? & ?).
    split; [done|]. split; congruence.
Qed.

Lemma newMaze_swept w h m :
  newMaze w h = Some m ->
  swept m [] 0 0 /\ maze.w m = w /\ maze.h m = h /\ Z.of_nat w * Z.of_nat h < 2 ^ 63.
Proof.
  unfold newMaze. destruct (Z.ltb_spec (Z.of_nat w * Z.of_nat h) (2 ^ 63)); [|done].
  intros ?. simplify_eq.
  assert (Hno : forall i j c, ~ at_pos (maze.mk w h (replicate h (replicate w None)) 0) i j c).
  { unfold at_pos, cell_at. simpl. intros i j c Hc.
    destruct (replicate h (replicate w None) !! i) as [row|] eqn:Hrow; simpl in Hc; [|done].
    apply lookup_replicate in Hrow as [-> _].
    apply lookup_replicate in Hc as [? _]. done. }
  split; [|done]. split; simpl.
  - by rewrite length_replicate.
  - intros row Hin. apply elem_of_replicate in Hin as [-> _]. by rewrite length_replicate.
  - split.
    + intros c x Hc. by rewrite lookup_nil in Hc.
    + intros p q (x & Hx & _). by rewrite lookup_nil in Hx.
    + intros p q (x & Hx & _). by rewrite lookup_nil in Hx.
  - intros c [x Hx]. by rewrite lookup_nil in Hx.
  - intros i j c Hc. by apply Hno in Hc.
  - intros i1 j1 i2 j2 c Hc. by apply Hno in Hc.
  - intros c x Hc. by rewrite lookup_nil in Hc.
  - lia.
Qed.

(** ** The breadth-first search *)

Lemma strip_lookup hp hp' a :
  strip hp = strip hp' ->
  match hp !! a, hp' !! a with
  | Some x, Some x' =>
      cell.char x = cell.char x' /\ cell.adj x = cell.adj x' /\
      cell.cellType x = cell.cellType x'
  | None, None => True
  | _, _ => False
  end.
Proof.
  intros H. assert (Ha : strip hp !! a = strip hp' !! a) by (by rewrite H).
  unfold strip in Ha. rewrite !list_lookup_fmap in Ha.
  destruct (hp !! a) as [[]|], (hp' !! a) as [[]|]; simpl in *; try done.
  unfold cell.set_paths in Ha. simpl in Ha. by simplify_eq.
Qed.

Lemma visitAdj_strip hp hp' current adjs : strip hp = strip hp' -> forall seen q,
  visitAdj hp current adjs seen q = visitAdj hp' current adjs seen q.
Proof.
  intros Hs. induction adjs as [|a adjs IH]; simpl; intros seen q; [done|].
  case_decide; [by apply IH|].
  pose proof (strip_lookup hp hp' a Hs) as Ha.
  destruct (hp !! a) as [x|], (hp' !! a) as [x'|]; simpl; try done.
  destruct Ha as (-> & _ & ->). apply IH.
Qed.

Lemma bfsLoop_strip hp hp' n : strip hp = strip hp' -> forall seen q paths,
  bfsLoop n hp seen q paths = bfsLoop n hp' seen q paths.
Proof.
  intros Hs. induction n as [|n IH]; intros seen q paths; destruct q as [|cur q]; simpl;
    try done.
  pose proof (strip_lookup hp hp' (path.dest cur) Hs) as Ha.
  destruct (hp !! path.dest cur) as [x|], (hp' !! path.dest cur) as [x'|]; simpl; try done.
  destruct Ha as (_ & -> & ->).
  rewrite (visitAdj_strip hp hp') by done.
  destruct (visitAdj hp' cur (cell.adj x') seen (cur :: q)) as [[seen' q']|]; simpl; [|done].
  apply IH.
Qed.

Lemma findPaths_strip hp hp' c : strip hp = strip hp' -> findPaths hp c = findPaths hp' c.
Proof.
  intros Hs. unfold findPaths.
  assert (length hp = length hp') as ->.
  { assert (length (strip hp) = length (strip hp')) as Hl by (by rewrite Hs).
    unfold strip in Hl. by rewrite !length_fmap in Hl. }
  by apply bfsLoop_strip.
Qed.

Lemma edge_strip hp hp' p q : strip hp = strip hp' -> edge hp p q -> edge hp' p q.
Proof.
  intros Hs (x & Hx & Hq). pose proof (strip_lookup hp hp' p Hs) as Ha.
  rewrite Hx in Ha. destruct (hp' !! p) as [x'|] eqn:Hx'; [|done].
  destruct Ha as (_ & Hadj & _). exists x'. split; [done|]. by rewrite <- Hadj.
Qed.

(** The paths one round adds for the neighbours of [current]. *)
Lemma visitAdj_spec hp current adjs : forall seen q,
  (forall a, a ∈ adjs -> valid hp a) ->
  exists new,
    visitAdj hp current adjs seen q
      = Some (list_to_set (path.dest <$> new) ∪ seen, q ++ new) /\
    NoDup (path.dest <$> new) /\
    (forall a, a ∈ (path.dest <$> new) -> (a ∉ seen) /\ a ∈ adjs) /\
    (forall a, a ∈ adjs -> a ∈ seen \/ a ∈ (path.dest <$> new)) /\
    (forall p, p ∈ new ->
       path.len p = int_add (path.len current) 1 /\
       exists x, hp !! path.dest p = Some x /\
         path.reqKeys p =
           (if CellType.eqb (cell.cellType x) CellType.door
            then plus (path.reqKeys current) (byte_or (cell.char x) 32)
            else path.reqKeys current)).
Proof.
  induction adjs as [|a adjs IH]; simpl; intros seen q Hv.
  - exists []. simpl. rewrite app_nil_r. split; [f_equal; f_equal; set_solver|].
    split; [constructor|]. split; [set_solver|]. split; set_solver.
  - assert (Hv' : forall b, b ∈ adjs -> valid hp b) by (intros; apply Hv; by right).
    case_decide as Hseen.
    + destruct (IH seen q Hv') as (new & -> & Hnd & Hnew & Hcov & Hlen).
      exists new. split; [done|]. split; [done|]. split; [|split; [|done]].
      * intros b Hb. destruct (Hnew b Hb). split; [done|by right].
      * intros b Hb. apply elem_of_cons in Hb as [->|Hb]; [by left|by apply Hcov].
    + destruct (Hv a) as [x Hx]; [by left|]. rewrite Hx. simpl.
      set (next := if CellType.eqb (cell.cellType x) CellType.door then _ else _).
      destruct (IH ({[a]} ∪ seen) (q ++ [next]) Hv') as (new & -> & Hnd & Hnew & Hcov & Hlen).
      assert (Hnd' : path.dest next = a) by (unfold next; by destruct (CellType.eqb _ _)).
      exists (next :: new). split; [|split; [|split; [|split]]].
      * rewrite <- app_assoc. simpl. f_equal. f_equal. rewrite Hnd'. set_solver.
      * simpl. rewrite Hnd'. constructor; [|done].
        intros Ha. apply Hnew in Ha as [Ha _]. set_solver.
      * simpl. rewrite Hnd'. intros b Hb. apply elem_of_cons in Hb as [->|Hb].
        -- split; [done|by left].
        -- destruct (Hnew b Hb) as [H1 H2]. split; [set_solver|by right].
      * simpl. rewrite Hnd'. intros b Hb. apply elem_of_cons in Hb as [->|Hb].
        -- right. by left.
        -- destruct (Hcov b Hb) as [H1|H1]; [|right; by right].
           apply elem_of_union in H1 as [H1|H1]; [|by left].
           apply elem_of_singleton in H1 as ->. right. by left.
      * intros p Hp. apply elem_of_cons in Hp as [->|Hp]; [|by apply Hlen].
        rewrite Hnd'. unfold next. split; [by destruct (CellType.eqb _ _)|].
        exists x. split; [done|]. by destruct (CellType.eqb _ _).
Qed.

Lemma NoDup_bounded_length (l : list nat) (n : nat) :
  NoDup l -> (forall a, a ∈ l -> (a < n)%nat) -> (length l <= n)%nat.
Proof.
  intros Hnd Hb. rewrite <- (length_seq n 0%nat). apply submseteq_length.
  apply NoDup_submseteq; [done|]. intros a Ha. apply elem_of_seq. specialize (Hb a Ha). lia.
Qed.

Lemma bfs_inv_length hp c seen dn q :
  bfs_inv hp c seen dn q -> (length (dn ++ q) <= length hp)%nat.
Proof.
  intros Hi. rewrite <- (length_fmap path.dest).
  apply NoDup_bounded_length; [apply (bi_nodup _ _ _ _ _ Hi)|].
  intros a Ha. apply list_elem_of_fmap in Ha as (p & -> & Hp).
  destruct (bi_valid _ _ _ _ _ Hi p Hp) as [x Hx]. by eapply lookup_lt_Some.
Qed.

Lemma int_add_small a b : - 2 ^ 63 <= a + b < 2 ^ 63 -> int_add a b = a + b.
Proof.
  intros H. unfold int_add, int_wrap. rewrite Z.mod_small; lia.
Qed.

Lemma bfs_inv_init hp c : valid hp c -> bfs_inv hp c {[c]} [] [path.mk 0 c 0].
Proof.
  intros Hc. split; simpl.
  - intros a. set_solver.
  - apply NoDup_singleton.
  - done.
  - intros p Hp. apply list_elem_of_singleton in Hp as ->. done.
  - intros p Hp. apply list_elem_of_singleton in Hp as ->. simpl. split; [lia|constructor].
  - intros k p Hk. destruct k; simpl in Hk; [|done]. simplify_eq. simpl. lia.
  - intros k1 k2 p1 p2 _ H1 H2. destruct k1, k2; simpl in *; try done. by simplify_eq.
  - intros hd p Hhd Hp. apply list_elem_of_singleton in Hp as ->. simplify_eq. simpl. lia.
  - intros p v Hp. by apply elem_of_nil in Hp.
  - intros _ p Hp. by apply list_elem_of_singleton in Hp as ->.
Qed.

Lemma bfs_round hp c seen dn cur q d :
  (forall p q, edge hp p q -> valid hp q) ->
  Z.of_nat (length hp) < 2 ^ 63 ->
  bfs_inv hp c seen dn (cur :: q) ->
  hp !! path.dest cur = Some d ->
  exists seen' new,
    visitAdj hp cur (cell.adj d) seen (cur :: q) = Some (seen', cur :: q ++ new) /\
    bfs_inv hp c seen' (dn ++ [cur]) (q ++ new).
Proof.
  intros Hadj Hsize Hi Hd.
  destruct (visitAdj_spec hp cur (cell.adj d) seen (cur :: q))
    as (new & Hv & Hnd & Hnew & Hcov & Hlen).
  { intros a Ha. apply (Hadj (path.dest cur)). by exists d. }
  exists (list_to_set (path.dest <$> new) ∪ seen), new. split; [done|].
  pose proof (bfs_inv_length _ _ _ _ _ Hi) as HL.
  destruct Hi as [Iseen Ind Ifirst Ivalid Iwalk Iindex Isorted Iclose Iedges Idoors].
  set (L := dn ++ cur :: q) in *.
  assert (Heq : (dn ++ [cur]) ++ q ++ new = L ++ new).
  { unfold L. by rewrite <- !app_assoc. }
  assert (Hcur : L !! length dn = Some cur).
  { unfold L. by rewrite lookup_app_r, Nat.sub_diag by lia. }
  assert (HcurL : cur ∈ L) by (by eapply list_elem_of_lookup_2).
  assert (Hdn : (length dn < length L)%nat).
  { unfold L. rewrite length_app. simpl. lia. }
  assert (Hlc : 0 <= path.len cur <= Z.of_nat (length dn)).
  { split; [by apply Iwalk|by apply Iindex]. }
  assert (Hnl : forall p, p ∈ new -> path.len p = path.len cur + 1).
  { intros p Hp. destruct (Hlen p Hp) as [-> _]. apply int_add_small. lia. }
  assert (Hall : forall p, p ∈ L ++ new -> path.len p <= path.len cur + 1).
  { intros p Hp. apply elem_of_app in Hp as [Hp|Hp].
    - by apply (Iclose cur).
    - rewrite (Hnl p Hp). lia. }
  split; rewrite ?Heq.
  - intros a. rewrite fmap_app, elem_of_app, elem_of_union, elem_of_list_to_set.
    rewrite Iseen. tauto.
  - rewrite fmap_app. apply NoDup_app. split; [done|]. split; [|done].
    intros a Ha Ha'. apply Iseen in Ha. by destruct (Hnew a Ha').
  - destruct L; [by apply elem_of_nil in HcurL|done].
  - intros p Hp. apply elem_of_app in Hp as [Hp|Hp]; [by apply Ivalid|].
    destruct (Hlen p Hp) as (_ & x & Hx & _). by exists x.
  - intros p Hp. apply elem_of_app in Hp as [Hp|Hp]; [by apply Iwalk|].
    rewrite (Hnl p Hp). split; [lia|].
    rewrite Z2Nat.inj_add by lia. rewrite Nat.add_1_r.
    apply walk_step with (d := path.dest cur); [by apply Iwalk|].
    exists d. split; [done|]. apply Hnew. apply list_elem_of_fmap. by exists p.
  - intros k p Hk. apply lookup_app_Some in Hk as [Hk|[Hge Hk]]; [by apply Iindex|].
    rewrite (Hnl p); [lia|]. by eapply list_elem_of_lookup_2.
  - intros k1 k2 p1 p2 Hle H1 H2.
    apply lookup_app_Some in H1 as [H1|[Hge1 H1]];
      apply lookup_app_Some in H2 as [H2|[Hge2 H2]].
    + by eapply Isorted.
    + rewrite (Hnl p2) by (by eapply list_elem_of_lookup_2).
      apply (Iclose cur); [done|by eapply list_elem_of_lookup_2].
    + apply lookup_lt_Some in H2. lia.
    + rewrite (Hnl p1), (Hnl p2) by (by eapply list_elem_of_lookup_2). lia.
  - intros hd p Hhd Hp. specialize (Hall p Hp).
    assert (path.len cur <= path.len hd); [|lia].
    destruct q as [|q0 q]; simpl in Hhd.
    + rewrite (Hnl hd); [lia|]. destruct new; simplify_eq/=. by left.
    + simplify_eq. apply (Isorted (length dn) (S (length dn)) cur hd); [lia|done|].
      unfold L. rewrite lookup_app_r by lia.
      by replace (S (length dn) - length dn)%nat with 1%nat by lia.
  - intros p v Hp He. apply elem_of_app in Hp as [Hp|Hp].
    + destruct (Iedges p v Hp He) as (p' & Hp' & ? & ?).
      exists p'. split; [|done]. apply elem_of_app. by left.
    + apply list_elem_of_singleton in Hp as ->.
      destruct He as (x & Hx & Hv'). assert (x = d) as -> by congruence.
      destruct (Hcov v Hv') as [Hs|Hs].
      * apply Iseen in Hs. apply list_elem_of_fmap in Hs as (p' & -> & Hp').
        exists p'. split; [apply elem_of_app; by left|]. split; [done|].
        by apply (Iclose cur).
      * apply list_elem_of_fmap in Hs as (p' & -> & Hp').
        exists p'. split; [apply elem_of_app; by right|]. split; [done|].
        rewrite (Hnl p' Hp'). lia.
  - intros Hno p Hp. apply elem_of_app in Hp as [Hp|Hp]; [by apply Idoors|].
    destruct (Hlen p Hp) as (_ & x & Hx & ->).
    pose proof (Hno _ _ Hx) as Hnx.
    destruct (cell.cellType x); simpl; try congruence; by apply Idoors.
Qed.

Lemma key_dest_spec hp p d :
  hp !! path.dest p = Some d ->
  key_dest hp p = CellType.eqb (cell.cellType d) CellType.key.
Proof. intros H. unfold key_dest. by rewrite H. Qed.

Lemma bfsLoop_spec hp c :
  (forall p q, edge hp p q -> valid hp q) ->
  Z.of_nat (length hp) < 2 ^ 63 ->
  forall n seen dn q,
    bfs_inv hp c seen dn q ->
    (length hp < n + length dn)%nat ->
    exists seen' dn',
      bfsLoop n hp seen q (filter (fun p => key_dest hp p = true) dn)
        = Some (filter (fun p => key_dest hp p = true) dn') /\
      bfs_inv hp c seen' dn' [] /\ dn ++ q `prefix_of` dn'.
Proof.
  intros Hadj Hsize. induction n as [|n IH]; intros seen dn q Hi Hn.
  - pose proof (bfs_inv_length _ _ _ _ _ Hi) as HL. rewrite length_app in HL.
    destruct q as [|cur q]; simpl in *; [|lia].
    exists seen, dn. rewrite app_nil_r. done.
  - destruct q as [|cur q]; simpl.
    { exists seen, dn. rewrite app_nil_r. done. }
    destruct (bi_valid _ _ _ _ _ Hi cur) as [d Hd].
    { apply elem_of_app. right. by left. }
    rewrite Hd. simpl.
    destruct (bfs_round hp c seen dn cur q d Hadj Hsize Hi Hd) as (seen' & new & -> & Hi').
    simpl.
    assert (Hp : (if CellType.eqb (cell.cellType d) CellType.key
                  then filter (fun p => key_dest hp p = true) dn ++ [cur]
                  else filter (fun p => key_dest hp p = true) dn)
                 = filter (fun p => key_dest hp p = true) (dn ++ [cur])).
    { rewrite filter_app. rewrite filter_cons, filter_nil.
      rewrite (key_dest_spec hp cur d Hd).
      destruct (CellType.eqb _ _).
      - by rewrite decide_True.
      - rewrite decide_False by done. by rewrite app_nil_r. }
    rewrite Hp.
    destruct (IH seen' (dn ++ [cur]) (q ++ new) Hi') as (seen2 & dn2 & -> & Hi2 & Hpre).
    { rewrite length_app. simpl. lia. }
    exists seen2, dn2. split; [done|]. split; [done|].
    etrans; [|exact Hpre]. rewrite <- app_assoc. simpl.
    apply prefix_app. apply prefix_cons. by apply prefix_app_r.
Qed.

Lemma findPaths_spec hp c :
  (forall p q, edge hp p q -> valid hp q) ->
  Z.of_nat (length hp) < 2 ^ 63 ->
  valid hp c ->
  exists seen dn,
    findPaths hp c = Some (filter (fun p => key_dest hp p = true) dn) /\
    bfs_inv hp c seen dn [].
Proof.
  intros Hadj Hsize Hc. unfold findPaths.
  destruct (bfsLoop_spec hp c Hadj Hsize (S (length hp)) {[c]} [] [path.mk 0 c 0])
    as (seen & dn & H & Hi & _); [by apply bfs_inv_init|simpl; lia|].
  exists seen, dn. by rewrite filter_nil in H.
Qed.

(** When the queue is empty, every cell a walk reaches has its path. *)
Lemma bfs_inv_complete hp c seen dn :
  bfs_inv hp c seen dn [] ->
  forall v n, walk hp c v n ->
    exists p, p ∈ dn /\ path.dest p = v /\ path.len p <= Z.of_nat n.
Proof.
  intros Hi v n Hw. induction Hw as [|d e n Hw IH He].
  - exists (path.mk 0 c 0). split; [|done].
    pose proof (bi_first _ _ _ _ _ Hi) as Hf. rewrite app_nil_r in Hf.
    destruct dn; simplify_eq/=. by left.
  - destruct IH as (p & Hp & <- & Hlen).
    destruct (bi_edges _ _ _ _ _ Hi p e Hp He) as (p' & Hp' & <- & Hlen').
    rewrite app_nil_r in Hp'. exists p'. split; [done|]. split; [done|]. lia.
Qed.

Lemma bfs_inv_dest_inj hp c seen dn p p' :
  bfs_inv hp c seen dn [] -> p ∈ dn -> p' ∈ dn -> path.dest p = path.dest p' -> p = p'.
Proof.
  intros Hi Hp Hp' Heq. pose proof (bi_nodup _ _ _ _ _ Hi) as Hnd.
  rewrite app_nil_r in Hnd.
  apply list_elem_of_lookup in Hp as [k Hk]. apply list_elem_of_lookup in Hp' as [k' Hk'].
  assert (k = k'); [|congruence].
  eapply NoDup_lookup; [exact Hnd| |].
  - rewrite list_lookup_fmap, Hk. done.
  - rewrite list_lookup_fmap, Hk'. simpl. by rewrite Heq.
Qed.

Lemma bfs_inv_distance hp c seen dn p :
  bfs_inv hp c seen dn [] -> p ∈ dn ->
  0 <= path.len p /\ distance hp c (path.dest p) (Z.to_nat (path.len p)).
Proof.
  intros Hi Hp. destruct (bi_walk _ _ _ _ _ Hi p) as [H0 Hw].
  { by rewrite app_nil_r. }
  split; [done|]. split; [done|]. intros n' Hw'.
  destruct (bfs_inv_complete _ _ _ _ Hi _ _ Hw') as (p' & Hp' & Hd & Hl).
  assert (p' = p) as -> by (by eapply bfs_inv_dest_inj). lia.
Qed.

(** ** Building the path lists *)

Lemma strip_set_paths hp c x ps :
  hp !! c = Some x -> strip (<[c := cell.set_paths x ps]> hp) = strip hp.
Proof.
  intros Hx. unfold strip. rewrite list_fmap_insert. apply list_insert_id.
  rewrite list_lookup_fmap, Hx. done.
Qed.

Lemma buildPathsCell_spec hp1 hp slot hp' :
  buildPathsCell hp slot = Some hp' ->
  paths_from hp1 hp ->
  paths_from hp1 hp' /\
  (forall c, paths_done hp1 hp c -> paths_done hp1 hp' c) /\
  (forall c, slot = Some c -> paths_done hp1 hp' c).
Proof.
  intros H [Hs Hp]. destruct slot as [c|]; simpl in H; [|by simplify_eq].
  destruct (hp !! c) as [x|] eqn:Hx; simpl in H; [|done].
  fold (landmark x) in H. destruct (landmark x) eqn:Hl.
  - destruct (findPaths hp c) as [ps|] eqn:Hf; simpl in H; [|done]. simplify_eq.
    rewrite (findPaths_strip hp hp1 c Hs) in Hf.
    assert (Hc : (c < length hp)%nat) by (by eapply lookup_lt_Some).
    assert (Hlk : forall a y, <[c := cell.set_paths x ps]> hp !! a = Some y ->
      (a = c /\ y = cell.set_paths x ps) \/ (a <> c /\ hp !! a = Some y)).
    { intros a y Hy. destruct (decide (a = c)) as [->|Hne].
      - rewrite list_lookup_insert_eq in Hy by done. left. by simplify_eq.
      - rewrite list_lookup_insert_ne in Hy by done. by right. }
    split; [split|split].
    + by rewrite (strip_set_paths hp c x ps Hx).
    + intros a y Hy. apply Hlk in Hy as [[-> ->]|[_ Hy]]; [by right|by apply Hp].
    + intros a Hd y Hy Hly. apply Hlk in Hy as [[-> ->]|[_ Hy]]; [done|by apply Hd].
    + intros a Ha y Hy _. simplify_eq. apply Hlk in Hy as [[_ ->]|[? _]]; done.
  - simplify_eq. split; [done|]. split; [done|].
    intros a Ha y Hy Hly. simplify_eq. congruence.
Qed.

Lemma buildPathsRow_spec hp1 row : forall hp hp',
  buildPathsRow hp row = Some hp' ->
  paths_from hp1 hp ->
  paths_from hp1 hp' /\
  (forall c, paths_done hp1 hp c -> paths_done hp1 hp' c) /\
  (forall c, Some c ∈ row -> paths_done hp1 hp' c).
Proof.
  induction row as [|slot row IH]; simpl; intros hp hp' H Hp.
  - simplify_eq. split; [done|]. split; [done|]. intros c Hc. by apply elem_of_nil in Hc.
  - destruct (buildPathsCell hp slot) as [hpa|] eqn:Hc; simpl in H; [|done].
    destruct (buildPathsCell_spec hp1 _ _ _ Hc Hp) as (Hpa & Hka & Hda).
    destruct (IH _ _ H Hpa) as (Hp' & Hk' & Hd').
    split; [done|]. split; [by auto|].
    intros c Hin. apply elem_of_cons in Hin as [<-|Hin]; [|by apply Hd'].
    by apply Hk', Hda.
Qed.

Lemma buildPathsRows_spec hp1 rows : forall hp hp',
  buildPathsRows hp rows = Some hp' ->
  paths_from hp1 hp ->
  paths_from hp1 hp' /\
  (forall c, paths_done hp1 hp c -> paths_done hp1 hp' c) /\
  (forall c row, row ∈ rows -> Some c ∈ row -> paths_done hp1 hp' c).
Proof.
  induction rows as [|row rows IH]; simpl; intros hp hp' H Hp.
  - simplify_eq. split; [done|]. split; [done|]. intros c row Hc. by apply elem_of_nil in Hc.
  - destruct (buildPathsRow hp row) as [hpa|] eqn:Hc; simpl in H; [|done].
    destruct (buildPathsRow_spec hp1 _ _ _ Hc Hp) as (Hpa & Hka & Hda).
    destruct (IH _ _ H Hpa) as (Hp' & Hk' & Hd').
    split; [done|]. split; [by auto|].
    intros c r Hin Hcr. apply elem_of_cons in Hin as [->|Hin]; [|by eapply Hd'].
    by apply Hk', Hda.
Qed.

Lemma strip_length hp hp' : strip hp = strip hp' -> length hp = length hp'.
Proof.
  intros Hs. assert (length (strip hp) = length (strip hp')) as Hl by (by rewrite Hs).
  unfold strip in Hl. by rewrite !length_fmap in Hl.
Qed.

Lemma strip_valid hp hp' c : strip hp = strip hp' -> valid hp c -> valid hp' c.
Proof.
  intros Hs [x Hx]. apply lookup_lt_is_Some_2. rewrite <- (strip_length _ _ Hs).
  by eapply lookup_lt_Some.
Qed.

Lemma buildPaths_ok m hp1 hp2 :
  swept m hp1 (maze.h m) 0 ->
  Z.of_nat (maze.w m) * Z.of_nat (maze.h m) < 2 ^ 63 ->
  buildPaths m hp1 = Some hp2 ->
  maze_ok m hp2.
Proof.
  intros [Hrows Hcols [Ht Hsym Horth] Hplaced Hbefore Hinj Hkeys Hsize] Hwh Hb.
  unfold buildPaths in Hb.
  destruct (buildPathsRows_spec hp1 _ _ _ Hb) as ([Hs Hp] & _ & Hd).
  { split; [done|]. intros c x Hx. left. by apply (Ht c x). }
  assert (Hs' : strip hp1 = strip hp2) by done.
  assert (Hback : forall c x, hp2 !! c = Some x -> exists x1, hp1 !! c = Some x1 /\
    cell.char x = cell.char x1 /\ cell.cellType x = cell.cellType x1).
  { intros c x Hx. pose proof (strip_lookup hp2 hp1 c Hs) as Hl. rewrite Hx in Hl.
    destruct (hp1 !! c) as [x1|]; [|done]. exists x1. tauto. }
  split.
  - intros c x Hx. destruct (Hback c x Hx) as (x1 & Hx1 & -> & ->). by apply (Ht c x1).
  - intros p q He. apply (edge_strip hp1 hp2); [done|]. apply Hsym.
    by apply (edge_strip hp2 hp1).
  - intros p q He. apply Horth. by apply (edge_strip hp2 hp1).
  - intros c. split.
    + intros Hc. apply Hplaced. by apply (strip_valid hp2 hp1).
    + intros (i & j & Hc). apply (strip_valid hp1 hp2); [done|]. by apply (Hbefore i j).
  - done.
  - intros c x Hx. destruct (landmark x) eqn:Hl.
    + rewrite (findPaths_strip hp2 hp1 c Hs).
      destruct (Hplaced c) as (i & j & Hc).
      { apply (strip_valid hp2 hp1); [done|]. by eexists. }
      unfold at_pos, cell_at in Hc.
      destruct (maze.rows m !! i) as [row|] eqn:Hrow; simpl in Hc; [|done].
      apply (Hd c row); [by eapply list_elem_of_lookup_2|by eapply list_elem_of_lookup_2|done|done].
    + destruct (Hp c x Hx) as [?|[? _]]; [done|congruence].
  - intros c x Hx Hk. destruct (Hback c x Hx) as (x1 & Hx1 & -> & Hty).
    apply (Hkeys c x1 Hx1). congruence.
  - rewrite <- (strip_length _ _ Hs'). rewrite Nat.min_0_l, Nat.add_0_r in Hsize. nia.
Qed.

(** [readMaze] establishes [maze_ok]. *)
Lemma readMaze_ok rows m hp : readMaze rows = Some (m, hp) -> maze_ok m hp.
Proof.
  unfold readMaze. intros H.
  destruct (head rows) as [r0|]; simpl in H; [|done].
  destruct (newMaze _ _) as [m0|] eqn:Hn; simpl in H; [|done].
  destruct (readRows 0 rows m0 []) as [[m1 hp1]|] eqn:Hr; simpl in H; [|done].
  destruct (buildPaths m1 hp1) as [hp2|] eqn:Hb; simpl in H; [|done]. simplify_eq.
  destruct (newMaze_swept _ _ _ Hn) as (Hs0 & Hw & Hh & Hwh).
  destruct (readRows_swept _ _ _ _ _ _ Hs0 Hr) as (Hs1 & Hw1 & Hh1).
  simpl in Hs1. apply (buildPaths_ok m hp1); [|lia|done].
  by rewrite Hh1, Hh.
Qed.

Lemma maze_ok_adj m hp p q : maze_ok m hp -> edge hp p q -> valid hp q.
Proof.
  intros Hok He. destruct (ok_orth _ _ Hok p q He) as (i1 & j1 & i2 & j2 & _ & Hq & _).
  apply (ok_placed _ _ Hok). by exists i2, j2.
Qed.

Lemma maze_ok_findPaths m hp c :
  maze_ok m hp -> valid hp c ->
  exists seen dn,
    findPaths hp c = Some (filter (fun p => key_dest hp p = true) dn) /\
    bfs_inv hp c seen dn [].
Proof.
  intros Hok Hc. apply findPaths_spec; [|by apply (ok_size _ _ Hok)|done].
  intros p q. by apply (maze_ok_adj m).
Qed.

Lemma key_dest_true hp p :
  key_dest hp p = true ->
  exists d, hp !! path.dest p = Some d /\ cell.cellType d = CellType.key.
Proof.
  unfold key_dest. destruct (hp !! path.dest p) as [d|]; [|done].
  intros H. exists d. split; [done|]. by destruct (cell.cellType d).
Qed.

(** The paths of a cell, by the search that built them. *)
Lemma maze_ok_paths m hp c x :
  maze_ok m hp -> hp !! c = Some x ->
  exists seen dn,
    bfs_inv hp c seen dn [] /\
    cell.paths x = if landmark x then filter (fun p => key_dest hp p = true) dn else [].
Proof.
  intros Hok Hx. destruct (maze_ok_findPaths m hp c Hok) as (seen & dn & Hf & Hi);
    [by eexists|].
  exists seen, dn. split; [done|].
  pose proof (ok_paths _ _ Hok c x Hx) as Hp. destruct (landmark x); [congruence|done].
Qed.

Lemma maze_ok_wf_paths m hp : maze_ok m hp -> wf_paths hp.
Proof.
  intros Hok c x p Hx Hp.
  destruct (maze_ok_paths m hp c x Hok Hx) as (seen & dn & Hi & Hps).
  rewrite Hps in Hp. destruct (landmark x); [|by apply elem_of_nil in Hp].
  apply list_elem_of_filter in Hp as [Hk _].
  destruct (key_dest_true _ _ Hk) as (d & Hd & Hty).
  exists d. split; [done|]. apply newCell_key.
  by rewrite <- (ok_typed _ _ Hok _ _ Hd).
Qed.

(** ** [readMaze] returns on every grid that fits *)

Lemma join_length hp c c1 hp2 : join hp c c1 = Some hp2 -> length hp2 = length hp.
Proof.
  unfold join. intros H.
  destruct (hp !! c) as [x|]; simpl in H; [|done].
  destruct (_ !! c1) as [y|]; simpl in H; [|done].
  simplify_eq. by rewrite !length_insert.
Qed.

Lemma valid_lt hp c : valid hp c <-> (c < length hp)%nat.
Proof. apply lookup_lt_is_Some. Qed.

Lemma joinAt_total m hp c i j :
  is_Some (cell_at m i j) -> valid hp c ->
  (forall n, at_pos m i j n -> valid hp n) ->
  exists hp2, joinAt m hp c i j = Some hp2 /\ length hp2 = length hp.
Proof.
  intros [slot Hs] Hc Hn. unfold joinAt. rewrite Hs. simpl.
  destruct slot as [n|]; [|by exists hp].
  destruct (join_total hp c n Hc (Hn n Hs)) as [hp2 H2].
  exists hp2. split; [done|]. by eapply join_length.
Qed.

Lemma joinAt_if_total (P : Prop) `{!Decision P} m hp c i j :
  (P -> is_Some (cell_at m i j)) -> valid hp c ->
  (forall n, at_pos m i j n -> valid hp n) ->
  exists hp2, (if decide P then joinAt m hp c i j else Some hp) = Some hp2 /\
    length hp2 = length hp.
Proof.
  intros Hs Hc Hn. case_decide as HP; [|by exists hp].
  by apply joinAt_total; [apply Hs| |].
Qed.

Lemma cell_at_in_range m i j :
  length (maze.rows m) = maze.h m ->
  (forall row, row ∈ maze.rows m -> length row = maze.w m) ->
  (i < maze.h m)%nat -> (j < maze.w m)%nat -> is_Some (cell_at m i j).
Proof.
  intros Hr Hc Hi Hj. unfold cell_at.
  destruct (lookup_lt_is_Some_2 (maze.rows m) i) as [row Hrow]; [lia|].
  rewrite Hrow. simpl. apply lookup_lt_is_Some_2.
  rewrite (Hc row); [done|]. by eapply list_elem_of_lookup_2.
Qed.

Lemma addCell_total m hp i j ch :
  swept m hp i j -> (i < maze.h m)%nat -> (j < maze.w m)%nat ->
  is_Some (addCell m (hp ++ [newCell ch]) i j (length hp)).
Proof.
  intros [Hrows Hcols Hjn Hplaced Hbefore Hinj Hkeys Hsize] Hi Hj.
  unfold addCell.
  destruct (lookup_lt_is_Some_2 (maze.rows m) i) as [row Hrow]; [lia|].
  assert (Hlen : length row = maze.w m).
  { apply Hcols. by eapply list_elem_of_lookup_2. }
  destruct (set_cell_at m i j (length hp)) as [m1|] eqn:Hset.
  2:{ unfold set_cell_at in Hset. rewrite Hrow in Hset. simpl in Hset.
      rewrite decide_True in Hset by lia. done. }
  destruct (set_cell_at_spec _ _ _ _ _ Hset) as (Hw & Hh & _ & Hl1 & Hrl & _ & Hpos).
  simpl.
  assert (Hin : forall i' j', (i' < maze.h m1)%nat -> (j' < maze.w m1)%nat ->
    is_Some (cell_at m1 i' j')).
  { intros i' j'. apply cell_at_in_range; [by rewrite Hl1, Hh|].
    intros r1 Hr1. destruct (Hrl r1 Hr1) as (r & Hr & ->). rewrite Hw. by apply Hcols. }
  set (hp0 := hp ++ [newCell ch]).
  assert (Hl0 : length hp0 = S (length hp)).
  { unfold hp0. rewrite length_app. simpl. lia. }
  assert (Hn : forall hp', length hp' = length hp0 ->
    valid hp' (length hp) /\ forall i' j' n, at_pos m1 i' j' n -> valid hp' n).
  { intros hp' Hl'. split; [apply valid_lt; lia|].
    intros i' j' n Hat. apply valid_lt.
    apply Hpos in Hat as [(_ & _ & ->)|[_ Hat]]; [lia|].
    destruct (Hbefore _ _ _ Hat) as [Hv _]. apply valid_lt in Hv. lia. }
  destruct (joinAt_if_total (0 < i)%nat m1 hp0 (length hp) (i - 1) j) as (hp1 & -> & L1).
  { intros. apply Hin; lia. }
  { by apply (Hn hp0). }
  { intros n. by apply (Hn hp0). }
  simpl.
  destruct (joinAt_if_total (0 < j)%nat m1 hp1 (length hp) i (j - 1)) as (hp2 & -> & L2).
  { intros. apply Hin; lia. }
  { apply (Hn hp1). lia. }
  { intros n. apply (Hn hp1). lia. }
  simpl.
  destruct (joinAt_if_total (i + 1 < maze.h m1)%nat m1 hp2 (length hp) (i + 1) j)
    as (hp3 & -> & L3).
  { intros. apply Hin; lia. }
  { apply (Hn hp2). lia. }
  { intros n. apply (Hn hp2). lia. }
  simpl.
  destruct (joinAt_if_total (j + 1 < maze.w m1)%nat m1 hp3 (length hp) i (j + 1))
    as (hp4 & -> & L4).
  { intros. apply Hin; lia. }
  { apply (Hn hp3). lia. }
  { intros n. apply (Hn hp3). lia. }
  simpl.
  destruct (lookup_lt_is_Some_2 hp4 (length hp)) as [x ->]; [lia|]. simpl.
  destruct (CellType.eqb _ _); by eexists.
Qed.

Lemma readRow_total row : forall i j m hp,
  swept m hp i j -> (i < maze.h m)%nat -> (j + String.length row <= maze.w m)%nat ->
  is_Some (readRow i j row m hp).
Proof.
  induction row as [|ch row IH]; simpl; intros i j m hp Hs Hi Hj; [by eexists|].
  destruct (Ascii.eqb ch "#").
  - simpl. apply IH; [|done|lia].
    destruct Hs as [Hrows Hcols Hjn Hplaced Hbefore Hinj Hkeys Hsize]. split; try done.
    + intros i' j' c Hc. destruct (Hbefore _ _ _ Hc). split; [done|lia].
    + lia.
  - destruct (addCell_total m hp i j ch Hs Hi) as [[m1 hp1] Ha]; [lia|].
    rewrite Ha. simpl.
    destruct (addCell_swept _ _ _ _ _ _ _ Hs Ha) as [Hs1 _].
    destruct (addCell_dims _ _ _ _ _ _ _ Ha) as [Hw Hh].
    apply IH; [done|lia|lia].
Qed.

Lemma readRows_total rows : forall i m hp,
  swept m hp i 0 -> (i + length rows <= maze.h m)%nat ->
  Forall (fun row => (String.length row <= maze.w m)%nat) rows ->
  is_Some (readRows i rows m hp).
Proof.
  induction rows as [|row rows IH]; simpl; intros i m hp Hs Hi Hw; [by eexists|].
  apply Forall_cons in Hw as [Hrow Hw].
  destruct (readRow_total row i 0 m hp Hs) as [[m1 hp1] Hr]; [lia|lia|].
  rewrite Hr. simpl.
  destruct (readRow_swept _ _ _ _ _ _ _ Hs Hr) as (Hs1 & Hw1 & Hh1).
  apply IH; [by eapply swept_next_row|lia|by rewrite Hw1].
Qed.

Lemma swept_adj m hp i j p q : swept m hp i j -> edge hp p q -> valid hp q.
Proof.
  intros Hs He. destruct (jn_orth _ _ (sw_joined _ _ _ _ Hs) p q He)
    as (i1 & j1 & i2 & j2 & _ & Hq & _).
  by destruct (sw_before _ _ _ _ Hs _ _ _ Hq).
Qed.

Lemma buildPathsRow_total hp1 row : forall hp,
  strip hp = strip hp1 ->
  (forall c, Some c ∈ row -> valid hp1 c /\ is_Some (findPaths hp1 c)) ->
  is_Some (buildPathsRow hp row).
Proof.
  induction row as [|slot row IH]; simpl; intros hp Hs Hc; [by eexists|].
  assert (Hcell : exists hp', buildPathsCell hp slot = Some hp' /\ strip hp' = strip hp1).
  { destruct slot as [c|]; simpl; [|by exists hp].
    destruct (Hc c) as [Hv [ps Hps]]; [by left|].
    destruct (strip_valid hp1 hp c) as [x Hx]; [done|done|]. rewrite Hx. simpl.
    destruct (_ || _); [|by exists hp].
    rewrite (findPaths_strip hp hp1 c Hs), Hps. simpl.
    eexists. split; [done|]. by rewrite (strip_set_paths hp c x ps Hx). }
  destruct Hcell as (hp' & -> & Hs'). simpl. apply IH; [done|].
  intros c Hin. apply Hc. by right.
Qed.

Lemma buildPathsRow_strip hp row : forall hp',
  buildPathsRow hp row = Some hp' -> strip hp' = strip hp.
Proof.
  revert hp. induction row as [|slot row IH]; simpl; intros hp hp' H; [by simplify_eq|].
  destruct (buildPathsCell hp slot) as [hpa|] eqn:Hc; simpl in H; [|done].
  rewrite (IH _ _ H). destruct slot as [c|]; simpl in Hc; [|by simplify_eq].
  destruct (hp !! c) as [x|] eqn:Hx; simpl in Hc; [|done].
  destruct (_ || _); [|by simplify_eq].
  destruct (findPaths hp c) as [ps|]; simpl in Hc; [|done]. simplify_eq.
  by apply strip_set_paths.
Qed.

Lemma buildPathsRows_total hp1 rows : forall hp,
  strip hp = strip hp1 ->
  (forall c row, row ∈ rows -> Some c ∈ row -> valid hp1 c /\ is_Some (findPaths hp1 c)) ->
  is_Some (buildPathsRows hp rows).
Proof.
  induction rows as [|row rows IH]; simpl; intros hp Hs Hc; [by eexists|].
  destruct (buildPathsRow_total hp1 row hp Hs) as [hp' Hr].
  { intros c Hin. apply (Hc c row); [by left|done]. }
  rewrite Hr. simpl. apply IH.
  - by rewrite (buildPathsRow_strip _ _ _ Hr).
  - intros c r Hin. apply Hc. by right.
Qed.

(** [readMaze] reads every grid that fits: the bound on the rounds of
    [findPaths] is never what stops it. *)
Lemma readMaze_total rows : fits rows -> is_Some (readMaze rows).
Proof.
  unfold fits, readMaze. destruct rows as [|r0 rows]; [done|]. intros [Hsz Hw].
  change (head (r0 :: rows)) with (Some r0). cbv beta iota delta [mbind option_bind].
  destruct (newMaze (String.length r0) (length (r0 :: rows))) as [m0|] eqn:Hn.
  2:{ unfold newMaze in Hn. rewrite (proj2 (Z.ltb_lt _ _) Hsz) in Hn. done. }
  cbv beta iota.
  destruct (newMaze_swept _ _ _ Hn) as (Hs0 & Hw0 & Hh0 & _).
  destruct (readRows_total (r0 :: rows) 0 m0 [] Hs0) as [[m1 hp1] Hr].
  { rewrite Hh0. simpl. lia. }
  { by rewrite Hw0. }
  rewrite Hr. cbv beta iota.
  destruct (readRows_swept _ _ _ _ _ _ Hs0 Hr) as (Hs1 & Hw1 & Hh1).
  destruct (buildPathsRows_total hp1 (maze.rows m1) hp1) as [hp2 Hb]; [done| |].
  { intros c row Hrow Hc.
    apply list_elem_of_lookup in Hrow as [i Hi]. apply list_elem_of_lookup in Hc as [j Hj].
    assert (Hat : at_pos m1 i j c) by (unfold at_pos, cell_at; rewrite Hi; done).
    destruct (sw_before _ _ _ _ Hs1 _ _ _ Hat) as [Hv _]. split; [done|].
    destruct (findPaths_spec hp1 c) as (seen & dn & -> & _); [| |done|by eexists].
    - intros p q. by apply (swept_adj m1 hp1 (0 + length (r0 :: rows)) 0).
    - pose proof (sw_size _ _ _ _ Hs1) as Hsize.
      rewrite Nat.min_0_l, Nat.add_0_r, Nat.add_0_l, Hw1, Hw0 in Hsize. nia. }
  unfold buildPaths. rewrite Hb. cbv beta iota. by eexists.
Qed.

(** ** The start cells *)

Lemma startRow_spec hp row : forall acc sc,
  startRow hp row acc = Some sc ->
  exists new, sc = acc ++ new /\
    forall c, c ∈ new -> Some c ∈ row /\
      exists x, hp !! c = Some x /\ cell.cellType x = CellType.start.
Proof.
  induction row as [|slot row IH]; simpl; intros acc sc H.
  - simplify_eq. exists []. rewrite app_nil_r. split; [done|].
    intros c Hc. by apply elem_of_nil in Hc.
  - destruct slot as [c|].
    + destruct (hp !! c) as [x|] eqn:Hx; simpl in H; [|done].
      destruct (CellType.eqb (cell.cellType x) CellType.start) eqn:Hty.
      * destruct (IH _ _ H) as (new & -> & Hnew). exists (c :: new).
        rewrite <- app_assoc. split; [done|]. intros c' Hc'.
        apply elem_of_cons in Hc' as [->|Hc'].
        -- split; [by left|]. exists x. split; [done|]. by destruct (cell.cellType x).
        -- destruct (Hnew c' Hc') as [? ?]. split; [by right|done].
      * destruct (IH _ _ H) as (new & -> & Hnew). exists new. split; [done|].
        intros c' Hc'. destruct (Hnew c' Hc') as [? ?]. split; [by right|done].
    + destruct (IH _ _ H) as (new & -> & Hnew). exists new. split; [done|].
      intros c' Hc'. destruct (Hnew c' Hc') as [? ?]. split; [by right|done].
Qed.

Lemma startRows_spec hp rows : forall acc sc,
  startRows hp rows acc = Some sc ->
  exists new, sc = acc ++ new /\
    forall c, c ∈ new -> exists x, hp !! c = Some x /\ cell.cellType x = CellType.start.
Proof.
  induction rows as [|row rows IH]; simpl; intros acc sc H.
  - simplify_eq. exists []. rewrite app_nil_r. split; [done|].
    intros c Hc. by apply elem_of_nil in Hc.
  - destruct (startRow hp row acc) as [sc1|] eqn:Hr; simpl in H; [|done].
    destruct (startRow_spec _ _ _ _ Hr) as (new1 & -> & Hn1).
    destruct (IH _ _ H) as (new2 & -> & Hn2).
    exists (new1 ++ new2). rewrite app_assoc. split; [done|].
    intros c Hc. apply elem_of_app in Hc as [Hc|Hc]; [by apply Hn1|by apply Hn2].
Qed.

Lemma start_spec m hp sc :
  start m hp = Some sc ->
  forall c, c ∈ sc -> exists x, hp !! c = Some x /\ cell.cellType x = CellType.start.
Proof.
  unfold start. intros H. destruct (startRows_spec _ _ _ _ H) as (new & -> & Hn). done.
Qed.

Lemma initial_spec m hp s st :
  initial m hp = Some (s, st) ->
  exists sc, start m hp = Some sc /\ s = state.mk 0 0 /\ st = [sc] /\
    st !! state.cells s = Some sc /\ Forall (valid hp) sc.
Proof.
  unfold initial. destruct (start m hp) as [sc|] eqn:Hs; simpl; [|done].
  intros ?. simplify_eq. exists sc. repeat split; try done.
  apply Forall_forall. intros c Hc. destruct (start_spec _ _ _ Hs c Hc) as (x & Hx & _).
  by exists x.
Qed.

(** ** Claims about the maze *)

(** C9: after [readMaze] adjacency is symmetric, and only cells at grid
    positions one row or one column apart are adjacent. *)
Theorem adjacency_symmetric_orthogonal rows m hp c c1 :
  ascii_rows rows = true ->
  readMaze rows = Some (m, hp) ->
  (edge hp c c1 <-> edge hp c1 c) /\
  (edge hp c c1 ->
     exists i j i1 j1, at_pos m i j c /\ at_pos m i1 j1 c1 /\ orthogonal i j i1 j1).
Proof.
  intros _ H. apply readMaze_ok in H. split.
  - split; apply (ok_sym _ _ H).
  - apply (ok_orth _ _ H).
Qed.

(** C4 (counterexample): in the first scenario the path list of the cell
    of key [a] holds a path that ends at that cell. *)
Lemma findPaths_has_own_key :
  exists m hp x ps p,
    readMaze maze1 = Some (m, hp) /\
    hp !! 6%nat = Some x /\ cell.cellType x = CellType.key /\
    findPaths hp 6 = Some ps /\ cell.paths x = ps /\
    p ∈ ps /\ path.dest p = 6%nat.
Proof.
  do 5 eexists. split; [vm_compute; reflexivity|].
  split; [reflexivity|]. split; [reflexivity|].
  split; [vm_compute; reflexivity|]. split; [reflexivity|].
  split; [left|reflexivity].
Qed.

(** C4 (amended): the path list of a key cell begins with the path of
    length 0 to the cell itself, which requires no key, and holds no other
    path that ends at the cell. *)
Theorem findPaths_own_key_first rows m hp c x :
  ascii_rows rows = true ->
  readMaze rows = Some (m, hp) ->
  hp !! c = Some x -> cell.cellType x = CellType.key ->
  exists rest,
    findPaths hp c = Some (path.mk 0 c 0 :: rest) /\
    cell.paths x = path.mk 0 c 0 :: rest /\
    forall p, p ∈ rest -> path.dest p <> c.
Proof.
  intros _ H Hx Hk. apply readMaze_ok in H.
  destruct (maze_ok_findPaths m hp c H) as (seen & dn & Hf & Hi); [by eexists|].
  pose proof (bi_first _ _ _ _ _ Hi) as Hhd. rewrite app_nil_r in Hhd.
  destruct dn as [|p0 dn]; simplify_eq/=.
  pose proof (bi_nodup _ _ _ _ _ Hi) as Hnd. rewrite app_nil_r in Hnd. simpl in Hnd.
  apply NoDup_cons in Hnd as [Hnotin _].
  rewrite filter_cons in Hf.
  rewrite decide_True in Hf by (unfold key_dest; simpl; rewrite Hx, Hk; done).
  eexists. split; [exact Hf|]. split.
  - pose proof (ok_paths _ _ H c x Hx) as Hp. unfold landmark in Hp. rewrite Hk in Hp.
    simpl in Hp. congruence.
  - intros p Hp Hd. apply list_elem_of_filter in Hp as [_ Hp]. apply Hnotin.
    apply list_elem_of_fmap. by exists p.
Qed.

(** ** Claims about whole runs *)

(** Steps through the binds of a computed equation without unfolding the
    functions under them. *)
Ltac obind H := cbv beta iota delta [mbind option_bind fst snd] in H.

(** C1: on the maze of the first scenario the search from the start cell,
    with no key collected and an empty table, returns 8, whatever fuel
    beyond the depth 3 of its recursion it is given. *)
Theorem scenario1_result (k : nat) :
  exists m hp s st wd,
    readMaze maze1 = Some (m, hp) /\
    initial m hp = Some (s, st) /\
    st !! state.cells s = Some [4%nat] /\ state.keys s = 0 /\
    shortestPath (3 + k) m hp s (st, ∅) = Some (8, wd).
Proof.
  assert (H : ('(m, hp) ← readMaze maze1; '(s, st) ← initial m hp;
               cs ← st !! state.cells s;
               r ← memoP 3 hp (maze.keys m) cs (state.keys s) ∅;
               Some (cs, state.keys s, r.1)) = Some ([4%nat], 0, 8))
    by (vm_compute; reflexivity).
  destruct (readMaze maze1) as [[m hp]|] eqn:Hm; obind H; [|discriminate H].
  destruct (initial m hp) as [[s st]|] eqn:Hi; obind H; [|discriminate H].
  destruct (st !! state.cells s) as [cs|] eqn:Hcs; obind H; [|discriminate H].
  destruct (memoP 3 _ _ _ _ _) as [[r t]|] eqn:H3; obind H; [|discriminate H].
  injection H as -> Hk ->.
  destruct (erase_Some (shortestPath (3 + k) m hp s (st, ∅)) 8 t) as [st' Hr].
  { rewrite (shortestPath_refines _ _ _ _ _ _ _ Hcs).
    apply (memoP_mono 3); [lia|exact H3]. }
  exists m, hp, s, st, (st', t). repeat split; assumption || reflexivity.
Qed.

(** C8: two runs of the search on the same maze from the initial state,
    each with an empty table of its own, return the same result; the second
    run starts in the slice store the first one left. *)
Theorem two_runs_same_result rows m hp s st fuel :
  ascii_rows rows = true ->
  readMaze rows = Some (m, hp) ->
  initial m hp = Some (s, st) ->
  (27 <= fuel)%nat ->
  exists r st1 t1 st2 t2,
    shortestPath fuel m hp s (st, ∅) = Some (r, (st1, t1)) /\
    shortestPath fuel m hp s (st1, ∅) = Some (r, (st2, t2)).
Proof.
  intros _ Hm Hi Hf. apply readMaze_ok in Hm.
  destruct (initial_spec _ _ _ _ Hi) as (sc & _ & Hs & _ & Hcs & Hv).
  destruct (memoP_total hp (maze.keys m) (maze_ok_wf_paths _ _ Hm) fuel sc (state.keys s) ∅)
    as (r & t1 & Hr); [done|pose proof (missing_le_26 (state.keys s)); lia|].
  destruct (erase_Some (shortestPath fuel m hp s (st, ∅)) r t1) as [st1 H1].
  { by rewrite (shortestPath_refines _ _ _ _ _ _ _ Hcs). }
  assert (Hcs1 : st1 !! state.cells s = Some sc).
  { apply shortestPath_grows in H1. simpl in H1. by eapply prefix_lookup_keep. }
  destruct (erase_Some (shortestPath fuel m hp s (st1, ∅)) r t1) as [st2 H2].
  { by rewrite (shortestPath_refines _ _ _ _ _ _ _ Hcs1). }
  by exists r, st1, t1, st2, t1.
Qed.

(** ** The memo table *)

Lemma string_app_inj_length (a a' b b' : string) :
  String.length a = String.length a' -> a +:+ b = a' +:+ b' -> a = a' /\ b = b'.
Proof.
  revert a'. induction a as [|ch a IH]; intros [|ch' a']; simpl; intros Hl H; try done.
  injection H as -> H. destruct (IH a') as [-> ->]; [lia|done|done].
Qed.

Lemma cellChars_length hp cs a : cellChars hp cs = Some a -> String.length a = length cs.
Proof.
  revert a. induction cs as [|c cs IH]; simpl; intros a H; [by simplify_eq|].
  destruct (hp !! c); simpl in H; [|done].
  destruct (cellChars hp cs) as [r|]; simpl in H; [|done]. simplify_eq. simpl.
  f_equal. by apply IH.
Qed.

Lemma stringOf_inj hp cs cs' keys keys' key :
  length cs = length cs' -> 0 <= keys -> 0 <= keys' ->
  stringOf hp cs keys = Some key -> stringOf hp cs' keys' = Some key ->
  cellChars hp cs = cellChars hp cs' /\ keys = keys'.
Proof.
  unfold stringOf. intros Hl Hk Hk' H H'.
  destruct (cellChars hp cs) as [a|] eqn:Ha; simpl in H; [|done].
  destruct (cellChars hp cs') as [a'|] eqn:Ha'; simpl in H'; [|done].
  simplify_eq.
  destruct (string_app_inj_length a' a (pretty (Z.to_N keys')) (pretty (Z.to_N keys)))
    as [-> Hp]; [|done|].
  { rewrite (cellChars_length _ _ _ Ha), (cellChars_length _ _ _ Ha'). done. }
  split; [done|]. apply (inj pretty) in Hp. lia.
Qed.

Lemma shape_length hp cs0 cs : shape hp cs0 cs -> length cs = length cs0.
Proof. intros H. symmetry. by eapply Forall2_length. Qed.

Lemma shape_refl hp cs : shape hp cs cs.
Proof. apply Forall_Forall2_diag, Forall_forall. intros; by left. Qed.

Lemma shape_insert hp cs0 cs i c x :
  shape hp cs0 cs -> hp !! c = Some x -> lowercase (cell.char x) ->
  shape hp cs0 (<[i := c]> cs).
Proof.
  intros H Hx Hl. apply Forall2_same_length_lookup.
  apply Forall2_same_length_lookup in H as [Hlen H].
  split; [by rewrite length_insert|].
  intros j c0 c' H0 H'. destruct (decide (i = j)) as [->|Hne].
  - rewrite list_lookup_insert_eq in H' by (rewrite <- Hlen; by eapply lookup_lt_Some).
    simplify_eq. right. by exists x.
  - rewrite list_lookup_insert_ne in H' by done. by eapply H.
Qed.

Lemma shape_valid hp cs0 cs : Forall (valid hp) cs0 -> shape hp cs0 cs -> Forall (valid hp) cs.
Proof.
  intros Hv H. induction H as [|c0 c cs0 cs [->|(x & Hx & _)] _ IH]; [constructor| |].
  - apply Forall_cons in Hv as [? ?]. constructor; auto.
  - apply Forall_cons in Hv as [? ?]. constructor; [by exists x|auto].
Qed.

Lemma shape_chars_inj hp cs0 : unique_letters hp -> forall cs cs',
  shape hp cs0 cs -> shape hp cs0 cs' ->
  is_Some (cellChars hp cs) -> cellChars hp cs = cellChars hp cs' -> cs = cs'.
Proof.
  intros Hu. induction cs0 as [|c0 cs0 IH]; intros cs cs' H H' Hs Heq.
  - apply Forall2_nil_inv_l in H as ->. by apply Forall2_nil_inv_l in H' as ->.
  - apply Forall2_cons_inv_l in H as (c & cs1 & Hc & H & ->).
    apply Forall2_cons_inv_l in H' as (c' & cs1' & Hc' & H' & ->).
    simpl in *. destruct Hs as [a Ha]. rewrite Ha in Heq.
    destruct (hp !! c) as [x|] eqn:Hx; simpl in Ha; [|done].
    destruct (cellChars hp cs1) as [r|] eqn:Hr; simpl in Ha; [|done].
    destruct (hp !! c') as [x'|] eqn:Hx'; simpl in Heq; [|done].
    destruct (cellChars hp cs1') as [r'|] eqn:Hr'; simpl in Heq; [|done].
    injection Ha as <-. injection Heq as Hch <-.
    f_equal.
    + destruct Hc as [Ec|(y & Hy & Hl)], Hc' as [Ec'|(y' & Hy' & Hl')].
      * congruence.
      * assert (y' = x') as -> by congruence. symmetry. by apply (Hu c' c x' x).
      * assert (y = x) as -> by congruence. by apply (Hu c c' x x').
      * assert (y = x) as -> by congruence. by apply (Hu c c' x x').
    + apply IH; [done|done|by rewrite Hr|by rewrite Hr, Hr'].
Qed.

Lemma state_key_inj hp cs0 cs cs' keys keys' key :
  unique_letters hp -> shape hp cs0 cs -> shape hp cs0 cs' ->
  0 <= keys -> 0 <= keys' ->
  stringOf hp cs keys = Some key -> stringOf hp cs' keys' = Some key ->
  cs = cs' /\ keys = keys'.
Proof.
  intros Hu Hs Hs' Hk Hk' H H'.
  destruct (stringOf_inj hp cs cs' keys keys' key) as [Hc ->]; try done.
  { by rewrite (shape_length _ _ _ Hs), (shape_length _ _ _ Hs'). }
  split; [|done]. apply (shape_chars_inj hp cs0 Hu); try done.
  unfold stringOf in H. destruct (cellChars hp cs); [by eexists|done].
Qed.

Section loops_agree.
Context {T : Type}.
Variable hp : heap.
Variable recM : list ptr → keyset → T → option (Z * T).
Variable recN : nat → list ptr → keyset → unit → option (Z * unit).
Variable D : list ptr → keyset → Prop.
Variable I : T → Prop.
Hypothesis recN_mono : forall f f' cs keys u r,
  (f <= f')%nat -> recN f cs keys u = Some r -> recN f' cs keys u = Some r.
Hypothesis rec_agree : forall cs keys t, D cs keys -> I t ->
  exists r t' f, recM cs keys t = Some (r, t') /\ I t' /\ recN f cs keys tt = Some (r, tt).

Lemma pathsLoopP_agree ps : forall cs keys i min t,
  (i < length cs)%nat -> I t ->
  (forall p, p ∈ ps -> is_Some (hp !! path.dest p)) ->
  (forall p, p ∈ ps -> eligible hp keys p = true ->
     D (nextCells cs i p) (nextKeys hp keys p)) ->
  exists r t' f,
    pathsLoopP hp recM cs keys i ps min t = Some (r, t') /\ I t' /\
    pathsLoopP hp (recN f) cs keys i ps min tt = Some (r, tt).
Proof.
  induction ps as [|p ps IH]; simpl; intros cs keys i min t Hi Ht Hv Hd.
  - by exists min, t, 0%nat.
  - assert (Hv' : forall q, q ∈ ps -> is_Some (hp !! path.dest q))
      by (intros; apply Hv; by right).
    assert (Hd' : forall q, q ∈ ps -> eligible hp keys q = true ->
      D (nextCells cs i q) (nextKeys hp keys q)) by (intros; apply Hd; [by right|done]).
    destruct (Hv p) as [d Hdp]; [by left|].
    destruct (contains keys (cell.char d) || negb (containsAll keys (path.reqKeys p))) eqn:Es.
    { destruct (IH cs keys i min t Hi Ht Hv' Hd') as (r & t' & f & H1 & Ht' & H2).
      exists r, t', f. rewrite Hdp. simpl. rewrite Es. done. }
    destruct (rec_agree (<[i:=path.dest p]> cs) (plus keys (cell.char d)) t)
      as (r1 & t1 & f1 & Hm1 & Ht1 & Hn1); [|done|].
    { specialize (Hd p). unfold nextCells, nextKeys in Hd. rewrite Hdp in Hd.
      apply Hd; [by left|]. rewrite (eligible_spec hp keys p d Hdp). by rewrite Es. }
    set (min1 := if (min =? 0) || (int_add (path.len p) r1 <? min)
                 then int_add (path.len p) r1 else min).
    destruct (IH cs keys i min1 t1 Hi Ht1 Hv' Hd') as (r & t' & f2 & Hm2 & Ht' & Hn2).
    exists r, t', (f1 `max` f2)%nat. rewrite Hdp. simpl. rewrite Es.
    rewrite !decide_True by done. rewrite Hm1. simpl.
    split; [done|]. split; [done|].
    rewrite (recN_mono f1 (f1 `max` f2)%nat _ _ _ _ (Nat.le_max_l _ _) Hn1). simpl.
    apply (pathsLoopP_mono hp (recN f2)); [|done].
    intros ? ? ? ?. apply recN_mono. lia.
Qed.

Lemma cellsLoopP_agree n : forall cs keys i min t,
  (i + n <= length cs)%nat -> I t -> Forall (valid hp) cs ->
  (forall j c xc p, cs !! j = Some c -> hp !! c = Some xc -> p ∈ cell.paths xc ->
     is_Some (hp !! path.dest p) /\
     (eligible hp keys p = true -> D (nextCells cs j p) (nextKeys hp keys p))) ->
  exists r t' f,
    cellsLoopP hp recM cs keys n i min t = Some (r, t') /\ I t' /\
    cellsLoopP hp (recN f) cs keys n i min tt = Some (r, tt).
Proof.
  induction n as [|n IH]; simpl; intros cs keys i min t Hi Ht Hv Hd.
  - by exists min, t, 0%nat.
  - destruct (lookup_lt_is_Some_2 cs i) as [c Hc]; [lia|].
    destruct (proj1 (Forall_lookup _ _) Hv i c Hc) as [xc Hxc].
    assert (Hstep : forall (U : Type) (rc : list ptr → keyset → U → option (Z * U)) x,
      cellsLoopP hp rc cs keys (S n) i min x
      = '(min', x') ← pathsLoopP hp rc cs keys i (cell.paths xc) min x;
        cellsLoopP hp rc cs keys n (S i) min' x').
    { intros U rc x. simpl. rewrite Hc. simpl. by rewrite Hxc. }
    setoid_rewrite Hstep. clear Hstep.
    destruct (pathsLoopP_agree (cell.paths xc) cs keys i min t)
      as (r1 & t1 & f1 & Hm1 & Ht1 & Hn1); [lia|done| | |].
    { intros p Hp. by apply (Hd i c xc p). }
    { intros p Hp. by apply (Hd i c xc p). }
    destruct (IH cs keys (S i) r1 t1) as (r & t' & f2 & Hm2 & Ht' & Hn2);
      [lia|done|done|done|].
    exists r, t', (f1 `max` f2)%nat. rewrite Hm1. simpl. split; [done|]. split; [done|].
    rewrite (pathsLoopP_mono hp (recN f1) (recN (f1 `max` f2)%nat)) with (r := (r1, tt));
      [|intros ? ? ? ?; apply recN_mono; lia|done].
    simpl. apply (cellsLoopP_mono hp (recN f2)); [|done].
    intros ? ? ? ?. apply recN_mono. lia.
Qed.
End loops_agree.

Lemma table_ok_empty hp mkeys cs0 : table_ok hp mkeys cs0 ∅.
Proof. intros key v H. by rewrite lookup_empty in H. Qed.

Lemma memoP_agrees hp mkeys cs0 :
  wf_paths hp -> unique_letters hp ->
  forall fuel cs keys t,
    shape hp cs0 cs -> Forall (valid hp) cs -> 0 <= keys ->
    (missing keys < fuel)%nat -> table_ok hp mkeys cs0 t ->
    exists r t' f,
      memoP fuel hp mkeys cs keys t = Some (r, t') /\ table_ok hp mkeys cs0 t' /\
      nomemoP f hp mkeys cs keys tt = Some (r, tt).
Proof.
  intros Hwf Hu. induction fuel as [|fuel IH]; intros cs keys t Hs Hv Hk Hm Ht; [lia|].
  simpl. destruct (stringOf_valid hp cs keys Hv) as [k Hkey]. rewrite Hkey. simpl.
  destruct (Z.eqb_spec keys mkeys) as [Heq|Hne].
  { exists 0, t, 1%nat. split; [done|]. split; [done|]. simpl. rewrite Hkey. simpl.
    by rewrite (proj2 (Z.eqb_eq _ _) Heq). }
  destruct (t !! k) as [d|] eqn:Hlk.
  { destruct (Ht k d Hlk cs keys Hs Hk Hkey) as [f Hf]. by exists d, t, f. }
  destruct (cellsLoopP_agree hp (memoP fuel hp mkeys) (fun f => nomemoP f hp mkeys)
    (fun cs' keys' => shape hp cs0 cs' /\ Forall (valid hp) cs' /\ 0 <= keys' /\
       (missing keys' < fuel)%nat) (table_ok hp mkeys cs0))
    with (n := length cs) (cs := cs) (keys := keys) (i := 0%nat) (min := 0) (t := t)
    as (r & t' & f & -> & Ht' & Hn); [| |lia|done|done| |].
  - intros f f' cs' keys' u r' Hle. by apply nomemoP_mono.
  - intros cs' keys' t1 (Hs' & Hv' & Hk' & Hm') Ht1. by apply IH.
  - intros j c xc p Hc Hxc Hp.
    destruct (wf_paths_next hp cs keys j c xc p Hwf Hv Hc Hxc Hp) as [H1 H2].
    split; [done|]. intros He. destruct (H2 He) as [Hv' Hm'].
    destruct (Hwf c xc p Hxc Hp) as (d & Hd & Hl).
    unfold nextCells, nextKeys in *. rewrite Hd in *.
    split; [by eapply shape_insert|]. split; [done|]. split; [by apply plus_nonneg|lia].
  - simpl. exists r, (<[k:=r]> t'), (S f). split; [done|].
    assert (HS : nomemoP (S f) hp mkeys cs keys tt = Some (r, tt)).
    { simpl. rewrite Hkey. simpl. by rewrite (proj2 (Z.eqb_neq _ _) Hne). }
    split; [|done].
    intros key v Hv' cs' keys' Hs' Hk' Hkey'.
    destruct (decide (k = key)) as [<-|Hnk].
    + rewrite lookup_insert_eq in Hv'. simplify_eq.
      destruct (state_key_inj hp cs0 cs' cs keys' keys k) as [-> ->]; try done.
      by exists (S f).
    + rewrite lookup_insert_ne in Hv' by done. by apply (Ht' key).
Qed.

Lemma memoP_stores fuel hp mkeys cs keys t v t' key :
  memoP fuel hp mkeys cs keys t = Some (v, t') ->
  keys <> mkeys -> stringOf hp cs keys = Some key -> t' !! key = Some v.
Proof.
  destruct fuel as [|fuel]; simpl; [done|]. intros H Hne Hkey. rewrite Hkey in H. simpl in H.
  rewrite (proj2 (Z.eqb_neq _ _) Hne) in H.
  destruct (t !! key) as [d|] eqn:Hlk; [by simplify_eq|].
  destruct (cellsLoopP _ _ _ _ _ _ _ _) as [[m1 t1]|]; simpl in H; [|done].
  simplify_eq. by rewrite lookup_insert_eq.
Qed.

Lemma unique_lettersb_spec hp : unique_lettersb hp = true -> unique_letters hp.
Proof.
  unfold unique_lettersb. intros H p q x y Hx Hy Hl Hc.
  rewrite forallb_forall in H.
  assert (Hp : In p (seq 0 (length hp))).
  { apply in_seq. apply lookup_lt_Some in Hx. lia. }
  assert (Hq : In q (seq 0 (length hp))).
  { apply in_seq. apply lookup_lt_Some in Hy. lia. }
  specialize (H p Hp). rewrite forallb_forall in H. specialize (H q Hq).
  rewrite Hx, Hy in H. unfold lowercase in Hl.
  rewrite (proj2 (Z.leb_le _ _) (proj1 Hl)), (proj2 (Z.leb_le _ _) (proj2 Hl)) in H.
  rewrite (proj2 (Ascii.eqb_eq _ _) Hc) in H. simpl in H. by apply Nat.eqb_eq.
Qed.

Lemma nomemoP_at hp mkeys cs keys f fuel v :
  wf_paths hp -> Forall (valid hp) cs -> (27 <= fuel)%nat ->
  nomemoP f hp mkeys cs keys tt = Some (v, tt) ->
  nomemoP fuel hp mkeys cs keys tt = Some (v, tt).
Proof.
  intros Hwf Hv Hf H.
  destruct (nomemoP_total hp mkeys Hwf fuel cs keys Hv) as [r Hr].
  { pose proof (missing_le_26 keys). lia. }
  apply (nomemoP_mono f (f `max` fuel)%nat) in H; [|lia].
  pose proof (nomemoP_mono fuel (f `max` fuel)%nat _ _ _ _ _ _ (Nat.le_max_r _ _) Hr) as Hr'.
  congruence.
Qed.



(** ** A maze with one key *)

Lemma walk_trans hp a b c n n' :
  walk hp a b n -> walk hp b c n' -> walk hp a c (n + n').
Proof.
  intros Hab Hbc. induction Hbc as [|d e n' Hbd IH He].
  - by rewrite Nat.add_0_r.
  - rewrite Nat.add_succ_r. by eapply walk_step.
Qed.

Lemma single_dest (l : list path.t) k :
  NoDup (path.dest <$> l) -> (forall q, q ∈ l -> path.dest q = k) ->
  (exists q, q ∈ l) -> exists p, l = [p].
Proof.
  intros Hnd Hall [q Hq]. destruct l as [|p [|p' l]].
  - by apply elem_of_nil in Hq.
  - by exists p.
  - exfalso. simpl in Hnd. apply NoDup_cons in Hnd as [Hnotin _]. apply Hnotin.
    rewrite (Hall p) by (by left). rewrite <- (Hall p') by (right; by left). by left.
Qed.

Lemma contains_0 c : contains 0 c = false.
Proof. rewrite contains_testbit. apply Z.bits_0. Qed.

Lemma memoP_unfold fuel hp mkeys cs keys t :
  memoP (S fuel) hp mkeys cs keys t =
  (stateKey ← stringOf hp cs keys;
   if keys =? mkeys then Some (0, t)
   else match t !! stateKey with
        | Some d => Some (d, t)
        | None =>
            '(min, table') ←
              cellsLoopP hp (memoP fuel hp mkeys) cs keys (length cs) 0%nat 0 t;
            Some (min, <[stateKey := min]> table')
        end).
Proof. done. Qed.

Lemma cellsLoopP_single {X} hp (rc : list ptr → keyset → X → option (Z * X)) c xc keys min x :
  hp !! c = Some xc ->
  cellsLoopP hp rc [c] keys 1 0 min x = pathsLoopP hp rc [c] keys 0 (cell.paths xc) min x.
Proof.
  intros Hc. simpl. rewrite Hc. simpl.
  by destruct (pathsLoopP _ _ _ _ _ _ _ _) as [[? ?]|].
Qed.

Lemma pathsLoopP_single {X} hp (rc : list ptr → keyset → X → option (Z * X))
    cs keys i p d min x r x' :
  hp !! path.dest p = Some d ->
  contains keys (cell.char d) = false -> containsAll keys (path.reqKeys p) = true ->
  (i < length cs)%nat ->
  rc (<[i := path.dest p]> cs) (plus keys (cell.char d)) x = Some (r, x') ->
  pathsLoopP hp rc cs keys i [p] min x
  = Some (if (min =? 0) || (int_add (path.len p) r <? min)
          then int_add (path.len p) r else min, x').
Proof.
  intros Hd Hc Ha Hi Hr. simpl. rewrite Hd. simpl. rewrite Hc, Ha. simpl.
  rewrite decide_True by done. rewrite Hr. done.
Qed.

(** The value of a state from which nothing is left to collect. *)
Lemma memoP_dead_end fuel hp mkeys cs keys :
  Forall (valid hp) cs ->
  (forall c xc p, c ∈ cs -> hp !! c = Some xc -> p ∈ cell.paths xc ->
     exists d, hp !! path.dest p = Some d /\
     (contains keys (cell.char d) = true \/ containsAll keys (path.reqKeys p) = false)) ->
  exists t, memoP (S fuel) hp mkeys cs keys ∅ = Some (0, t).
Proof.
  intros Hv Hp. rewrite memoP_unfold.
  destruct (stringOf_valid hp cs keys Hv) as [key ->]. simpl.
  destruct (keys =? mkeys); [by eexists|]. rewrite lookup_empty.
  rewrite cellsLoopP_skip; [by eexists|lia|done|done].
Qed.

Lemma paths_of_landmark m hp c x :
  maze_ok m hp -> hp !! c = Some x -> landmark x = true ->
  exists seen dn,
    bfs_inv hp c seen dn [] /\
    cell.paths x = filter (fun p => key_dest hp p = true) dn /\
    NoDup (path.dest <$> cell.paths x) /\
    (forall p, p ∈ cell.paths x ->
       p ∈ dn /\ reachable hp c (path.dest p) /\
       exists d, hp !! path.dest p = Some d /\ cell.cellType d = CellType.key).
Proof.
  intros Hok Hx Hl. destruct (maze_ok_paths m hp c x Hok Hx) as (seen & dn & Hi & Hp).
  rewrite Hl in Hp. exists seen, dn. split; [done|]. split; [done|]. rewrite Hp. split.
  - pose proof (bi_nodup _ _ _ _ _ Hi) as Hnd. rewrite app_nil_r in Hnd.
    eapply sublist_NoDup; [exact Hnd|]. apply fmap_sublist, sublist_filter.
  - intros p Hin. apply list_elem_of_filter in Hin as [Hk Hin].
    split; [done|]. split; [|by apply key_dest_true].
    destruct (bi_walk _ _ _ _ _ Hi p) as [_ Hw]; [by rewrite app_nil_r|]. by eexists.
Qed.

(** C5: in a maze with one start cell, one key cell that can be reached
    from it and no door, the search from the initial state returns the least
    number of hops from the start cell to that key cell. *)
Theorem single_key_distance rows m hp s0 k xk fuel :
  ascii_rows rows = true ->
  readMaze rows = Some (m, hp) ->
  start m hp = Some [s0] ->
  hp !! k = Some xk -> cell.cellType xk = CellType.key ->
  reachable hp s0 k ->
  (forall k' x', hp !! k' = Some x' -> cell.cellType x' = CellType.key ->
     reachable hp s0 k' -> k' = k) ->
  (forall c x, hp !! c = Some x -> cell.cellType x <> CellType.door) ->
  (2 <= fuel)%nat ->
  exists s st d wd,
    initial m hp = Some (s, st) /\
    shortestPath fuel m hp s (st, ∅) = Some (Z.of_nat d, wd) /\
    distance hp s0 k d.
Proof.
  intros _ Hm Hstart Hxk Hkey [nk Hreach] Honly Hnodoor Hf.
  apply readMaze_ok in Hm.
  destruct (start_spec _ _ _ Hstart s0) as (x0 & Hx0 & Hty0); [by left|].
  assert (Hlow : lowercase (cell.char xk)).
  { apply newCell_key. by rewrite <- (ok_typed _ _ Hm _ _ Hxk). }
  (* the one path of the start cell *)
  destruct (paths_of_landmark m hp s0 x0 Hm Hx0) as (seen & dn & Hi & Hp0 & Hnd0 & Hall0).
  { unfold landmark. rewrite Hty0. done. }
  destruct (single_dest (cell.paths x0) k Hnd0) as [p Hp].
  { intros q Hq. destruct (Hall0 q Hq) as (_ & Hr & d & Hd & Hdk). by apply (Honly _ d). }
  { destruct (bfs_inv_complete _ _ _ _ Hi k nk Hreach) as (q & Hq & Hqk & _).
    exists q. rewrite Hp0. apply list_elem_of_filter. split; [|done].
    unfold key_dest. rewrite Hqk, Hxk, Hkey. done. }
  assert (Hpin : p ∈ cell.paths x0) by (rewrite Hp; by left).
  destruct (Hall0 p Hpin) as (Hpdn & Hpr & d & Hd & Hdk).
  assert (Hpk : path.dest p = k) by (by apply (Honly _ d)).
  destruct (bfs_inv_distance _ _ _ _ p Hi Hpdn) as [Hlen0 Hdist].
  assert (Hreq : path.reqKeys p = 0).
  { apply (bi_doors _ _ _ _ _ Hi Hnodoor). by rewrite app_nil_r. }
  assert (Hlen : path.len p < 2 ^ 63).
  { apply list_elem_of_lookup in Hpdn as [i Hi'].
    pose proof (bi_index _ _ _ _ _ Hi i p) as Hle. rewrite app_nil_r in Hle.
    specialize (Hle Hi'). apply lookup_lt_Some in Hi'.
    pose proof (bfs_inv_length _ _ _ _ _ Hi) as HL. rewrite app_nil_r in HL.
    pose proof (ok_size _ _ Hm). lia. }
  (* from the key cell nothing is left *)
  assert (Hrec : exists t, memoP 1 hp (maze.keys m) [k] (plus 0 (cell.char xk)) ∅ = Some (0, t)).
  { apply memoP_dead_end.
    - constructor; [by exists xk|constructor].
    - intros c xc q Hc Hxc Hq. apply list_elem_of_singleton in Hc as ->.
      assert (xc = xk) as -> by congruence.
      destruct (paths_of_landmark m hp k xk Hm Hxk) as (seenk & dnk & _ & _ & _ & Hallk).
      { unfold landmark. rewrite Hkey. done. }
      destruct (Hallk q Hq) as (_ & [n' Hr'] & d' & Hd' & Hdk').
      assert (path.dest q = k) as Hqk.
      { apply (Honly _ d'); [done|done|]. exists (nk + n')%nat. by eapply walk_trans. }
      exists d'. split; [done|]. left. rewrite Hqk in Hd'.
      assert (d' = xk) as -> by congruence. by apply contains_plus_same. }
  destruct Hrec as [t1 Hrec].
  assert (Hmk : maze.keys m <> 0).
  { intros H0. pose proof (ok_keys _ _ Hm k xk Hxk Hkey) as Hc.
    rewrite H0, contains_0 in Hc. done. }
  destruct (stringOf_valid hp [s0] 0) as [key0 Hkey0].
  { constructor; [by exists x0|constructor]. }
  assert (H2 : memoP 2 hp (maze.keys m) [s0] 0 ∅
               = Some (path.len p, <[key0 := path.len p]> t1)).
  { rewrite memoP_unfold. rewrite Hkey0. cbv beta iota delta [mbind option_bind].
    rewrite (proj2 (Z.eqb_neq 0 (maze.keys m))) by done.
    rewrite lookup_empty.
    change (length [s0]) with 1%nat. rewrite (cellsLoopP_single hp _ s0 x0) by done.
    rewrite Hp.
    rewrite (pathsLoopP_single hp _ [s0] 0 0%nat p xk 0 ∅ 0 t1); simpl.
    - rewrite int_add_small by lia. by rewrite Z.add_0_r.
    - by rewrite Hpk.
    - apply contains_0.
    - by rewrite Hreq.
    - lia.
    - by rewrite Hpk. }
  unfold initial. rewrite Hstart. simpl.
  destruct (erase_Some (shortestPath fuel m hp (state.mk 0 0) ([[s0]], ∅)) (path.len p)
    (<[key0 := path.len p]> t1)) as [st' Hr].
  { rewrite (shortestPath_refines _ _ _ _ _ _ [s0]) by done. simpl.
    apply (memoP_mono 2); [lia|done]. }
  exists (state.mk 0 0), [[s0]], (Z.to_nat (path.len p)), (st', <[key0 := path.len p]> t1).
  split; [done|]. rewrite Z2Nat.id by lia. split; [done|]. by rewrite <- Hpk.
Qed.

(** ** The theorems at concrete mazes *)




Lemma findPaths_own_key_first_witness :
  exists rest,
    findPaths scenario1_heap 6 = Some (path.mk 0 6 0 :: rest) /\
    cell.paths scenario1_key_a = path.mk 0 6 0 :: rest /\
    forall p, p ∈ rest -> path.dest p <> 6%nat.
Proof.
  apply (findPaths_own_key_first maze1 scenario1_maze scenario1_heap 6%nat scenario1_key_a).
  - vm_compute. reflexivity.
  - vm_compute. reflexivity.
  - reflexivity.
  - reflexivity.
Defined.

Lemma single_key_distance_witness :
  exists s st d wd,
    initial one_maze one_heap = Some (s, st) /\
    shortestPath 2 one_maze one_heap s (st, ∅) = Some (Z.of_nat d, wd) /\
    distance one_heap 0 2 d.
Proof.
  apply (single_key_distance maze_one one_maze one_heap 0%nat 2%nat one_key 2).
  - vm_compute. reflexivity.
  - vm_compute. reflexivity.
  - vm_compute. reflexivity.
  - reflexivity.
  - reflexivity.
  - exists 2%nat. apply walk_step with (d := 1%nat).
    + apply walk_step with (d := 0%nat); [apply walk_here|].
      eexists. split; [vm_compute; reflexivity|]. simpl. left.
    + eexists. split; [vm_compute; reflexivity|]. simpl. right. left.
  - intros k' x' Hx Hk _. destruct k' as [|[|[|k']]]; vm_compute in Hx;
      try discriminate Hx; injection Hx as <-; try discriminate Hk; reflexivity.
  - intros c x Hx. destruct c as [|[|[|c]]]; vm_compute in Hx;
      try discriminate Hx; injection Hx as <-; discriminate.
  - lia.
Defined.


Lemma two_runs_same_result_witness :
  exists r st1 t1 st2 t2,
    shortestPath 27 scenario1_maze scenario1_heap (state.mk 0 0) ([[4%nat]], ∅)
      = Some (r, (st1, t1)) /\
    shortestPath 27 scenario1_maze scenario1_heap (state.mk 0 0) (st1, ∅)
      = Some (r, (st2, t2)).
Proof.
  apply (two_runs_same_result maze1 scenario1_maze scenario1_heap (state.mk 0 0)
           [[4%nat]] 27).
  - vm_compute. reflexivity.
  - vm_compute. reflexivity.
  - vm_compute. reflexivity.
  - lia.
Defined.

Lemma adjacency_symmetric_orthogonal_witness :
  (edge scenario1_heap 0 1 <-> edge scenario1_heap 1 0) /\
  (edge scenario1_heap 0 1 ->
     exists i j i1 j1, at_pos scenario1_maze i j 0 /\ at_pos scenario1_maze i1 j1 1 /\
       orthogonal i j i1 j1).
Proof.
  apply (adjacency_symmetric_orthogonal maze1 scenario1_maze scenario1_heap 0%nat 1%nat).
  - vm_compute. reflexivity.
  - vm_compute. reflexivity.
Defined.

Lemma shortestPath_keeps_state_witness :
  exists r st' table',
    shortestPath 3 scenario1_maze scenario1_heap (state.mk 0 0) ([[4%nat]], ∅)
      = Some (r, (st', table')) /\
    st' !! 0%nat = Some [4%nat].
Proof.
  destruct (shortestPath 3 scenario1_maze scenario1_heap (state.mk 0 0) ([[4%nat]], ∅))
    as [[r [st' table']]|] eqn:E.
  - exists r, st', table'. split; [reflexivity|].
    destruct (shortestPath_keeps_state 3 scenario1_maze scenario1_heap (state.mk 0 0)
                [[4%nat]] ∅ r st' table' E) as [H _].
    exact H.
  - vm_compute in E. discriminate E.
Defined.

(** * Further properties of the code *)

(** ** Keysets *)

Lemma byte_sub_far c :
  byte_val c < 97 \/ 161 <= byte_val c -> 64 <= byte_sub c "a".
Proof.
  intros H. pose proof (byte_val_range c) as Hr. unfold byte_sub.
  change (byte_val "a") with 97. destruct H as [H|H].
  - replace (byte_val c - 97) with (byte_val c + 159 + -1 * 256) by lia.
    rewrite Z.mod_add by lia. rewrite Z.mod_small; lia.
  - rewrite Z.mod_small; lia.
Qed.

Lemma high_bits_only k n : 0 <= k < 2 ^ 64 -> 64 <= n -> Z.testbit k n = false.
Proof.
  intros Hk Hn. destruct (Z.eq_dec k 0) as [->|]; [apply Z.bits_0|].
  apply Z.bits_above_log2; [lia|].
  assert (Z.log2 k < 64) by (apply Z.log2_lt_pow2; lia). lia.
Qed.

(** X1: a character that is 64 or more places from ['a'] in byte
    arithmetic, such as ['@'], ['.'], ['#'] and every upper-case letter, is in
    no keyset, and adding it changes nothing: the shift leaves the 64 bits. *)
Theorem keyset_far_character (k : keyset) (c : ascii) :
  0 <= k < 2 ^ 64 ->
  byte_val c < 97 \/ 161 <= byte_val c ->
  contains k c = false /\ plus k c = k.
Proof.
  intros Hk Hc. pose proof (byte_sub_far c Hc) as Hs. split.
  - rewrite contains_testbit. by apply high_bits_only.
  - unfold plus, uint_wrap. rewrite Z.shiftl_1_l.
    replace (byte_sub c "a") with (64 + (byte_sub c "a" - 64)) by lia.
    rewrite Z.pow_add_r by lia. rewrite Z.mul_comm, Z.mod_mul by lia.
    apply Z.lor_0_r.
Qed.

Lemma keyset_far_character_witness :
  contains 5 "A"%char = false /\ plus 5 "A"%char = 5.
Proof.
  apply (keyset_far_character 5 "A"%char); vm_compute; intuition congruence.
Defined.

Lemma plus_bits_inj k k' :
  (forall n, 0 <= n -> Z.testbit k n = Z.testbit k' n) -> k = k'.
Proof. apply Z.bits_inj'. Qed.

(** X2: [plus] does not depend on the order in which characters are added
    and adding a character twice is adding it once; [containsAll] holds of
    a keyset and itself, of a keyset and the empty one, of a keyset with a
    character added and the keyset, and it is transitive. *)
Theorem keyset_plus_containsAll (k k1 k2 : keyset) (c d : ascii) :
  plus (plus k c) d = plus (plus k d) c /\
  plus (plus k c) c = plus k c /\
  containsAll k k = true /\
  containsAll k 0 = true /\
  containsAll (plus k c) k = true /\
  (containsAll k k1 && containsAll k1 k2 = true -> containsAll k k2 = true).
Proof.
  split; [|split; [|split; [|split; [|split]]]].
  - apply plus_bits_inj. intros n Hn. rewrite !plus_testbit by done.
    rewrite <- !orb_assoc. f_equal. apply orb_comm.
  - apply plus_bits_inj. intros n Hn. rewrite !plus_testbit by done.
    rewrite <- orb_assoc. f_equal. apply orb_diag.
  - apply containsAll_bits. auto.
  - apply containsAll_bits. intros n Hn. by rewrite Z.bits_0.
  - apply containsAll_bits. intros n Hn Hb. rewrite plus_testbit by done. by rewrite Hb.
  - intros H. apply andb_true_iff in H as [H1 H2].
    rewrite containsAll_bits in *. auto.
Qed.

Lemma plus_letters k c : 0 <= k < 2 ^ 26 -> lowercase c -> 0 <= plus k c < 2 ^ 26.
Proof.
  intros Hk Hc. split; [apply plus_nonneg; lia|].
  assert (H0 : 0 <= plus k c) by (apply plus_nonneg; lia).
  destruct (Z.eq_dec (plus k c) 0) as [->|Hne]; [lia|].
  apply Z.log2_lt_pow2; [lia|].
  destruct (Z.lt_ge_cases (Z.log2 (plus k c)) 26) as [|Hge]; [done|exfalso].
  pose proof (Z.bit_log2 (plus k c)) as Hb. rewrite plus_testbit in Hb by lia.
  rewrite low_bits_only in Hb by lia. rewrite byte_sub_a in Hb by done.
  unfold lowercase in Hc. rewrite bool_decide_eq_false_2 in Hb by lia.
  simpl in Hb. assert (false = true) by (apply Hb; lia). done.
Qed.

(** ** The key of a state and the memo table *)

(** X3: for two states with the same number of cells, equal results of
    [String] mean the same characters, cell by cell, and the same keys. *)
Theorem state_String_inj hp st st' s s' cs cs' key :
  st !! state.cells s = Some cs -> st' !! state.cells s' = Some cs' ->
  length cs = length cs' ->
  0 <= state.keys s -> 0 <= state.keys s' ->
  state_String hp st s = Some key -> state_String hp st' s' = Some key ->
  cellChars hp cs = cellChars hp cs' /\ state.keys s = state.keys s'.
Proof.
  intros Hcs Hcs' Hl Hk Hk' H H'.
  rewrite (state_String_stringOf _ _ _ _ Hcs) in H.
  rewrite (state_String_stringOf _ _ _ _ Hcs') in H'.
  by eapply stringOf_inj.
Qed.

Lemma state_String_inj_witness :
  cellChars scenario1_heap [4%nat] = cellChars scenario1_heap [4%nat] /\
  state.keys (state.mk 0 3) = state.keys (state.mk 1 3).
Proof.
  apply (state_String_inj scenario1_heap [[4%nat]] [[0%nat]; [4%nat]]
           (state.mk 0 3) (state.mk 1 3) [4%nat] [4%nat] "@3"%string).
  - reflexivity.
  - reflexivity.
  - reflexivity.
  - simpl. lia.
  - simpl. lia.
  - vm_compute. reflexivity.
  - vm_compute. reflexivity.
Defined.

Section loops_table.
Variable hp : heap.
Variable recP : list ptr → keyset → gmap string Z → option (Z * gmap string Z).
Variable D : list ptr → keyset → Prop.
Variable P : string → Prop.
Hypothesis rec_adds : forall cs keys t r t',
  D cs keys -> recP cs keys t = Some (r, t') ->
  t ⊆ t' /\ forall key, t !! key = None -> is_Some (t' !! key) -> P key.

Lemma pathsLoopP_table ps : forall cs keys i min t r t',
  (forall p, p ∈ ps -> eligible hp keys p = true ->
     D (nextCells cs i p) (nextKeys hp keys p)) ->
  pathsLoopP hp recP cs keys i ps min t = Some (r, t') ->
  t ⊆ t' /\ forall key, t !! key = None -> is_Some (t' !! key) -> P key.
Proof.
  induction ps as [|p ps IH]; simpl; intros cs keys i min t r t' Hd H.
  { simplify_eq. split; [done|]. intros key Hn [v Hv]. congruence. }
  assert (Hd' : forall q, q ∈ ps -> eligible hp keys q = true ->
    D (nextCells cs i q) (nextKeys hp keys q)) by (intros; apply Hd; [by right|done]).
  destruct (hp !! path.dest p) as [d|] eqn:Hdp; simpl in H; [|done].
  destruct (contains _ _ || negb _) eqn:Es; [by eapply IH|].
  case_decide; [|done].
  destruct (recP _ _ _) as [[r1 t1]|] eqn:Er; simpl in H; [|done].
  destruct (rec_adds _ _ _ _ _ (ltac:(
    specialize (Hd p); unfold nextCells, nextKeys in Hd; rewrite Hdp in Hd;
    apply Hd; [by left|]; rewrite (eligible_spec hp keys p d Hdp); by rewrite Es)) Er)
    as [Hs1 Hn1].
  destruct (IH _ _ _ _ _ _ _ Hd' H) as [Hs2 Hn2].
  split; [by etrans|]. intros key Hn Hv.
  destruct (t1 !! key) as [v1|] eqn:E1; [apply Hn1; [done|by eexists]|by apply Hn2].
Qed.

Lemma cellsLoopP_table n : forall cs keys i min t r t',
  (forall j c xc p, cs !! j = Some c -> hp !! c = Some xc -> p ∈ cell.paths xc ->
     eligible hp keys p = true -> D (nextCells cs j p) (nextKeys hp keys p)) ->
  cellsLoopP hp recP cs keys n i min t = Some (r, t') ->
  t ⊆ t' /\ forall key, t !! key = None -> is_Some (t' !! key) -> P key.
Proof.
  induction n as [|n IH]; simpl; intros cs keys i min t r t' Hd H.
  { simplify_eq. split; [done|]. intros key Hn [v Hv]. congruence. }
  destruct (cs !! i) as [c|] eqn:Hc; simpl in H; [|done].
  destruct (hp !! c) as [xc|] eqn:Hxc; simpl in H; [|done].
  destruct (pathsLoopP _ _ _ _ _ _ _ _) as [[m1 t1]|] eqn:Ep; simpl in H; [|done].
  destruct (pathsLoopP_table _ _ _ _ _ _ _ _ (fun p Hp => Hd i c xc p Hc Hxc Hp) Ep)
    as [Hs1 Hn1].
  destruct (IH _ _ _ _ _ _ _ Hd H) as [Hs2 Hn2].
  split; [by etrans|]. intros key Hn Hv.
  destruct (t1 !! key) as [v1|] eqn:E1; [apply Hn1; [done|by eexists]|by apply Hn2].
Qed.
End loops_table.

(** What a call adds to the table are entries of states with as many cells
    and no more letters missing. *)
Lemma memoP_adds hp mkeys : wf_paths hp -> forall fuel cs keys t r t',
  Forall (valid hp) cs -> 0 <= keys ->
  memoP fuel hp mkeys cs keys t = Some (r, t') ->
  t ⊆ t' /\
  forall key, t !! key = None -> is_Some (t' !! key) ->
    exists cs' keys', length cs' = length cs /\ 0 <= keys' /\
      (missing keys' <= missing keys)%nat /\ stringOf hp cs' keys' = Some key.
Proof.
  intros Hwf. induction fuel as [|fuel IH]; simpl; intros cs keys t r t' Hv Hk H; [done|].
  destruct (stringOf hp cs keys) as [k|] eqn:Hkey; simpl in H; [|done].
  destruct (keys =? mkeys).
  { simplify_eq. split; [done|]. intros key Hn [v Hv']. congruence. }
  destruct (t !! k) as [d|] eqn:Hlk.
  { simplify_eq. split; [done|]. intros key Hn [v Hv']. congruence. }
  destruct (cellsLoopP _ _ _ _ _ _ _ _) as [[m1 t1]|] eqn:Ec; simpl in H; [|done].
  simplify_eq.
  destruct (cellsLoopP_table hp (memoP fuel hp mkeys)
    (fun cs' keys' => length cs' = length cs /\ Forall (valid hp) cs' /\ 0 <= keys' /\
       (missing keys' < missing keys)%nat)
    (fun key => exists cs' keys', length cs' = length cs /\ 0 <= keys' /\
       (missing keys' < missing keys)%nat /\ stringOf hp cs' keys' = Some key))
    with (n := length cs) (cs := cs) (keys := keys) (i := 0%nat) (min := 0) (t := t)
         (r := r) (t' := t1) as [Hs1 Hn1]; [| |done|].
  - intros cs' keys' t0 r0 t0' (Hl' & Hv' & Hk' & Hm') H0.
    destruct (IH _ _ _ _ _ Hv' Hk' H0) as [Hs0 Hn0]. split; [done|].
    intros key Hn Hsome. destruct (Hn0 key Hn Hsome) as (cs2 & keys2 & ? & ? & ? & ?).
    exists cs2, keys2. split; [congruence|]. split; [done|]. split; [lia|done].
  - intros j c xc p Hc Hxc Hp He.
    destruct (wf_paths_next hp cs keys j c xc p Hwf Hv Hc Hxc Hp) as [_ H2].
    destruct (H2 He) as [Hv' Hm']. destruct (Hwf c xc p Hxc Hp) as (d & Hd & _).
    unfold nextCells, nextKeys in *. rewrite Hd in *.
    split; [by rewrite length_insert|]. split; [done|]. split; [by apply plus_nonneg|done].
  - assert (Hk1 : t1 !! k = None).
    { destruct (t1 !! k) as [v1|] eqn:E1; [|done]. exfalso.
      destruct (Hn1 k Hlk) as (cs' & keys' & Hl' & Hk' & Hm' & Hkey'); [by eexists|].
      destruct (stringOf_inj hp cs' cs keys' keys k) as [_ ->]; try done. lia. }
    split.
    + etrans; [exact Hs1|]. by apply insert_subseteq.
    + intros key Hn Hsome. destruct (decide (k = key)) as [<-|Hne].
      * exists cs, keys. split; [done|]. split; [done|]. split; [lia|done].
      * rewrite lookup_insert_ne in Hsome by done.
        destruct (Hn1 key Hn Hsome) as (cs' & keys' & ? & ? & ? & ?).
        exists cs', keys'. split; [done|]. split; [done|]. split; [lia|done].
Qed.

(** X4: in a maze read by [readMaze], [shortestPath] never removes or
    overwrites an entry of the memo table: every entry the table has before
    a call it has after the call, with the same value. *)
Theorem shortestPath_keeps_table rows m hp fuel s st table r st' table' cs :
  ascii_rows rows = true ->
  readMaze rows = Some (m, hp) ->
  st !! state.cells s = Some cs -> Forall (valid hp) cs -> 0 <= state.keys s ->
  shortestPath fuel m hp s (st, table) = Some (r, (st', table')) ->
  forall key v, table !! key = Some v -> table' !! key = Some v.
Proof.
  intros _ Hm Hcs Hv Hk H key v Hkey. apply readMaze_ok in Hm.
  pose proof (shortestPath_refines fuel m hp s st table cs Hcs) as Hr.
  rewrite H in Hr. simpl in Hr. symmetry in Hr.
  destruct (memoP_adds hp (maze.keys m) (maze_ok_wf_paths _ _ Hm) _ _ _ _ _ _ Hv Hk Hr)
    as [Hsub _].
  by eapply lookup_weaken.
Qed.

Lemma shortestPath_keeps_table_witness :
  exists r st' table',
    shortestPath 27 scenario1_maze scenario1_heap (state.mk 0 0)
      ([[4%nat]], {["zz"%string := 5]}) = Some (r, (st', table')) /\
    table' !! "zz"%string = Some 5.
Proof.
  destruct (shortestPath 27 scenario1_maze scenario1_heap (state.mk 0 0)
              ([[4%nat]], {["zz"%string := 5]})) as [[r [st' table']]|] eqn:E.
  - exists r, st', table'. split; [reflexivity|].
    apply (shortestPath_keeps_table maze1 scenario1_maze scenario1_heap 27 (state.mk 0 0)
             [[4%nat]] {["zz"%string := 5]} r st' table' [4%nat]).
    + vm_compute. reflexivity.
    + vm_compute. reflexivity.
    + reflexivity.
    + repeat constructor. eexists. reflexivity.
    + simpl. lia.
    + exact E.
    + vm_compute. reflexivity.
  - vm_compute in E. discriminate E.
Defined.

Lemma shortestPath_keeps_state_aux fuel m hp s st table r st' table' :
  shortestPath fuel m hp s (st, table) = Some (r, (st', table')) ->
  exists cs, st !! state.cells s = Some cs /\ st' !! state.cells s = Some cs.
Proof.
  intros H. pose proof (shortestPath_grows _ _ _ _ _ _ _ H) as Hp. simpl in Hp.
  destruct fuel; simpl in H; [done|]. unfold state_String in H. simpl in H.
  destruct (st !! state.cells s) as [cs|] eqn:Hcs; [|done].
  exists cs. split; [done|]. by eapply prefix_lookup_keep.
Qed.

(** X5: a second call on a state whose keys are not all the keys of the
    maze, with the table the first call left, returns the value of the first
    call from the table and changes neither the table nor the slices. *)
Theorem shortestPath_second_call fuel fuel2 m hp s st table r st' table' :
  shortestPath fuel m hp s (st, table) = Some (r, (st', table')) ->
  state.keys s <> maze.keys m ->
  shortestPath (S fuel2) m hp s (st', table') = Some (r, (st', table')).
Proof.
  intros H Hne.
  destruct (shortestPath_keeps_state_aux fuel m hp s st table r st' table' H)
    as (cs & Hcs & Hcs').
  pose proof (shortestPath_refines fuel m hp s st table cs Hcs) as Hr.
  rewrite H in Hr. simpl in Hr. symmetry in Hr.
  assert (Hkey : is_Some (stringOf hp cs (state.keys s))).
  { destruct fuel; simpl in Hr; [done|].
    destruct (stringOf hp cs (state.keys s)); [by eexists|done]. }
  destruct Hkey as [key Hkey].
  pose proof (memoP_stores _ _ _ _ _ _ _ _ _ Hr Hne Hkey) as Hst.
  simpl. rewrite (state_String_stringOf _ _ _ _ Hcs'), Hkey. simpl.
  rewrite (proj2 (Z.eqb_neq _ _) Hne). by rewrite Hst.
Qed.

Lemma shortestPath_second_call_witness :
  exists r st' table',
    shortestPath 27 scenario1_maze scenario1_heap (state.mk 0 0) ([[4%nat]], ∅)
      = Some (r, (st', table')) /\
    shortestPath 1 scenario1_maze scenario1_heap (state.mk 0 0) (st', table')
      = Some (r, (st', table')).
Proof.
  destruct (shortestPath 27 scenario1_maze scenario1_heap (state.mk 0 0) ([[4%nat]], ∅))
    as [[r [st' table']]|] eqn:E.
  - exists r, st', table'. split; [reflexivity|].
    apply (shortestPath_second_call 27 0 scenario1_maze scenario1_heap (state.mk 0 0)
             [[4%nat]] ∅ r st' table').
    + exact E.
    + intros Hk. vm_compute in Hk. discriminate Hk.
  - vm_compute in E. discriminate E.
Defined.

(** ** When [readMaze] returns *)

(** X6: in a maze read by [readMaze] the search returns from every state
    of cells of the maze, with any table, whenever its depth bound is 27 or
    more, the 26 letters and one; the result does not depend on the bound. *)
Theorem shortestPath_returns rows m hp s st cs table :
  ascii_rows rows = true ->
  readMaze rows = Some (m, hp) ->
  st !! state.cells s = Some cs -> Forall (valid hp) cs ->
  exists r table', forall fuel, (27 <= fuel)%nat ->
    exists st', shortestPath fuel m hp s (st, table) = Some (r, (st', table')).
Proof.
  intros _ Hm Hcs Hv. apply readMaze_ok in Hm.
  destruct (memoP_total hp (maze.keys m) (maze_ok_wf_paths _ _ Hm) 27 cs (state.keys s) table)
    as (r & t' & Hr); [done|pose proof (missing_le_26 (state.keys s)); lia|].
  exists r, t'. intros fuel Hf.
  apply (erase_Some (shortestPath fuel m hp s (st, table))).
  rewrite (shortestPath_refines _ _ _ _ _ _ _ Hcs). by apply (memoP_mono 27).
Qed.

Lemma shortestPath_returns_witness :
  exists r table', forall fuel, (27 <= fuel)%nat ->
    exists st', shortestPath fuel scenario1_maze scenario1_heap (state.mk 0 0) ([[4%nat]], ∅)
      = Some (r, (st', table')).
Proof.
  apply (shortestPath_returns maze1 scenario1_maze scenario1_heap (state.mk 0 0)
           [[4%nat]] [4%nat] ∅).
  - vm_compute. reflexivity.
  - vm_compute. reflexivity.
  - reflexivity.
  - repeat constructor. eexists. reflexivity.
Defined.

Lemma readRow_accepts row : forall i j m hp,
  swept m hp i j -> (i < maze.h m)%nat ->
  (forall k ch, String.get k row = Some ch -> ch <> "#"%char -> (j + k < maze.w m)%nat) ->
  is_Some (readRow i j row m hp).
Proof.
  induction row as [|ch row IH]; simpl; intros i j m hp Hs Hi Hj; [by eexists|].
  destruct (Ascii.eqb_spec ch "#") as [->|Hne].
  - simpl. apply IH; [|done|].
    + destruct Hs as [Hrows Hcols Hjn Hplaced Hbefore Hinj Hkeys Hsize]. split; try done.
      * intros i' j' c Hc. destruct (Hbefore _ _ _ Hc). split; [done|lia].
      * lia.
    + intros k c Hk Hc. specialize (Hj (S k) c Hk Hc). lia.
  - destruct (addCell_total m hp i j ch Hs Hi) as [[m1 hp1] Ha].
    { specialize (Hj 0%nat ch eq_refl Hne). lia. }
    rewrite Ha. simpl.
    destruct (addCell_swept _ _ _ _ _ _ _ Hs Ha) as [Hs1 _].
    destruct (addCell_dims _ _ _ _ _ _ _ Ha) as [Hw Hh].
    apply IH; [done|lia|].
    intros k c Hk Hc. specialize (Hj (S k) c Hk Hc). lia.
Qed.

Lemma readRow_ragged row : forall i j m hp k ch,
  swept m hp i j ->
  String.get k row = Some ch -> ch <> "#"%char -> (maze.w m <= j + k)%nat ->
  readRow i j row m hp = None.
Proof.
  induction row as [|c0 row IH]; simpl; intros i j m hp k ch Hs Hk Hc Hj; [done|].
  destruct k as [|k].
  - simplify_eq. destruct (Ascii.eqb_spec ch "#") as [->|_]; [done|].
    destruct (addCell m _ i j _) as [[m1 hp1]|] eqn:Ha; [|done].
    destruct (addCell_swept _ _ _ _ _ _ _ Hs Ha) as [_ Hlt]. lia.
  - destruct (Ascii.eqb_spec c0 "#") as [->|_].
    + simpl. apply (IH i (S j) m hp k ch); [|done|done|lia].
      destruct Hs as [Hrows Hcols Hjn Hplaced Hbefore Hinj Hkeys Hsize]. split; try done.
      * intros i' j' c Hc'. destruct (Hbefore _ _ _ Hc'). split; [done|lia].
      * lia.
    + destruct (addCell m _ i j _) as [[m1 hp1]|] eqn:Ha; [|done]. simpl.
      destruct (addCell_swept _ _ _ _ _ _ _ Hs Ha) as [Hs1 _].
      destruct (addCell_dims _ _ _ _ _ _ _ Ha) as [Hw Hh].
      apply (IH i (S j) m1 hp1 k ch); [done|done|done|lia].
Qed.

Lemma readRows_accepts rows : forall i m hp,
  swept m hp i 0 -> (i + length rows <= maze.h m)%nat ->
  (forall i' row k ch, rows !! i' = Some row -> String.get k row = Some ch ->
     ch <> "#"%char -> (k < maze.w m)%nat) ->
  is_Some (readRows i rows m hp).
Proof.
  induction rows as [|row rows IH]; simpl; intros i m hp Hs Hi Hw; [by eexists|].
  destruct (readRow_accepts row i 0 m hp Hs) as [[m1 hp1] Hr]; [lia| |].
  { intros k ch Hk Hc. simpl. by apply (Hw 0%nat row k ch). }
  rewrite Hr. simpl.
  destruct (readRow_swept _ _ _ _ _ _ _ Hs Hr) as (Hs1 & Hw1 & Hh1).
  apply IH; [by eapply swept_next_row|lia|].
  intros i' r k ch Hr' Hk Hc. rewrite Hw1. by apply (Hw (S i') r k ch).
Qed.

Lemma readRows_ragged rows : forall i m hp i' row k ch,
  swept m hp i 0 ->
  rows !! i' = Some row -> String.get k row = Some ch -> ch <> "#"%char ->
  (maze.w m <= k)%nat ->
  readRows i rows m hp = None.
Proof.
  induction rows as [|r rows IH]; simpl; intros i m hp i' row k ch Hs Hrow Hk Hc Hw; [done|].
  destruct i' as [|i'].
  - simpl in Hrow. simplify_eq.
    by rewrite (readRow_ragged row i 0 m hp k ch Hs Hk Hc) by (simpl; lia).
  - destruct (readRow i 0 r m hp) as [[m1 hp1]|] eqn:Hr; [|done]. simpl.
    destruct (readRow_swept _ _ _ _ _ _ _ Hs Hr) as (Hs1 & Hw1 & Hh1).
    apply (IH (S i) m1 hp1 i' row k ch); [by eapply swept_next_row|done|done|done|lia].
Qed.

Lemma buildPaths_total m hp :
  swept m hp (maze.h m) 0 ->
  Z.of_nat (maze.w m) * Z.of_nat (maze.h m) < 2 ^ 63 ->
  is_Some (buildPaths m hp).
Proof.
  intros Hs Hsz. unfold buildPaths.
  apply (buildPathsRows_total hp); [done|].
  intros c row Hrow Hc.
  apply list_elem_of_lookup in Hrow as [i Hi]. apply list_elem_of_lookup in Hc as [j Hj].
  assert (Hat : at_pos m i j c) by (unfold at_pos, cell_at; rewrite Hi; done).
  destruct (sw_before _ _ _ _ Hs _ _ _ Hat) as [Hv _]. split; [done|].
  destruct (findPaths_spec hp c) as (seen & dn & -> & _); [| |done|by eexists].
  - intros p q. by apply (swept_adj m hp (maze.h m) 0).
  - pose proof (sw_size _ _ _ _ Hs) as Hsize.
    rewrite Nat.min_0_l, Nat.add_0_r in Hsize. nia.
Qed.

(** X7: [readMaze] returns a maze exactly on the input that has a first
    row, fits an [int] and has no character other than ['#'] at or past the
    length of the first row; on any other input it faults. *)
Theorem readMaze_returns_iff (rows : list string) :
  ascii_rows rows = true ->
  is_Some (readMaze rows) <-> accepted rows.
Proof.
  intros _.
  unfold accepted, readMaze. destruct rows as [|r0 rows].
  { simpl. split; [by intros [? ?]|done]. }
  change (head (r0 :: rows)) with (Some r0). cbv beta iota delta [mbind option_bind].
  destruct (newMaze (String.length r0) (length (r0 :: rows))) as [m0|] eqn:Hn.
  2:{ unfold newMaze in Hn.
      destruct (Z.ltb_spec (Z.of_nat (String.length r0) * Z.of_nat (length (r0 :: rows)))
        (2 ^ 63)); [done|].
      split; [by intros [? ?]|]. intros [? _]. lia. }
  cbv beta iota.
  destruct (newMaze_swept _ _ _ Hn) as (Hs0 & Hw0 & Hh0 & Hsz).
  split.
  - intros Hsome. split; [done|]. intros i row k ch Hrow Hk Hc.
    destruct (Nat.lt_ge_cases k (String.length r0)) as [|Hge]; [done|exfalso].
    rewrite (readRows_ragged (r0 :: rows) 0 m0 [] i row k ch Hs0 Hrow Hk Hc) in Hsome
      by (rewrite Hw0; lia).
    by destruct Hsome.
  - intros [_ Hw].
    destruct (readRows_accepts (r0 :: rows) 0 m0 [] Hs0) as [[m1 hp1] Hr].
    { rewrite Hh0. simpl. lia. }
    { intros i row k ch Hrow Hk Hc. rewrite Hw0. by eapply Hw. }
    rewrite Hr. cbv beta iota.
    destruct (readRows_swept _ _ _ _ _ _ Hs0 Hr) as (Hs1 & Hw1 & Hh1).
    destruct (buildPaths_total m1 hp1) as [hp2 ->].
    + simpl in Hs1. by rewrite Hh1, Hh0.
    + rewrite Hw1, Hh1, Hw0, Hh0. done.
    + by eexists.
Qed.

Lemma readMaze_returns_iff_witness : is_Some (readMaze maze1) <-> accepted maze1.
Proof.
  apply (readMaze_returns_iff maze1). vm_compute. reflexivity.
Defined.

(** ** The grid and the input *)

Lemma joinAt_edges m hp c i j hp2 :
  joinAt m hp c i j = Some hp2 ->
  (forall n, at_pos m i j n -> c <> n) ->
  (forall p q, edge hp p q -> edge hp2 p q) /\
  (forall n, at_pos m i j n -> edge hp2 c n /\ edge hp2 n c).
Proof.
  unfold joinAt, at_pos. intros H Hne.
  destruct (cell_at m i j) as [[n|]|]; simpl in H; [| |done].
  - destruct (join_spec _ _ _ _ H (Hne n eq_refl)) as (_ & _ & He). split.
    + intros p q Hpq. apply He. by left.
    + intros n' Hn'. simplify_eq. split; apply He; auto.
  - simplify_eq. split; [done|]. intros n Hn. done.
Qed.

Lemma joinAt_if_edges (P : Prop) `{!Decision P} m hp c i j hp2 :
  (if decide P then joinAt m hp c i j else Some hp) = Some hp2 ->
  (P -> forall n, at_pos m i j n -> c <> n) ->
  (forall p q, edge hp p q -> edge hp2 p q) /\
  (P -> forall n, at_pos m i j n -> edge hp2 c n /\ edge hp2 n c).
Proof.
  intros H Hne. case_decide as HP.
  - destruct (joinAt_edges _ _ _ _ _ _ H (Hne HP)). split; [done|auto].
  - simplify_eq. split; [done|]. intros. done.
Qed.

(** What [addCell] does to the grid, the heap and the keyset in the sweep. *)
Lemma addCell_effect m hp i j ch m2 hp2 :
  swept m hp i j ->
  addCell m (hp ++ [newCell ch]) i j (length hp) = Some (m2, hp2) ->
  (forall i' j' n, at_pos m2 i' j' n <->
     (i' = i /\ j' = j /\ n = length hp) \/ ((i' <> i \/ j' <> j) /\ at_pos m i' j' n)) /\
  keeps (hp ++ [newCell ch]) hp2 /\
  (forall p q, edge hp p q -> edge hp2 p q) /\
  (forall i' j' n, at_pos m i' j' n -> orthogonal i j i' j' ->
     edge hp2 (length hp) n /\ edge hp2 n (length hp)) /\
  maze.keys m2 = (if CellType.eqb (cell.cellType (newCell ch)) CellType.key
                  then plus (maze.keys m) ch else maze.keys m).
Proof.
  intros Hs H. pose proof H as H0.
  destruct Hs as [Hrows Hcols Hjn Hplaced Hbefore Hinj Hkeys Hsize].
  unfold addCell in H.
  destruct (set_cell_at m i j (length hp)) as [m1|] eqn:Hset; simpl in H; [|done].
  destruct (set_cell_at_spec _ _ _ _ _ Hset)
    as (Hw & Hh & Hk & Hlen & Hrl & _ & Hpos).
  set (c := length hp) in *. set (hp0 := hp ++ [newCell ch]) in *.
  assert (Hold : forall i' j' n, at_pos m i' j' n -> at_pos m1 i' j' n /\ n <> c).
  { intros i' j' n Hn. destruct (Hbefore _ _ _ Hn) as [[y Hy] Hlt]. split.
    - apply Hpos. right. split; [lia|done].
    - intros ->. apply lookup_lt_Some in Hy. unfold c in Hy. lia. }
  assert (Hne : forall i' j', (i' <> i \/ j' <> j) -> forall n, at_pos m1 i' j' n -> c <> n).
  { intros i' j' Hij n Hn. apply Hpos in Hn as [(-> & -> & _)|[_ Hn]]; [lia|].
    destruct (Hold _ _ _ Hn) as [_ ?]. congruence. }
  assert (F1 : at_pos m1 i j c) by (apply Hpos; auto).
  assert (F2 : forall i1 j1 i2 j2 n,
    at_pos m1 i1 j1 n -> at_pos m1 i2 j2 n -> i1 = i2 /\ j1 = j2).
  { intros i1 j1 i2 j2 n H1 H2.
    apply Hpos in H1 as [(-> & -> & ->)|[_ H1]]; apply Hpos in H2 as [(-> & -> & E)|[_ H2]];
      try done.
    - by destruct (Hold _ _ _ H2).
    - subst n. by destruct (Hold _ _ _ H1).
    - by eapply Hinj. }
  assert (F3 : joined m1 hp0).
  { destruct Hjn as [Ht Hsy Ho]. split.
    - intros p x Hp. unfold hp0 in Hp.
      apply lookup_app_Some in Hp as [Hp|[_ Hp]]; [by eapply Ht|].
      destruct (p - length hp)%nat; simpl in Hp; [|done]. by simplify_eq.
    - intros p q. unfold hp0. rewrite !edge_alloc by done. apply Hsy.
    - intros p q. unfold hp0. rewrite edge_alloc by done. intros He.
      destruct (Ho p q He) as (i1 & j1 & i2 & j2 & H1 & H2 & H3).
      exists i1, j1, i2, j2. split; [by apply Hold|]. split; [by apply Hold|done]. }
  destruct (if decide (0 < i)%nat then _ else _) as [hp1|] eqn:E1; simpl in H; [|done].
  destruct (joinAt_if _ _ _ _ i j _ _ _ E1 F3 F1) as [J1 K1];
    [unfold orthogonal; lia|exact F2|].
  destruct (joinAt_if_edges _ _ _ _ _ _ _ E1) as [M1 N1]; [intros ?; apply Hne; lia|].
  destruct (if decide (0 < j)%nat then _ else _) as [hp2'|] eqn:E2; simpl in H; [|done].
  destruct (joinAt_if _ _ _ _ i j _ _ _ E2 J1 F1) as [J2 K2];
    [unfold orthogonal; lia|exact F2|].
  destruct (joinAt_if_edges _ _ _ _ _ _ _ E2) as [M2 N2]; [intros ?; apply Hne; lia|].
  destruct (if decide (i + 1 < maze.h m1)%nat then _ else _) as [hp3|] eqn:E3;
    simpl in H; [|done].
  destruct (joinAt_if _ _ _ _ i j _ _ _ E3 J2 F1) as [J3 K3];
    [unfold orthogonal; lia|exact F2|].
  destruct (joinAt_if_edges _ _ _ _ _ _ _ E3) as [M3 N3]; [intros ?; apply Hne; lia|].
  destruct (if decide (j + 1 < maze.w m1)%nat then _ else _) as [hp4|] eqn:E4;
    simpl in H; [|done].
  destruct (joinAt_if _ _ _ _ i j _ _ _ E4 J3 F1) as [J4 K4];
    [unfold orthogonal; lia|exact F2|].
  destruct (joinAt_if_edges _ _ _ _ _ _ _ E4) as [M4 N4]; [intros ?; apply Hne; lia|].
  pose proof (keeps_trans _ _ _ (keeps_trans _ _ _ (keeps_trans _ _ _ K1 K2) K3) K4) as KK.
  destruct KK as [KL KC].
  assert (H0c : hp0 !! c = Some (newCell ch)).
  { unfold hp0, c. by rewrite lookup_app_r, Nat.sub_diag by lia. }
  destruct (KC c _ H0c) as (x & Hx & Hxc). simpl in Hxc.
  rewrite Hx in H. simpl in H.
  assert (Hty : cell.cellType x = cell.cellType (newCell ch)).
  { destruct (jn_typed _ _ J4 _ _ Hx) as [-> _]. by rewrite Hxc. }
  assert (Hm2 : maze.rows m2 = maze.rows m1 /\ hp2 = hp4 /\
    maze.keys m2 = (if CellType.eqb (cell.cellType (newCell ch)) CellType.key
                    then plus (maze.keys m) ch else maze.keys m)).
  { rewrite <- Hty. destruct (CellType.eqb _ _); simplify_eq; simpl; rewrite ?Hxc, ?Hk; done. }
  destruct Hm2 as (Hr2 & -> & Hk2).
  split; [|split; [|split; [|split]]].
  - intros i' j' n. rewrite (at_pos_rows m2 m1) by done. apply Hpos.
  - by split.
  - intros p q Hpq. apply M4, M3, M2, M1. unfold hp0. by apply edge_alloc.
  - intros i' j' n Hn Horth. destruct (Hbefore _ _ _ Hn) as [_ Hlt].
    destruct (Hold _ _ _ Hn) as [Hn1 _].
    assert (Hcase : (0 < i /\ i' = i - 1 /\ j' = j)%nat \/ (0 < j /\ i' = i /\ j' = j - 1)%nat).
    { unfold orthogonal in Horth. lia. }
    destruct Hcase as [(Hi & -> & ->)|(Hj & -> & ->)].
    + destruct (N1 Hi n Hn1) as [Ha Hb]. split; by apply M4, M3, M2.
    + destruct (N2 Hj n Hn1) as [Ha Hb]. split; by apply M4, M3.
  - done.
Qed.

Lemma parsed_skip rows m hp i j :
  parsed rows m hp i j -> char_at rows i j = Some "#"%char \/ char_at rows i j = None ->
  parsed rows m hp i (S j).
Proof.
  intros [Hc Hch Ha Hr Hk] Hw. split; try done.
  intros i' j' ch Hb Hg Hne.
  destruct (decide (i' = i /\ j' = j)) as [[-> ->]|Hd]; [|apply (Hch i' j' ch); [lia|done..]].
  destruct Hw as [Hw|Hw]; rewrite Hw in Hg; by simplify_eq.
Qed.

Lemma readRow_parsed rows row : forall i j m hp m' hp',
  swept m hp i j -> parsed rows m hp i j ->
  (forall k, String.get k row = char_at rows i (j + k)) ->
  readRow i j row m hp = Some (m', hp') ->
  parsed rows m' hp' i (j + String.length row).
Proof.
  induction row as [|ch row IH]; simpl; intros i j m hp m' hp' Hs Hp Hrow H.
  - simplify_eq. by rewrite Nat.add_0_r.
  - assert (Hch : char_at rows i j = Some ch).
    { rewrite <- (Nat.add_0_r j) at 1. by rewrite <- Hrow. }
    assert (Hrow' : forall k, String.get k row = char_at rows i (S j + k)).
    { intros k. replace (S j + k)%nat with (j + S k)%nat by lia. by rewrite <- Hrow. }
    replace (j + S (String.length row))%nat with (S j + String.length row)%nat by lia.
    destruct (Ascii.eqb_spec ch "#") as [->|Hne].
    + simpl in H. apply (IH i (S j) m hp); [|by apply parsed_skip; auto|done|done].
      destruct Hs as [Hrows Hcols Hjn Hplaced Hbefore Hinj Hkeys Hsize]. split; try done.
      * intros i' j' c Hc. destruct (Hbefore _ _ _ Hc). split; [done|lia].
      * lia.
    + destruct (addCell _ _ _ _ _) as [[m1 hp1]|] eqn:Ha; simpl in H; [|done].
      destruct (addCell_swept _ _ _ _ _ _ _ Hs Ha) as [Hs1 _].
      apply (IH i (S j) m1 hp1); [done| |done|done].
      destruct (addCell_effect _ _ _ _ _ _ _ Hs Ha) as (Hpos & [KL KC] & Hmono & Hnew & Hk2).
      destruct Hp as [Pc Pch Pa Pr Pk].
      assert (Hnewc : exists x, hp1 !! length hp = Some x /\ cell.char x = ch).
      { apply (KC (length hp) (newCell ch)). by rewrite lookup_app_r, Nat.sub_diag by lia. }
      assert (Hlift : forall p x, hp !! p = Some x ->
        exists x', hp1 !! p = Some x' /\ cell.char x' = cell.char x).
      { intros p x Hx. apply KC. by apply lookup_app_l_Some. }
      split.
      * intros i' j' c Hc. apply Hpos in Hc as [(-> & -> & ->)|[_ Hc]].
        -- destruct Hnewc as (x & Hx & Hxc). exists x. rewrite Hxc. done.
        -- destruct (Pc _ _ _ Hc) as (x & Hx & Hg & Hnx).
           destruct (Hlift _ _ Hx) as (x' & Hx' & Hc'). exists x'. rewrite Hc'. done.
      * intros i' j' ch' Hb Hg Hne'.
        destruct (decide (i' = i /\ j' = j)) as [[-> ->]|Hd].
        -- exists (length hp). apply Hpos. auto.
        -- destruct (Pch i' j' ch') as [c Hc]; [lia|done|done|].
           exists c. apply Hpos. right. split; [lia|done].
      * intros i1 j1 i2 j2 p q H1 H2 Ho.
        apply Hpos in H1 as [(-> & -> & ->)|[Hd1 H1]];
          apply Hpos in H2 as [(-> & -> & ->)|[Hd2 H2]].
        -- unfold orthogonal in Ho. lia.
        -- by apply (Hnew i2 j2 q).
        -- apply (Hnew i1 j1 p); [done|]. unfold orthogonal in *. lia.
        -- apply Hmono. by apply (Pa i1 j1 i2 j2).
      * rewrite Hk2. destruct (CellType.eqb _ _) eqn:Hty; [|done].
        apply plus_letters; [done|]. apply newCell_key.
        by destruct (cell.cellType (newCell ch)).
      * intros c Hc. rewrite Hk2. destruct (CellType.eqb _ _) eqn:Hty.
        -- assert (Hl : lowercase ch).
           { apply newCell_key. by destruct (cell.cellType (newCell ch)). }
           destruct (decide (c = ch)) as [->|Hcc].
           ++ intros _. destruct Hnewc as (x & Hx & Hxc). by exists (length hp), x.
           ++ rewrite contains_plus_other by done. intros Hin.
              destruct (Pk c Hc Hin) as (p & x & Hx & Hxc).
              destruct (Hlift _ _ Hx) as (x' & Hx' & Hc'). exists p, x'. split; congruence.
        -- intros Hin. destruct (Pk c Hc Hin) as (p & x & Hx & Hxc).
           destruct (Hlift _ _ Hx) as (x' & Hx' & Hc'). exists p, x'. split; congruence.
Qed.

Lemma parsed_next_row rows m hp i row :
  rows !! i = Some row -> parsed rows m hp i (String.length row) -> parsed rows m hp (S i) 0.
Proof.
  intros Hrow [Hc Hch Ha Hr Hk]. split; try done.
  intros i' j' ch Hb Hg Hne. apply (Hch i' j' ch); [|done|done].
  destruct (decide (i' = i)) as [->|]; [|lia]. right. split; [done|].
  unfold char_at in Hg. rewrite Hrow in Hg. simpl in Hg.
  clear -Hg. revert j' Hg. induction row as [|a row IH]; intros [|j'] Hg; simpl in *;
    try done; [lia|]. apply IH in Hg. lia.
Qed.

Lemma readRows_parsed all rows : forall i m hp m' hp',
  swept m hp i 0 -> parsed all m hp i 0 ->
  (forall k, rows !! k = all !! (i + k)%nat) ->
  readRows i rows m hp = Some (m', hp') ->
  parsed all m' hp' (i + length rows) 0.
Proof.
  induction rows as [|row rows IH]; simpl; intros i m hp m' hp' Hs Hp Hrows H.
  - simplify_eq. by rewrite Nat.add_0_r.
  - destruct (readRow i 0 row m hp) as [[m1 hp1]|] eqn:Hr; simpl in H; [|done].
    assert (Hrow : all !! i = Some row).
    { rewrite <- (Nat.add_0_r i). by rewrite <- Hrows. }
    destruct (readRow_swept _ _ _ _ _ _ _ Hs Hr) as (Hs1 & _ & _).
    apply swept_next_row in Hs1.
    assert (Hget : forall k, String.get k row = char_at all i (0 + k)).
    { intros k. unfold char_at. by rewrite Hrow. }
    pose proof (readRow_parsed all row i 0%nat m hp m1 hp1 Hs Hp Hget Hr) as Hp1.
    simpl in Hp1. apply (parsed_next_row _ _ _ _ _ Hrow) in Hp1.
    replace (i + S (length rows))%nat with (S i + length rows)%nat by lia.
    apply (IH (S i) m1 hp1); [done|done| |done].
    intros k. replace (S i + k)%nat with (i + S k)%nat by lia. by rewrite <- Hrows.
Qed.

Lemma newMaze_parsed rows w h m : newMaze w h = Some m -> parsed rows m [] 0 0.
Proof.
  unfold newMaze. destruct (Z.ltb_spec (Z.of_nat w * Z.of_nat h) (2 ^ 63)); [|done].
  intros ?. simplify_eq.
  assert (Hno : forall i j c, ~ at_pos (maze.mk w h (replicate h (replicate w None)) 0) i j c).
  { unfold at_pos, cell_at. simpl. intros i j c Hc.
    destruct (replicate h (replicate w None) !! i) as [row|] eqn:Hrow; simpl in Hc; [|done].
    apply lookup_replicate in Hrow as [-> _].
    apply lookup_replicate in Hc as [? _]. done. }
  split; simpl.
  - intros i j c Hc. by apply Hno in Hc.
  - intros i j ch Hb. lia.
  - intros i1 j1 i2 j2 p q Hc. by apply Hno in Hc.
  - lia.
  - intros c _ Hc. by rewrite contains_0 in Hc.
Qed.

(** The sweep of [readMaze], before the paths are built. *)
Lemma readMaze_parsed rows m hp :
  readMaze rows = Some (m, hp) ->
  exists hp1, strip hp1 = strip hp /\ swept m hp1 (length rows) 0 /\
    parsed rows m hp1 (length rows) 0.
Proof.
  unfold readMaze. intros H.
  destruct (head rows) as [r0|]; simpl in H; [|done].
  destruct (newMaze _ _) as [m0|] eqn:Hn; simpl in H; [|done].
  destruct (readRows 0 rows m0 []) as [[m1 hp1]|] eqn:Hr; simpl in H; [|done].
  destruct (buildPaths m1 hp1) as [hp2|] eqn:Hb; simpl in H; [|done]. simplify_eq.
  destruct (newMaze_swept _ _ _ Hn) as (Hs0 & Hw & Hh & Hwh).
  destruct (readRows_swept _ _ _ _ _ _ Hs0 Hr) as (Hs1 & Hw1 & Hh1).
  pose proof (readRows_parsed rows rows 0 _ _ _ _ Hs0 (newMaze_parsed rows _ _ _ Hn)
                (fun k => eq_refl) Hr) as Hp1.
  simpl in Hs1, Hp1. exists hp1. split; [|done].
  unfold buildPaths in Hb. destruct Hs1 as [_ _ [Ht _ _] _ _ _ _ _].
  destruct (buildPathsRows_spec hp1 _ _ _ Hb) as ([Hs _] & _).
  { split; [done|]. intros c x Hx. left. by apply (Ht c x). }
  done.
Qed.

(** X8: the cells of the maze are the characters of the input other than
    ['#']: [readMaze] puts a cell at every position that holds such a
    character, with that character and the type [newCell] gives it, and a
    cell at no other position. *)
Theorem readMaze_grid rows m hp :
  ascii_rows rows = true ->
  readMaze rows = Some (m, hp) ->
  (forall i j ch, char_at rows i j = Some ch -> ch <> "#"%char ->
     exists c x, at_pos m i j c /\ hp !! c = Some x /\ cell.char x = ch /\
       cell.cellType x = cell.cellType (newCell ch)) /\
  (forall i j c, at_pos m i j c ->
     exists ch, char_at rows i j = Some ch /\ ch <> "#"%char).
Proof.
  intros _ H. destruct (readMaze_parsed _ _ _ H) as (hp1 & Hs & Hsw & Hp).
  pose proof (readMaze_ok _ _ _ H) as Hok. split.
  - intros i j ch Hg Hne.
    assert (Hi : (i < length rows)%nat).
    { unfold char_at in Hg. destruct (rows !! i) eqn:E; [|done]. by eapply lookup_lt_Some. }
    destruct (pa_char _ _ _ _ _ Hp i j ch) as [c Hc]; [lia|done|done|].
    destruct (pa_cell _ _ _ _ _ Hp _ _ _ Hc) as (x1 & Hx1 & Hg1 & _).
    pose proof (strip_lookup hp1 hp c Hs) as Hl. rewrite Hx1 in Hl.
    destruct (hp !! c) as [x|] eqn:Hx; [|done]. destruct Hl as (Hch & _ & _).
    assert (cell.char x = ch) as Hxc by congruence.
    exists c, x. split; [done|]. split; [done|]. split; [done|].
    rewrite <- Hxc. by apply (ok_typed _ _ Hok c).
  - intros i j c Hc. destruct (pa_cell _ _ _ _ _ Hp _ _ _ Hc) as (x1 & _ & Hg & Hne).
    by exists (cell.char x1).
Qed.

Lemma readMaze_grid_witness :
  (forall i j ch, char_at maze1 i j = Some ch -> ch <> "#"%char ->
     exists c x, at_pos scenario1_maze i j c /\ scenario1_heap !! c = Some x /\
       cell.char x = ch /\ cell.cellType x = cell.cellType (newCell ch)) /\
  (forall i j c, at_pos scenario1_maze i j c ->
     exists ch, char_at maze1 i j = Some ch /\ ch <> "#"%char).
Proof.
  apply (readMaze_grid maze1 scenario1_maze scenario1_heap).
  - vm_compute. reflexivity.
  - vm_compute. reflexivity.
Defined.

(** X9: cells at grid positions one row or one column apart are adjacent:
    with the converse of the adjacency claim, the adjacency lists of
    [readMaze] hold the orthogonal neighbours and nothing else. *)
Theorem adjacency_complete rows m hp i1 j1 i2 j2 p q :
  ascii_rows rows = true ->
  readMaze rows = Some (m, hp) ->
  at_pos m i1 j1 p -> at_pos m i2 j2 q -> orthogonal i1 j1 i2 j2 ->
  edge hp p q.
Proof.
  intros _ H H1 H2 Ho. destruct (readMaze_parsed _ _ _ H) as (hp1 & Hs & _ & Hp).
  apply (edge_strip hp1 hp); [done|]. by apply (pa_adj _ _ _ _ _ Hp i1 j1 i2 j2).
Qed.

Lemma adjacency_complete_witness : edge scenario1_heap 3 4.
Proof.
  apply (adjacency_complete maze1 scenario1_maze scenario1_heap 1 4 1 5 3 4).
  - vm_compute. reflexivity.
  - vm_compute. reflexivity.
  - vm_compute. reflexivity.
  - vm_compute. reflexivity.
  - unfold orthogonal. lia.
Defined.

(** X10: the keyset of the maze holds the lower-case letters that are on a
    cell of the maze and nothing else; it is below [2 ^ 26]. *)
Theorem maze_keys_exact rows m hp c :
  ascii_rows rows = true ->
  readMaze rows = Some (m, hp) ->
  0 <= maze.keys m < 2 ^ 26 /\
  (contains (maze.keys m) c = true <->
   lowercase c /\ exists p x, hp !! p = Some x /\ cell.char x = c).
Proof.
  intros _ H. destruct (readMaze_parsed _ _ _ H) as (hp1 & Hs & _ & Hp).
  pose proof (readMaze_ok _ _ _ H) as Hok.
  pose proof (pa_keys_range _ _ _ _ _ Hp) as Hr. split; [done|]. split.
  - intros Hin.
    assert (Hl : lowercase c).
    { rewrite contains_testbit in Hin. pose proof (byte_sub_nonneg c "a") as Hn.
      destruct (Z.lt_ge_cases (byte_sub c "a") 26) as [Hlt|Hge].
      - pose proof (byte_val_range c) as Hv. unfold byte_sub in *.
        change (byte_val "a") with 97 in *. unfold lowercase.
        destruct (Z.lt_ge_cases (byte_val c) 97) as [Hc|Hc]; [exfalso|].
        + replace (byte_val c - 97) with (byte_val c + 159 + -1 * 256) in Hlt by lia.
          rewrite Z.mod_add in Hlt by lia. rewrite Z.mod_small in Hlt; lia.
        + rewrite Z.mod_small in Hlt; lia.
      - rewrite low_bits_only in Hin; [done|done|lia]. }
    split; [done|]. destruct (pa_keys _ _ _ _ _ Hp c Hl Hin) as (p & x1 & Hx1 & Hc1).
    pose proof (strip_lookup hp1 hp p Hs) as Hlk. rewrite Hx1 in Hlk.
    destruct (hp !! p) as [x|] eqn:Hx; [|done]. destruct Hlk as (Hch & _ & _).
    exists p, x. split; [done|congruence].
  - intros (Hl & p & x & Hx & Hc). rewrite <- Hc. apply (ok_keys _ _ Hok p x Hx).
    rewrite (ok_typed _ _ Hok p x Hx). apply newCell_key. by rewrite Hc.
Qed.

Lemma maze_keys_exact_witness :
  0 <= maze.keys scenario1_maze < 2 ^ 26 /\
  (contains (maze.keys scenario1_maze) "b" = true <->
   lowercase "b" /\ exists p x, scenario1_heap !! p = Some x /\ cell.char x = "b"%char).
Proof.
  apply (maze_keys_exact maze1 scenario1_maze scenario1_heap "b"%char).
  - vm_compute. reflexivity.
  - vm_compute. reflexivity.
Defined.

(** ** The paths of a cell *)

Lemma lookup_StronglySorted {A} (R : relation A) (l : list A) :
  (forall k1 k2 x y, (k1 < k2)%nat -> l !! k1 = Some x -> l !! k2 = Some y -> R x y) ->
  StronglySorted R l.
Proof.
  induction l as [|a l IH]; intros H; constructor.
  - apply IH. intros k1 k2 x y Hk H1 H2. apply (H (S k1) (S k2)); [lia|done|done].
  - apply Forall_forall. intros y Hy. apply list_elem_of_lookup in Hy as [k Hk].
    apply (H 0%nat (S k)); [lia|done|done].
Qed.

Lemma sublist_StronglySorted {A} (R : relation A) (l1 l2 : list A) :
  l1 `sublist_of` l2 -> StronglySorted R l2 -> StronglySorted R l1.
Proof.
  induction 1 as [|x l1 l2 Hs IH|x l1 l2 Hs IH]; intros H.
  - constructor.
  - apply StronglySorted_inv in H as [H1 H2]. constructor; [by apply IH|].
    apply Forall_forall. intros y Hy. rewrite Forall_forall in H2.
    apply H2. by eapply elem_of_sublist.
  - apply StronglySorted_inv in H as [H1 _]. by apply IH.
Qed.

(** X11: in a maze read by [readMaze], [findPaths] from a cell returns one
    path for every key cell that can be reached from it and for no other
    cell, never two paths to one cell; the length of a path is the least
    number of hops to its cell, and the paths come in the order of their
    lengths. *)
Theorem findPaths_shortest rows m hp c :
  ascii_rows rows = true ->
  readMaze rows = Some (m, hp) ->
  valid hp c ->
  exists ps, findPaths hp c = Some ps /\
    (forall p, p ∈ ps ->
       (exists x, hp !! path.dest p = Some x /\ cell.cellType x = CellType.key) /\
       0 <= path.len p /\ distance hp c (path.dest p) (Z.to_nat (path.len p))) /\
    (forall k x, reachable hp c k -> hp !! k = Some x -> cell.cellType x = CellType.key ->
       exists p, p ∈ ps /\ path.dest p = k) /\
    NoDup (path.dest <$> ps) /\
    by_length ps.
Proof.
  intros _ Hm Hc. apply readMaze_ok in Hm.
  destruct (maze_ok_findPaths m hp c Hm Hc) as (seen & dn & Hf & Hi).
  eexists. split; [exact Hf|]. split; [|split; [|split]].
  - intros p Hp. apply list_elem_of_filter in Hp as [Hk Hp].
    split; [by apply key_dest_true|]. by eapply bfs_inv_distance.
  - intros k x [n Hw] Hx Hty.
    destruct (bfs_inv_complete _ _ _ _ Hi _ _ Hw) as (p & Hp & Hd & _).
    exists p. split; [|done]. apply list_elem_of_filter. split; [|done].
    unfold key_dest. rewrite Hd, Hx, Hty. done.
  - pose proof (bi_nodup _ _ _ _ _ Hi) as Hnd. rewrite app_nil_r in Hnd.
    eapply sublist_NoDup; [exact Hnd|]. apply fmap_sublist, sublist_filter.
  - apply (sublist_StronglySorted _ _ dn); [apply sublist_filter|].
    apply lookup_StronglySorted. intros k1 k2 p1 p2 Hk H1 H2.
    apply (bi_sorted _ _ _ _ _ Hi k1 k2); [lia|by rewrite app_nil_r..].
Qed.

Lemma findPaths_shortest_witness :
  exists ps, findPaths scenario1_heap 4 = Some ps /\
    (forall p, p ∈ ps ->
       (exists x, scenario1_heap !! path.dest p = Some x /\
          cell.cellType x = CellType.key) /\
       0 <= path.len p /\
       distance scenario1_heap 4 (path.dest p) (Z.to_nat (path.len p))) /\
    (forall k x, reachable scenario1_heap 4 k -> scenario1_heap !! k = Some x ->
       cell.cellType x = CellType.key -> exists p, p ∈ ps /\ path.dest p = k) /\
    NoDup (path.dest <$> ps) /\
    by_length ps.
Proof.
  apply (findPaths_shortest maze1 scenario1_maze scenario1_heap 4%nat).
  - vm_compute. reflexivity.
  - vm_compute. reflexivity.
  - eexists. reflexivity.
Defined.

(** X12: after [readMaze] the path list of every start cell and every key
    cell is what [findPaths] returns from that cell in the finished maze,
    and every other cell has no paths. *)
Theorem buildPaths_paths rows m hp c x :
  ascii_rows rows = true ->
  readMaze rows = Some (m, hp) ->
  hp !! c = Some x ->
  if CellType.eqb (cell.cellType x) CellType.key
     || CellType.eqb (cell.cellType x) CellType.start
  then findPaths hp c = Some (cell.paths x)
  else cell.paths x = [].
Proof.
  intros _ Hm Hx. apply readMaze_ok in Hm. apply (ok_paths _ _ Hm c x Hx).
Qed.

Lemma buildPaths_paths_witness :
  findPaths scenario1_heap 6 = Some (cell.paths scenario1_key_a).
Proof.
  apply (buildPaths_paths maze1 scenario1_maze scenario1_heap 6%nat scenario1_key_a).
  - vm_compute. reflexivity.
  - vm_compute. reflexivity.
  - reflexivity.
Defined.

(** ** The keys a path requires *)

(** The paths of the search are routes: [reqKeys] holds the doors entered
    on a walk of [len] hops. *)
Lemma bfsLoop_route hp c :
  (forall p q, edge hp p q -> valid hp q) ->
  Z.of_nat (length hp) < 2 ^ 63 ->
  forall n seen dn q,
    bfs_inv hp c seen dn q ->
    (length hp < n + length dn)%nat ->
    Forall (fun p => route hp c (path.dest p) (Z.to_nat (path.len p)) (path.reqKeys p))
      (dn ++ q) ->
    exists dn',
      bfsLoop n hp seen q (filter (fun p => key_dest hp p = true) dn)
        = Some (filter (fun p => key_dest hp p = true) dn') /\
      Forall (fun p => route hp c (path.dest p) (Z.to_nat (path.len p)) (path.reqKeys p)) dn'.
Proof.
  intros Hadj Hsize. induction n as [|n IH]; intros seen dn q Hi Hn HR.
  - pose proof (bfs_inv_length _ _ _ _ _ Hi) as HL. rewrite length_app in HL.
    destruct q as [|cur q]; simpl in *; [|lia].
    exists dn. by rewrite app_nil_r in HR.
  - destruct q as [|cur q]; simpl.
    { exists dn. by rewrite app_nil_r in HR. }
    destruct (bi_valid _ _ _ _ _ Hi cur) as [d Hd].
    { apply elem_of_app. right. by left. }
    rewrite Hd. simpl.
    destruct (bfs_round hp c seen dn cur q d Hadj Hsize Hi Hd) as (seen' & new & Hv & Hi').
    destruct (visitAdj_spec hp cur (cell.adj d) seen (cur :: q))
      as (new' & Hv' & _ & Hnew & _ & Hlen).
    { intros a Ha. apply (Hadj (path.dest cur)). by exists d. }
    assert (new' = new) as ->.
    { rewrite Hv in Hv'. injection Hv' as _ Hq. by apply app_inv_head in Hq. }
    rewrite Hv. simpl.
    assert (Hp : (if CellType.eqb (cell.cellType d) CellType.key
                  then filter (fun p => key_dest hp p = true) dn ++ [cur]
                  else filter (fun p => key_dest hp p = true) dn)
                 = filter (fun p => key_dest hp p = true) (dn ++ [cur])).
    { rewrite filter_app. rewrite filter_cons, filter_nil.
      rewrite (key_dest_spec hp cur d Hd).
      destruct (CellType.eqb _ _).
      - by rewrite decide_True.
      - rewrite decide_False by done. by rewrite app_nil_r. }
    rewrite Hp.
    apply (IH seen' (dn ++ [cur]) (q ++ new) Hi'); [rewrite length_app; simpl; lia|].
    replace ((dn ++ [cur]) ++ q ++ new) with ((dn ++ cur :: q) ++ new)
      by (by rewrite <- !app_assoc).
    apply Forall_app. split; [done|].
    assert (Hcur : cur ∈ dn ++ cur :: q) by (apply elem_of_app; right; by left).
    rewrite Forall_forall in HR. pose proof (HR cur Hcur) as Rcur.
    destruct (bi_walk _ _ _ _ _ Hi cur Hcur) as [H0 _].
    assert (Hlt : path.len cur < Z.of_nat (length hp)).
    { apply list_elem_of_lookup in Hcur as [k Hk].
      pose proof (bi_index _ _ _ _ _ Hi k cur Hk) as Hle.
      apply lookup_lt_Some in Hk. pose proof (bfs_inv_length _ _ _ _ _ Hi). lia. }
    apply Forall_forall. intros p Hp'.
    destruct (Hlen p Hp') as (Hl & x & Hx & Hk).
    rewrite int_add_small in Hl by lia.
    rewrite Hl, Hk. replace (Z.to_nat (path.len cur + 1)) with (S (Z.to_nat (path.len cur)))
      by lia.
    apply (route_step hp c (path.dest cur)); [done| |done].
    exists d. split; [done|]. apply (Hnew (path.dest p)).
    apply list_elem_of_fmap. by exists p.
Qed.

Lemma newCell_door char :
  cell.cellType (newCell char) = CellType.door -> 65 <= byte_val char <= 90.
Proof.
  unfold newCell, leb_ascii. simpl.
  change (byte_val "a") with 97. change (byte_val "z") with 122.
  change (byte_val "A") with 65. change (byte_val "Z") with 90.
  destruct (Ascii.eqb char "@"); [done|].
  destruct (Z.leb_spec 97 (byte_val char)), (Z.leb_spec (byte_val char) 122); simpl;
    try done;
    destruct (Z.leb_spec 65 (byte_val char)), (Z.leb_spec (byte_val char) 90); simpl;
    try done; lia.
Qed.

(** [char | 32] turns an upper-case letter into the lower-case one. *)
Lemma byte_or_upper c :
  65 <= byte_val c <= 90 -> byte_val (byte_or c 32) = byte_val c + 32.
Proof.
  intros H. unfold byte_or.
  assert (Hor : Z.lor (byte_val c) 32 = byte_val c + 32).
  { assert (Hc : exists n : nat, (n < 26)%nat /\ byte_val c = 65 + Z.of_nat n).
    { exists (Z.to_nat (byte_val c - 65)). lia. }
    destruct Hc as (n & Hn & ->).
    do 26 (destruct n as [|n]; [reflexivity|]). lia. }
  rewrite Hor. unfold byte_val at 1, byte_of. rewrite Z.mod_small by lia.
  rewrite N_ascii_embedding; lia.
Qed.

Lemma route_reqKeys m hp c e n ks :
  maze_ok m hp -> route hp c e n ks -> walk hp c e n /\ 0 <= ks < 2 ^ 26.
Proof.
  intros Hok. induction 1 as [|d e n ks x Hr [Hw IH] He Hx].
  - split; [constructor|lia].
  - split; [by econstructor|].
    destruct (CellType.eqb (cell.cellType x) CellType.door) eqn:Hty; [|done].
    apply plus_letters; [done|].
    assert (Hd : cell.cellType (newCell (cell.char x)) = CellType.door).
    { rewrite <- (ok_typed _ _ Hok e x Hx). by destruct (cell.cellType x). }
    apply newCell_door in Hd. unfold lowercase. rewrite byte_or_upper by done. lia.
Qed.

(** X13: in a maze read by [readMaze], every path of [findPaths] comes
    with a walk of [len] hops from the origin to its cell such that
    [reqKeys] holds the lower-cased letters of the doors the walk enters,
    and nothing else; [reqKeys] is below [2 ^ 26]. *)
Theorem findPaths_reqKeys rows m hp c ps p :
  ascii_rows rows = true ->
  readMaze rows = Some (m, hp) ->
  findPaths hp c = Some ps -> p ∈ ps ->
  route hp c (path.dest p) (Z.to_nat (path.len p)) (path.reqKeys p) /\
  0 <= path.reqKeys p < 2 ^ 26.
Proof.
  intros _ Hm Hf Hp. apply readMaze_ok in Hm.
  assert (Hadj : forall p q, edge hp p q -> valid hp q).
  { intros a b. by apply (maze_ok_adj m). }
  assert (Hc : valid hp c).
  { unfold findPaths in Hf. simpl in Hf. destruct (hp !! c) eqn:E; [by eexists|done]. }
  destruct (bfsLoop_route hp c Hadj (ok_size _ _ Hm) (S (length hp)) {[c]} []
              [path.mk 0 c 0]) as (dn & Hb & HR);
    [by apply bfs_inv_init|simpl; lia|repeat constructor|].
  rewrite filter_nil in Hb. unfold findPaths in Hf. rewrite Hb in Hf. simplify_eq.
  apply list_elem_of_filter in Hp as [_ Hp]. rewrite Forall_forall in HR.
  pose proof (HR p Hp) as Hr. split; [done|].
  by destruct (route_reqKeys m hp _ _ _ _ Hm Hr).
Qed.

Lemma findPaths_reqKeys_witness :
  route scenario1_heap 4 (path.dest (path.mk 4 0 1)) (Z.to_nat (path.len (path.mk 4 0 1)))
    (path.reqKeys (path.mk 4 0 1)) /\
  0 <= path.reqKeys (path.mk 4 0 1) < 2 ^ 26.
Proof.
  apply (findPaths_reqKeys maze1 scenario1_maze scenario1_heap 4%nat
           [path.mk 2 6 0; path.mk 4 0 1] (path.mk 4 0 1)).
  - vm_compute. reflexivity.
  - vm_compute. reflexivity.
  - vm_compute. reflexivity.
  - right. left.
Defined.

(** ** The start cells in the grid *)

Lemma startRow_filter hp row : forall acc,
  (forall c, Some c ∈ row -> valid hp c) ->
  startRow hp row acc = Some (acc ++ filter (fun c => is_start hp c = true) (omap id row)).
Proof.
  induction row as [|slot row IH]; simpl; intros acc Hv.
  - by rewrite app_nil_r.
  - assert (Hv' : forall c, Some c ∈ row -> valid hp c) by (intros; apply Hv; by right).
    destruct slot as [c|]; simpl; [|by apply IH].
    destruct (Hv c) as [x Hx]; [by left|]. rewrite Hx. simpl.
    rewrite filter_cons.
    assert (Hs : is_start hp c = CellType.eqb (cell.cellType x) CellType.start).
    { unfold is_start. by rewrite Hx. }
    destruct (CellType.eqb (cell.cellType x) CellType.start).
    + rewrite decide_True by done. rewrite IH by done. by rewrite <- app_assoc.
    + rewrite decide_False by (rewrite Hs; done). by apply IH.
Qed.

Lemma startRows_filter hp rows : forall acc,
  (forall row c, row ∈ rows -> Some c ∈ row -> valid hp c) ->
  startRows hp rows acc
    = Some (acc ++ filter (fun c => is_start hp c = true) (omap id (mjoin rows))).
Proof.
  induction rows as [|row rows IH]; simpl; intros acc Hv.
  - by rewrite app_nil_r.
  - rewrite startRow_filter by (intros c Hc; apply (Hv row); [by left|done]).
    simpl. rewrite IH by (intros r c Hr Hc; apply (Hv r); [by right|done]).
    by rewrite omap_app, filter_app, app_assoc.
Qed.

Lemma elem_of_grid_cells m c : c ∈ grid_cells m <-> exists i j, at_pos m i j c.
Proof.
  unfold grid_cells, at_pos, cell_at. rewrite list_elem_of_omap. split.
  - intros ([c'|] & Hin & Hc); simpl in Hc; [|done]. simplify_eq.
    apply list_elem_of_join in Hin as (row & Hin & Hrow).
    apply list_elem_of_lookup in Hrow as [i Hi]. apply list_elem_of_lookup in Hin as [j Hj].
    exists i, j. rewrite Hi. done.
  - intros (i & j & H). destruct (maze.rows m !! i) as [row|] eqn:Hrow; simpl in H; [|done].
    exists (Some c). split; [|done]. apply list_elem_of_join. exists row.
    split; by eapply list_elem_of_lookup_2.
Qed.

Lemma NoDup_row (row : list (option ptr)) :
  (forall j1 j2 c, row !! j1 = Some (Some c) -> row !! j2 = Some (Some c) -> j1 = j2) ->
  NoDup (omap id row).
Proof.
  induction row as [|slot row IH]; intros H; [constructor|].
  assert (IH' : NoDup (omap id row)).
  { apply IH. intros j1 j2 c H1 H2. assert (S j1 = S j2); [|lia]. by apply (H _ _ c). }
  destruct slot as [c|]; simpl; [|done]. constructor; [|done].
  intros Hin. apply list_elem_of_omap in Hin as ([c'|] & Hin & Hc); simpl in Hc; [|done].
  simplify_eq. apply list_elem_of_lookup in Hin as [j Hj].
  by specialize (H 0%nat (S j) c eq_refl Hj).
Qed.

Lemma NoDup_grid (rows : list (list (option ptr))) :
  (forall i1 j1 i2 j2 c,
     (rows !! i1 ≫= (.!! j1)) = Some (Some c) -> (rows !! i2 ≫= (.!! j2)) = Some (Some c) ->
     i1 = i2 /\ j1 = j2) ->
  NoDup (omap id (mjoin rows)).
Proof.
  induction rows as [|row rows IH]; intros H; [constructor|].
  simpl. rewrite omap_app. apply NoDup_app. split; [|split].
  - apply NoDup_row. intros j1 j2 c H1 H2.
    destruct (H 0%nat j1 0%nat j2 c); simpl; done.
  - intros c Hc Hin.
    apply list_elem_of_omap in Hc as ([c'|] & Hc & E); simpl in E; [|done]. simplify_eq.
    apply list_elem_of_omap in Hin as ([c'|] & Hin & E); simpl in E; [|done]. simplify_eq.
    apply list_elem_of_join in Hin as (r & Hin & Hr).
    apply list_elem_of_lookup in Hc as [j1 Hj1].
    apply list_elem_of_lookup in Hr as [i Hi]. apply list_elem_of_lookup in Hin as [j2 Hj2].
    destruct (H 0%nat j1 (S i) j2 c); simpl; [done|by rewrite Hi|done].
  - apply IH. intros i1 j1 i2 j2 c H1 H2.
    destruct (H (S i1) j1 (S i2) j2 c); simpl; [done|done|]. split; [lia|done].
Qed.

Lemma newCell_start char :
  cell.cellType (newCell char) = CellType.start <-> char = "@"%char.
Proof.
  unfold newCell. simpl. destruct (Ascii.eqb_spec char "@") as [->|Hne]; [done|].
  split; [|done].
  destruct (leb_ascii "a" char && leb_ascii char "z"); [done|].
  by destruct (leb_ascii "A" char && leb_ascii char "Z").
Qed.

(** X14: in a maze read by [readMaze], [start] returns the start cells of
    the grid in row-major order, each once: they are the cells at the
    positions of the input that hold ['@']. *)
Theorem start_cells rows m hp :
  ascii_rows rows = true ->
  readMaze rows = Some (m, hp) ->
  start m hp = Some (filter (fun c => is_start hp c = true) (grid_cells m)) /\
  NoDup (filter (fun c => is_start hp c = true) (grid_cells m)) /\
  forall c, c ∈ filter (fun c => is_start hp c = true) (grid_cells m) <->
    exists i j, at_pos m i j c /\ char_at rows i j = Some "@"%char.
Proof.
  intros _ H. destruct (readMaze_parsed _ _ _ H) as (hp1 & Hs & _ & Hp).
  pose proof (readMaze_ok _ _ _ H) as Hok.
  assert (Hchar : forall i j c, at_pos m i j c ->
    exists x, hp !! c = Some x /\ char_at rows i j = Some (cell.char x)).
  { intros i j c Hc. destruct (pa_cell _ _ _ _ _ Hp _ _ _ Hc) as (x1 & Hx1 & Hg & _).
    pose proof (strip_lookup hp1 hp c Hs) as Hl. rewrite Hx1 in Hl.
    destruct (hp !! c) as [x|] eqn:Hx; [|done]. destruct Hl as (Hch & _ & _).
    exists x. split; [done|]. by rewrite <- Hch. }
  split; [|split].
  - unfold start, grid_cells. rewrite startRows_filter; [done|].
    intros row c Hrow Hc. apply (ok_placed _ _ Hok).
    apply elem_of_grid_cells. unfold grid_cells. apply list_elem_of_omap.
    exists (Some c). split; [|done]. apply list_elem_of_join. by exists row.
  - apply NoDup_filter. unfold grid_cells. apply NoDup_grid.
    intros i1 j1 i2 j2 c. apply (ok_inj _ _ Hok).
  - intros c. rewrite list_elem_of_filter, elem_of_grid_cells. unfold is_start. split.
    + intros [Hst (i & j & Hc)]. exists i, j. split; [done|].
      destruct (Hchar _ _ _ Hc) as (x & Hx & ->). rewrite Hx in Hst. f_equal.
      apply newCell_start. rewrite <- (ok_typed _ _ Hok c x Hx).
      by destruct (cell.cellType x).
    + intros (i & j & Hc & Hg). split; [|by exists i, j].
      destruct (Hchar _ _ _ Hc) as (x & Hx & Hg'). rewrite Hx.
      rewrite (ok_typed _ _ Hok c x Hx).
      assert (cell.char x = "@"%char) as -> by congruence. done.
Qed.

Lemma start_cells_witness :
  start scenario1_maze scenario1_heap
    = Some (filter (fun c => is_start scenario1_heap c = true) (grid_cells scenario1_maze)) /\
  NoDup (filter (fun c => is_start scenario1_heap c = true) (grid_cells scenario1_maze)) /\
  forall c, c ∈ filter (fun c => is_start scenario1_heap c = true)
                  (grid_cells scenario1_maze) <->
    exists i j, at_pos scenario1_maze i j c /\ char_at maze1 i j = Some "@"%char.
Proof.
  apply (start_cells maze1 scenario1_maze scenario1_heap).
  - vm_compute. reflexivity.
  - vm_compute. reflexivity.
Defined.

(** ** The result of the search is the least total of a plan *)

Section least.
Variable hp : heap.
Variable mkeys : keyset.
Variable recP : list ptr → keyset → unit → option (Z * unit).
Variable cs : list ptr.
Variable keys : keyset.
Variable bound : Z.
Hypothesis bound_int : bound < 2 ^ 63.
Hypothesis rec_least : forall i p r u,
  follows hp cs keys i p ->
  recP (nextCells cs i p) (nextKeys hp keys p) tt = Some (r, u) ->
  least_plan hp mkeys (nextCells cs i p) (nextKeys hp keys p) r /\
  1 <= path.len p /\ 0 <= r /\ path.len p + r <= bound.

Lemma pathsLoopP_least ps : forall i c x pre min min' u',
  cs !! i = Some c -> hp !! c = Some x -> cell.paths x = pre ++ ps ->
  least_so_far hp mkeys cs keys (fun j q => (j < i)%nat \/ (j = i /\ q ∈ pre)) bound min ->
  pathsLoopP hp recP cs keys i ps min tt = Some (min', u') ->
  least_so_far hp mkeys cs keys (fun j q => (j < S i)%nat) bound min'.
Proof.
  induction ps as [|p ps IH]; simpl; intros i c x pre min min' u' Hc Hx Hps Hinv H.
  { injection H as <- <-. rewrite app_nil_r in Hps.
    destruct Hinv as (Hb & Hw & Hpos & Hle).
    assert (Hseen : forall j q, (j < S i)%nat -> follows hp cs keys j q ->
      (j < i)%nat \/ (j = i /\ q ∈ pre)).
    { intros j q Hj (c' & x' & Hc' & Hx' & Hq & _).
      destruct (decide (j = i)) as [->|]; [|lia]. right. split; [done|].
      rewrite Hc in Hc'. injection Hc' as <-. rewrite Hx in Hx'. injection Hx' as <-.
      by rewrite <- Hps. }
    split; [done|]. split; [done|]. split.
    - intros j q Hj Hf. by apply (Hpos j q); [apply Hseen|].
    - intros j q d Hj Hf. by apply (Hle j q d); [apply Hseen|]. }
  assert (Hps' : cell.paths x = (pre ++ [p]) ++ ps) by (by rewrite <- app_assoc).
  assert (Hp : p ∈ cell.paths x).
  { rewrite Hps. apply elem_of_app. right. by left. }
  destruct (hp !! path.dest p) as [d|] eqn:Hdp; simpl in H; [|done].
  pose proof (eligible_spec hp keys p d Hdp) as He.
  destruct (contains _ _ || negb _) eqn:Es.
  - apply (IH i c x (pre ++ [p]) min min' u'); try done.
    destruct Hinv as (Hb & Hw & Hpos & Hle).
    assert (Hno : forall j q, (j < i)%nat \/ (j = i /\ q ∈ pre ++ [p]) ->
      follows hp cs keys j q -> (j < i)%nat \/ (j = i /\ q ∈ pre)).
    { intros j q [Hj|[-> Hq]] Hf; [by left|]. right. split; [done|].
      apply elem_of_app in Hq as [Hq|Hq]; [done|].
      apply list_elem_of_singleton in Hq. subst q.
      destruct Hf as (_ & _ & _ & _ & _ & Hel). simpl in He. congruence. }
    split; [done|]. split; [done|]. split.
    + intros j q Hj Hf. by apply (Hpos j q); [apply Hno|].
    + intros j q d' Hj Hf. by apply (Hle j q d'); [apply Hno|].
  - case_decide as Hi; [|done].
    destruct (recP _ _ _) as [[r u]|] eqn:Er; simpl in H; [|done].
    assert (Hf : follows hp cs keys i p).
    { exists c, x. repeat split; done. }
    assert (Er' : recP (nextCells cs i p) (nextKeys hp keys p) tt = Some (r, u)).
    { unfold nextCells, nextKeys. by rewrite Hdp. }
    destruct (rec_least i p r u Hf Er') as ([Hplan Hleast] & Hlen & Hr & Hsum).
    destruct u.
    rewrite int_add_small in H by lia.
    apply (IH i c x (pre ++ [p])
             (if (min =? 0) || (path.len p + r <? min) then path.len p + r else min)
             min' u'); try done.
    destruct Hinv as (Hb & Hw & Hpos & Hle).
    destruct (Z.eqb_spec min 0) as [H0|H0]; simpl.
    + split; [lia|]. split; [|split].
      * intros _. by exists i, p, r.
      * intros; lia.
      * intros j q d' [Hj|[-> Hq]] Hfq Hpl.
        -- specialize (Hpos j q (or_introl Hj) Hfq). lia.
        -- apply elem_of_app in Hq as [Hq|Hq].
           ++ specialize (Hpos i q (or_intror (conj eq_refl Hq)) Hfq). lia.
           ++ apply list_elem_of_singleton in Hq. subst q. specialize (Hleast d' Hpl). lia.
    + destruct (Z.ltb_spec (path.len p + r) min) as [Hlt|Hge].
      * split; [lia|]. split; [|split].
        -- intros _. by exists i, p, r.
        -- intros; lia.
        -- intros j q d' [Hj|[-> Hq]] Hfq Hpl.
           ++ specialize (Hle j q d' (or_introl Hj) Hfq Hpl). lia.
           ++ apply elem_of_app in Hq as [Hq|Hq].
              ** specialize (Hle i q d' (or_intror (conj eq_refl Hq)) Hfq Hpl). lia.
              ** apply list_elem_of_singleton in Hq. subst q.
                 specialize (Hleast d' Hpl). lia.
      * split; [lia|]. split; [done|]. split.
        -- intros; lia.
        -- intros j q d' [Hj|[-> Hq]] Hfq Hpl.
           ++ by apply (Hle j q d'); [left|..].
           ++ apply elem_of_app in Hq as [Hq|Hq].
              ** by apply (Hle i q d'); [right|..].
              ** apply list_elem_of_singleton in Hq. subst q.
                 specialize (Hleast d' Hpl). lia.
Qed.

Lemma cellsLoopP_least n : forall i min min' u',
  (i + n = length cs)%nat ->
  least_so_far hp mkeys cs keys (fun j q => (j < i)%nat) bound min ->
  cellsLoopP hp recP cs keys n i min tt = Some (min', u') ->
  least_so_far hp mkeys cs keys (fun j q => (j < length cs)%nat) bound min'.
Proof.
  induction n as [|n IH]; simpl; intros i min min' u' Hn Hinv H.
  { simplify_eq. by replace (length cs) with i by lia. }
  destruct (cs !! i) as [c|] eqn:Hc; simpl in H; [|done].
  destruct (hp !! c) as [xc|] eqn:Hxc; simpl in H; [|done].
  destruct (pathsLoopP _ _ _ _ _ _ _ _) as [[m1 u1]|] eqn:Ep; simpl in H; [|done].
  destruct u1.
  apply (IH (S i) m1 min' u'); [lia| |done].
  apply (pathsLoopP_least (cell.paths xc) i c xc [] min m1 tt); try done.
  destruct Hinv as (Hb & Hw & Hpos & Hle).
  split; [done|]. split; [done|]. split.
  - intros j q [Hj|[_ Hq]] Hf; [by eapply Hpos|by apply elem_of_nil in Hq].
  - intros j q d [Hj|[_ Hq]] Hf; [by eapply Hle|by apply elem_of_nil in Hq].
Qed.
End least.

(** A path of a cell in a finished maze. *)
Lemma maze_ok_path m hp c x p :
  maze_ok m hp -> hp !! c = Some x -> p ∈ cell.paths x ->
  exists d, hp !! path.dest p = Some d /\ cell.cellType d = CellType.key /\
    lowercase (cell.char d) /\ 0 <= path.len p < Z.of_nat (length hp) /\
    (path.len p = 0 -> path.dest p = c).
Proof.
  intros Hok Hx Hp.
  destruct (maze_ok_paths m hp c x Hok Hx) as (seen & dn & Hi & Hps).
  rewrite Hps in Hp. destruct (landmark x); [|by apply elem_of_nil in Hp].
  apply list_elem_of_filter in Hp as [Hk Hp].
  destruct (key_dest_true _ _ Hk) as (d & Hd & Hty).
  exists d. split; [done|]. split; [done|]. split.
  { apply newCell_key. by rewrite <- (ok_typed _ _ Hok _ _ Hd). }
  destruct (bi_walk _ _ _ _ _ Hi p) as [H0 Hw]; [by rewrite app_nil_r|].
  split.
  - split; [done|]. apply list_elem_of_lookup in Hp as [k Hk'].
    pose proof (bi_index _ _ _ _ _ Hi k p) as Hle. rewrite app_nil_r in Hle.
    specialize (Hle Hk'). apply lookup_lt_Some in Hk'.
    pose proof (bfs_inv_length _ _ _ _ _ Hi) as HL. rewrite app_nil_r in HL. lia.
  - intros Hz. rewrite Hz in Hw. simpl in Hw. by inversion Hw.
Qed.

Lemma nomemoP_least m hp :
  maze_ok m hp -> 26 * Z.of_nat (length hp) < 2 ^ 63 ->
  forall fuel cs keys r u,
    Forall (valid hp) cs -> 0 <= keys -> settled hp cs keys ->
    nomemoP fuel hp (maze.keys m) cs keys tt = Some (r, u) ->
    least_plan hp (maze.keys m) cs keys r /\
    0 <= r <= Z.of_nat (missing keys) * Z.of_nat (length hp).
Proof.
  intros Hok Hsize. induction fuel as [|fuel IH]; simpl; intros cs keys r u Hv Hk Hst H;
    [done|].
  destruct (stringOf hp cs keys) as [k|] eqn:Hkey; simpl in H; [|done].
  destruct (Z.eqb_spec keys (maze.keys m)) as [->|Hne].
  { simplify_eq. split; [|lia]. split; [constructor|].
    intros d Hd. inversion Hd; subst; [lia|done|done]. }
  pose proof (missing_le_26 keys) as H26.
  assert (Hinv : least_so_far hp (maze.keys m) cs keys (fun j q => (j < length cs)%nat)
                   (Z.of_nat (missing keys) * Z.of_nat (length hp)) r).
  { apply (cellsLoopP_least hp (maze.keys m) (nomemoP fuel hp (maze.keys m)) cs keys
             (Z.of_nat (missing keys) * Z.of_nat (length hp)))
      with (n := length cs) (i := 0%nat) (min := 0) (u' := u); [nia| |done| |done].
    - intros i p r' u' (c & x & Hc & Hx & Hp & He) Hr.
      destruct (maze_ok_path m hp c x p Hok Hx Hp) as (d & Hd & Hty & Hl & Hlen & Hz).
      destruct (wf_paths_next hp cs keys i c x p (maze_ok_wf_paths _ _ Hok) Hv Hc Hx Hp)
        as [_ Hnext]. destruct (Hnext He) as [Hv' Hm'].
      rewrite (eligible_spec hp keys p d Hd) in He.
      apply negb_true_iff, orb_false_iff in He as [Hnc _].
      assert (Hst' : settled hp (nextCells cs i p) (nextKeys hp keys p)).
      { unfold nextCells, nextKeys. rewrite Hd. intros c' x' Hin Hx' Hty'.
        apply list_elem_of_lookup in Hin as [j Hj].
        apply list_lookup_insert_Some in Hj as [(-> & <- & _)|[_ Hj]].
        - simplify_eq. by apply contains_plus_same.
        - apply contains_plus_mono. apply (Hst c' x'); [|done|done].
          by eapply list_elem_of_lookup_2. }
      assert (Hk' : 0 <= nextKeys hp keys p).
      { unfold nextKeys. rewrite Hd. by apply plus_nonneg. }
      destruct u'.
      destruct (IH _ _ _ _ Hv' Hk' Hst' Hr) as [Hleast Hr'].
      split; [done|].
      assert (path.dest p <> c).
      { intros E. rewrite E in Hd. rewrite (Hst c d) in Hnc; [done| |done|done].
        by eapply list_elem_of_lookup_2. }
      split; [|split; [lia|]].
      + destruct (Z.eq_dec (path.len p) 0) as [E|E]; [by apply Hz in E|lia].
      + nia.
    - split; [nia|]. split; [done|]. split; intros; lia. }
  destruct Hinv as (Hb & Hw & Hpos & Hle). split; [|done]. split.
  - destruct (Z.eq_dec r 0) as [->|Hr].
    + apply plan_stuck; [done|]. intros i p Hf.
      assert (Hi : (i < length cs)%nat).
      { destruct Hf as (c & x & Hc & _). by eapply lookup_lt_Some. }
      specialize (Hpos i p Hi Hf). lia.
    + destruct (Hw Hr) as (j & q & d & Hf & Hp & ->). by apply (plan_move hp (maze.keys m) cs keys j q d).
  - intros d Hd. inversion Hd as [|cs0 keys0 _ Hno|cs0 keys0 i p d' _ Hf Hp]; subst.
    + done.
    + destruct (Z.eq_dec r 0) as [->|Hr]; [done|].
      destruct (Hw Hr) as (j & q & d' & Hf & _). by destruct (Hno j q).
    + apply (Hle i p d'); [|done|done]. destruct Hf as (c & x & Hc & _).
      by eapply lookup_lt_Some.
Qed.

(** The search with an empty table, over the contents of the slices. *)
Lemma memoP_least m hp cs keys :
  maze_ok m hp -> unique_letters hp -> 26 * Z.of_nat (length hp) < 2 ^ 63 ->
  Forall (valid hp) cs -> 0 <= keys -> settled hp cs keys ->
  exists r t', memoP 27 hp (maze.keys m) cs keys ∅ = Some (r, t') /\
    least_plan hp (maze.keys m) cs keys r.
Proof.
  intros Hok Hu Hsize Hv Hk Hst.
  destruct (memoP_agrees hp (maze.keys m) cs (maze_ok_wf_paths _ _ Hok) Hu 27 cs keys ∅)
    as (r & t' & f & HM & _ & HN);
    [apply shape_refl|done|done|pose proof (missing_le_26 keys); lia|apply table_ok_empty|].
  exists r, t'. split; [done|].
  by destruct (nomemoP_least m hp Hok Hsize f cs keys r tt Hv Hk Hst HN).
Qed.

(** X15: in a maze read by [readMaze] with no letter on two cells, the
    search from a state in which every agent on a key cell has that key
    returns, with an empty table, the least total length of a plan: a
    sequence of eligible moves that goes on until all keys are collected or
    no move is left. *)
Theorem shortestPath_least rows m hp s st cs fuel :
  ascii_rows rows = true ->
  readMaze rows = Some (m, hp) ->
  unique_letters hp ->
  26 * Z.of_nat (length hp) < 2 ^ 63 ->
  st !! state.cells s = Some cs -> Forall (valid hp) cs ->
  0 <= state.keys s -> settled hp cs (state.keys s) ->
  (27 <= fuel)%nat ->
  exists r st' table',
    shortestPath fuel m hp s (st, ∅) = Some (r, (st', table')) /\
    plan hp (maze.keys m) cs (state.keys s) r /\
    forall d, plan hp (maze.keys m) cs (state.keys s) d -> r <= d.
Proof.
  intros _ Hm Hu Hsize Hcs Hv Hk Hst Hf. apply readMaze_ok in Hm.
  destruct (memoP_least m hp cs (state.keys s) Hm Hu Hsize Hv Hk Hst)
    as (r & t' & HM & Hplan & Hleast).
  destruct (erase_Some (shortestPath fuel m hp s (st, ∅)) r t') as [st' Hr].
  { rewrite (shortestPath_refines _ _ _ _ _ _ _ Hcs). by apply (memoP_mono 27). }
  by exists r, st', t'.
Qed.

Lemma shortestPath_least_witness :
  exists r st' table',
    shortestPath 27 scenario1_maze scenario1_heap (state.mk 0 0) ([[4%nat]], ∅)
      = Some (r, (st', table')) /\
    plan scenario1_heap (maze.keys scenario1_maze) [4%nat] (state.keys (state.mk 0 0)) r /\
    forall d, plan scenario1_heap (maze.keys scenario1_maze) [4%nat]
                (state.keys (state.mk 0 0)) d -> r <= d.
Proof.
  apply (shortestPath_least maze1 scenario1_maze scenario1_heap (state.mk 0 0)
           [[4%nat]] [4%nat] 27).
  - vm_compute. reflexivity.
  - vm_compute. reflexivity.
  - apply unique_lettersb_spec. vm_compute. reflexivity.
  - vm_compute. reflexivity.
  - reflexivity.
  - repeat constructor. eexists. reflexivity.
  - simpl. lia.
  - intros c x Hc Hx Hty. apply list_elem_of_singleton in Hc. subst c.
    vm_compute in Hx. injection Hx as <-. discriminate Hty.
  - lia.
Defined.

(** ** The program *)

Lemma maze_ok_start m hp :
  maze_ok m hp ->
  exists sc, start m hp = Some sc /\ Forall (valid hp) sc /\
    forall c, c ∈ sc -> exists x, hp !! c = Some x /\ cell.cellType x = CellType.start.
Proof.
  intros Hok.
  assert (Hs : is_Some (start m hp)).
  { unfold start. rewrite startRows_filter; [by eexists|].
    intros row c Hrow Hc. apply (ok_placed _ _ Hok).
    apply elem_of_grid_cells. unfold grid_cells. apply list_elem_of_omap.
    exists (Some c). split; [|done]. apply list_elem_of_join. by exists row. }
  destruct Hs as [sc Hs]. exists sc. split; [done|].
  pose proof (start_spec _ _ _ Hs) as Hty. split; [|done].
  apply Forall_forall. intros c Hc. destruct (Hty c Hc) as (x & Hx & _). by exists x.
Qed.

Lemma run_unfold fuel rows m hp sc r w :
  readMaze rows = Some (m, hp) -> start m hp = Some sc ->
  shortestPath fuel m hp (state.mk 0%nat 0) ([sc], ∅) = Some (r, w) ->
  run fuel rows = Some r.
Proof.
  intros Hm Hs Hr. unfold run, initial. rewrite Hm. simpl. rewrite Hs. simpl.
  by rewrite Hr.
Qed.

(** X16: once [readMaze] has returned a maze the program runs to its end:
    [start] and the search return, and the number printed does not depend
    on the depth bound of the search from 27 on. *)
Theorem run_returns rows m hp :
  ascii_rows rows = true ->
  readMaze rows = Some (m, hp) ->
  exists r, forall fuel, (27 <= fuel)%nat -> run fuel rows = Some r.
Proof.
  intros _ Hm. pose proof (readMaze_ok _ _ _ Hm) as Hok.
  destruct (maze_ok_start m hp Hok) as (sc & Hs & Hv & _).
  destruct (memoP_total hp (maze.keys m) (maze_ok_wf_paths _ _ Hok) 27 sc 0 ∅)
    as (r & t' & Hr); [done|pose proof (missing_le_26 0); lia|].
  exists r. intros fuel Hf.
  destruct (erase_Some (shortestPath fuel m hp (state.mk 0%nat 0) ([sc], ∅)) r t')
    as [st' Hsp].
  { rewrite (shortestPath_refines _ _ _ _ _ _ sc) by done. by apply (memoP_mono 27). }
  by eapply run_unfold.
Qed.

Lemma run_returns_witness :
  exists r, forall fuel, (27 <= fuel)%nat -> run fuel maze1 = Some r.
Proof.
  apply (run_returns maze1 scenario1_maze scenario1_heap).
  - vm_compute. reflexivity.
  - vm_compute. reflexivity.
Defined.

(** The keyset of a maze without letters is empty. *)
Lemma keys_no_letter k :
  0 <= k < 2 ^ 26 -> (forall c, lowercase c -> contains k c = false) -> k = 0.
Proof.
  intros Hk Hc. apply Z.bits_inj'. intros n Hn. rewrite Z.bits_0.
  destruct (Z.lt_ge_cases n 26) as [Hlt|Hge]; [|by apply low_bits_only].
  destruct (letter_bit n) as (c & Hl & Hb); [lia|].
  rewrite <- Hb, <- contains_testbit. by apply Hc.
Qed.

(** X17: on input without a lower-case letter, and on input without ['@'],
    the program prints 0 if [readMaze] returns: with no key there is nothing
    to collect, and with no start cell there is no path to follow. *)
Theorem run_zero rows m hp fuel :
  ascii_rows rows = true ->
  readMaze rows = Some (m, hp) ->
  (forall i j ch, char_at rows i j = Some ch -> ~ lowercase ch) \/
  (forall i j, char_at rows i j <> Some "@"%char) ->
  run (S fuel) rows = Some 0.
Proof.
  intros _ Hm Hin. pose proof (readMaze_ok _ _ _ Hm) as Hok.
  destruct (readMaze_parsed _ _ _ Hm) as (hp1 & Hs & _ & Hp).
  destruct (maze_ok_start m hp Hok) as (sc & Hst & Hv & Hty).
  assert (Hchar : forall c x, hp !! c = Some x ->
    exists i j, char_at rows i j = Some (cell.char x)).
  { intros c x Hx. destruct (proj1 (ok_placed _ _ Hok c)) as (i & j & Hc); [by eexists|].
    destruct (pa_cell _ _ _ _ _ Hp _ _ _ Hc) as (x1 & Hx1 & Hg & _).
    pose proof (strip_lookup hp1 hp c Hs) as Hl. rewrite Hx1, Hx in Hl.
    destruct Hl as (Hch & _ & _). exists i, j. by rewrite <- Hch. }
  destruct (stringOf_valid hp sc 0 Hv) as [k Hk].
  assert (Hr : memoP (S fuel) hp (maze.keys m) sc 0 ∅ = Some (0, ∅) \/
               memoP (S fuel) hp (maze.keys m) sc 0 ∅ = Some (0, {[k := 0]})).
  { rewrite memoP_unfold. destruct Hin as [Hno|Hno].
    - left. rewrite Hk. cbv beta iota delta [mbind option_bind].
      assert (maze.keys m = 0) as ->; [|done].
      apply keys_no_letter; [apply (pa_keys_range _ _ _ _ _ Hp)|].
      intros c Hc. destruct (contains (maze.keys m) c) eqn:E; [exfalso|done].
      destruct (pa_keys _ _ _ _ _ Hp c Hc E) as (p & x1 & Hx1 & Hc1).
      pose proof (strip_lookup hp1 hp p Hs) as Hl. rewrite Hx1 in Hl.
      destruct (hp !! p) as [x|] eqn:Hx; [|done]. destruct Hl as (Hch & _ & _).
      destruct (Hchar p x Hx) as (i & j & Hg). apply (Hno i j _ Hg). congruence.
    - assert (sc = []) as ->.
      { destruct sc as [|c sc]; [done|exfalso].
        destruct (Hty c) as (x & Hx & Hstart); [by left|].
        destruct (Hchar c x Hx) as (i & j & Hg). apply (Hno i j). rewrite Hg. f_equal.
        apply newCell_start. by rewrite <- (ok_typed _ _ Hok c x Hx). }
      rewrite Hk. cbv beta iota delta [mbind option_bind].
      destruct (0 =? maze.keys m); [by left|]. right. by rewrite lookup_empty. }
  assert (Hsp : exists w, shortestPath (S fuel) m hp (state.mk 0%nat 0) ([sc], ∅)
                  = Some (0, w)).
  { destruct Hr as [Hr|Hr].
    - destruct (erase_Some (shortestPath (S fuel) m hp (state.mk 0%nat 0) ([sc], ∅)) 0 ∅)
        as [st' Hsp]; [|by eexists].
      by rewrite (shortestPath_refines _ _ _ _ _ _ sc).
    - destruct (erase_Some (shortestPath (S fuel) m hp (state.mk 0%nat 0) ([sc], ∅)) 0
                  {[k := 0]}) as [st' Hsp]; [|by eexists].
      by rewrite (shortestPath_refines _ _ _ _ _ _ sc). }
  destruct Hsp as [w Hsp]. by eapply run_unfold.
Qed.

Lemma run_zero_witness : run 1 ["###"; "#.#"; "###"]%string = Some 0.
Proof.
  destruct (readMaze ["###"; "#.#"; "###"]%string) as [[m hp]|] eqn:E.
  - apply (run_zero ["###"; "#.#"; "###"]%string m hp 0).
    + vm_compute. reflexivity.
    + exact E.
    + right. intros i j.
      destruct i as [|[|[|i]]]; destruct j as [|[|[|j]]]; vm_compute; congruence.
  - vm_compute in E. discriminate E.
Defined.

(** X18: on a maze with no letter on two cells the number the program
    prints is the least total length of a plan from the start cells with no
    key collected. *)
Theorem run_least rows m hp fuel :
  ascii_rows rows = true ->
  readMaze rows = Some (m, hp) ->
  unique_letters hp ->
  26 * Z.of_nat (length hp) < 2 ^ 63 ->
  (27 <= fuel)%nat ->
  exists r sc,
    start m hp = Some sc /\ run fuel rows = Some r /\
    plan hp (maze.keys m) sc 0 r /\
    forall d, plan hp (maze.keys m) sc 0 d -> r <= d.
Proof.
  intros _ Hm Hu Hsize Hf. pose proof (readMaze_ok _ _ _ Hm) as Hok.
  destruct (maze_ok_start m hp Hok) as (sc & Hs & Hv & Hty).
  assert (Hst : settled hp sc 0).
  { intros c x Hc Hx Hk. destruct (Hty c Hc) as (x' & Hx' & Hstart). congruence. }
  destruct (memoP_least m hp sc 0 Hok Hu Hsize Hv (Z.le_refl 0) Hst)
    as (r & t' & HM & Hplan & Hleast).
  destruct (erase_Some (shortestPath fuel m hp (state.mk 0%nat 0) ([sc], ∅)) r t')
    as [st' Hsp].
  { rewrite (shortestPath_refines _ _ _ _ _ _ sc) by done. by apply (memoP_mono 27). }
  exists r, sc. split; [done|]. split; [by eapply run_unfold|]. by split.
Qed.

Lemma run_least_witness :
  exists r sc,
    start scenario1_maze scenario1_heap = Some sc /\ run 27 maze1 = Some r /\
    plan scenario1_heap (maze.keys scenario1_maze) sc 0 r /\
    forall d, plan scenario1_heap (maze.keys scenario1_maze) sc 0 d -> r <= d.
Proof.
  apply (run_least maze1 scenario1_maze scenario1_heap 27).
  - vm_compute. reflexivity.
  - vm_compute. reflexivity.
  - apply unique_lettersb_spec. vm_compute. reflexivity.
  - vm_compute. reflexivity.
  - lia.
Defined.

(** ** Adjacency lists without duplicates *)

Lemma join_lookup hp c c1 hp2 :
  join hp c c1 = Some hp2 -> c <> c1 ->
  exists x y, hp !! c = Some x /\ hp !! c1 = Some y /\
    forall p, hp2 !! p =
      if decide (p = c1) then Some (cell.set_adj y (cell.adj y ++ [c]))
      else if decide (p = c) then Some (cell.set_adj x (cell.adj x ++ [c1]))
      else hp !! p.
Proof.
  unfold join. intros H Hne.
  destruct (hp !! c) as [x|] eqn:Hx; simpl in H; [|done].
  rewrite list_lookup_insert_ne in H by done.
  destruct (hp !! c1) as [y|] eqn:Hy; simpl in H; [|done].
  simplify_eq. exists x, y. split; [done|]. split; [done|].
  assert (Hc : (c < length hp)%nat) by (by eapply lookup_lt_Some).
  assert (Hc1 : (c1 < length hp)%nat) by (by eapply lookup_lt_Some).
  intros p. destruct (decide (p = c1)) as [->|Hp1].
  - rewrite list_lookup_insert_eq; [done|]. by rewrite length_insert.
  - rewrite list_lookup_insert_ne by done.
    destruct (decide (p = c)) as [->|Hp].
    + by rewrite list_lookup_insert_eq.
    + by rewrite list_lookup_insert_ne.
Qed.

Lemma join_nodup hp c c1 hp2 :
  join hp c c1 = Some hp2 -> c <> c1 ->
  ~ edge hp c c1 -> ~ edge hp c1 c ->
  nodup_adj hp -> nodup_adj hp2.
Proof.
  intros H Hne H1 H2 Hnd p z Hz.
  destruct (join_lookup _ _ _ _ H Hne) as (x & y & Hx & Hy & Hlk).
  rewrite Hlk in Hz.
  destruct (decide (p = c1)) as [->|].
  { simplify_eq. simpl. apply NoDup_app. split; [by eapply Hnd|]. split.
    - intros q Hq Hin. apply list_elem_of_singleton in Hin. subst q.
      apply H2. by exists y.
    - apply NoDup_singleton. }
  destruct (decide (p = c)) as [->|]; [|by eapply Hnd].
  simplify_eq. simpl. apply NoDup_app. split; [by eapply Hnd|]. split.
  - intros q Hq Hin. apply list_elem_of_singleton in Hin. subst q.
    apply H1. by exists x.
  - apply NoDup_singleton.
Qed.

Lemma joinAt_if_nodup (P : Prop) `{!Decision P} m hp c i j hp2 :
  (if decide P then joinAt m hp c i j else Some hp) = Some hp2 ->
  (P -> forall n, at_pos m i j n -> c <> n /\ ~ edge hp c n /\ ~ edge hp n c) ->
  nodup_adj hp ->
  nodup_adj hp2 /\
  (forall p q, edge hp2 p q ->
     edge hp p q \/ exists n, at_pos m i j n /\ ((p = c /\ q = n) \/ (p = n /\ q = c))).
Proof.
  intros H Hpre Hnd. case_decide as HP; [|simplify_eq; split; [done|by left]].
  unfold joinAt in H. unfold at_pos in *.
  destruct (cell_at m i j) as [[n|]|]; simpl in H; [| |done].
  - destruct (Hpre HP n eq_refl) as (Hne & H1 & H2). split; [by eapply join_nodup|].
    destruct (join_spec _ _ _ _ H Hne) as (_ & _ & He).
    intros p q Hpq. apply He in Hpq as [?|Hpq]; [by left|]. right. by exists n.
  - simplify_eq. split; [done|by left].
Qed.

Lemma addCell_nodup m hp i j ch m2 hp2 :
  swept m hp i j -> nodup_adj hp ->
  addCell m (hp ++ [newCell ch]) i j (length hp) = Some (m2, hp2) ->
  nodup_adj hp2.
Proof.
  intros Hs Hnd H.
  destruct Hs as [Hrows Hcols Hjn Hplaced Hbefore Hinj Hkeys Hsize].
  unfold addCell in H.
  destruct (set_cell_at m i j (length hp)) as [m1|] eqn:Hset; simpl in H; [|done].
  destruct (set_cell_at_spec _ _ _ _ _ Hset) as (_ & _ & _ & _ & _ & _ & Hpos).
  set (c := length hp) in *. set (hp0 := hp ++ [newCell ch]) in *.
  assert (Hold : forall i' j' n, at_pos m1 i' j' n -> (i' <> i \/ j' <> j) ->
    at_pos m i' j' n /\ n <> c /\ (i' < i \/ (i' = i /\ j' < j))%nat).
  { intros i' j' n Hn Hd. apply Hpos in Hn as [(-> & -> & _)|[_ Hn]]; [lia|].
    destruct (Hbefore _ _ _ Hn) as [[y Hy] Hlt]. split; [done|]. split; [|done].
    intros ->. apply lookup_lt_Some in Hy. unfold c in Hy. lia. }
  assert (Hno : forall p q, edge hp0 p q -> p <> c /\ q <> c).
  { intros p q He. apply (edge_alloc hp (newCell ch)) in He; [|done].
    destruct (jn_orth _ _ Hjn p q He) as (i1 & j1 & i2 & j2 & H1 & H2 & _).
    destruct (Hbefore _ _ _ H1) as [[y1 Hy1] _]. destruct (Hbefore _ _ _ H2) as [[y2 Hy2] _].
    apply lookup_lt_Some in Hy1, Hy2. unfold c. lia. }
  assert (Hnd0 : nodup_adj hp0).
  { intros p x Hx. unfold hp0 in Hx.
    apply lookup_app_Some in Hx as [Hx|[_ Hx]]; [by eapply Hnd|].
    destruct (p - length hp)%nat; simpl in Hx; [|done]. simplify_eq. constructor. }
  destruct (if decide (0 < i)%nat then _ else _) as [hp1|] eqn:E1; simpl in H; [|done].
  destruct (joinAt_if_nodup _ _ _ _ _ _ _ E1) as [Hnd1 He1]; [|done|].
  { intros Hi n Hn. destruct (Hold _ _ _ Hn) as (_ & Hne & _); [lia|].
    split; [done|]. split; intros He; apply Hno in He; tauto. }
  destruct (if decide (0 < j)%nat then _ else _) as [hp2'|] eqn:E2; simpl in H; [|done].
  destruct (joinAt_if_nodup _ _ _ _ _ _ _ E2) as [Hnd2 He2]; [|done|].
  { intros Hj n Hn. destruct (Hold _ _ _ Hn) as (Hm & Hne & _); [lia|].
    assert (Hup : forall n', at_pos m1 (i - 1) j n' -> n' <> n).
    { intros n' Hn' ->. destruct (decide (0 < i)%nat) as [Hi|Hi].
      - destruct (Hold _ _ _ Hn') as (Hm' & _); [lia|].
        destruct (Hinj _ _ _ _ _ Hm Hm'). lia.
      - apply Hpos in Hn' as [(_ & _ & ?)|[? _]]; [done|lia]. }
    split; [done|]. split; intros He; apply He1 in He as [He|(n' & Hn' & He)].
    - apply Hno in He. tauto.
    - pose proof (Hup n' Hn'). destruct He as [[_ ?]|[_ ?]]; congruence.
    - apply Hno in He. tauto.
    - pose proof (Hup n' Hn'). destruct He as [[? _]|[? _]]; congruence. }
  destruct (if decide (i + 1 < maze.h m1)%nat then _ else _) as [hp3|] eqn:E3;
    simpl in H; [|done].
  destruct (joinAt_if_nodup _ _ _ _ _ _ _ E3) as [Hnd3 _]; [|done|].
  { intros _ n Hn. destruct (Hold _ _ _ Hn) as (_ & _ & ?); lia. }
  destruct (if decide (j + 1 < maze.w m1)%nat then _ else _) as [hp4|] eqn:E4;
    simpl in H; [|done].
  destruct (joinAt_if_nodup _ _ _ _ _ _ _ E4) as [Hnd4 _]; [|done|].
  { intros _ n Hn. destruct (Hold _ _ _ Hn) as (_ & _ & ?); lia. }
  destruct (hp4 !! c) as [x|]; simpl in H; [|done].
  destruct (CellType.eqb _ _); by simplify_eq.
Qed.

Lemma readRow_nodup row : forall i j m hp m' hp',
  swept m hp i j -> nodup_adj hp ->
  readRow i j row m hp = Some (m', hp') -> nodup_adj hp'.
Proof.
  induction row as [|ch row IH]; simpl; intros i j m hp m' hp' Hs Hnd H.
  - by simplify_eq.
  - destruct (Ascii.eqb ch "#").
    + simpl in H. apply (IH i (S j) m hp m' hp'); [|done|done].
      destruct Hs as [Hrows Hcols Hjn Hplaced Hbefore Hinj Hkeys Hsize]. split; try done.
      * intros i' j' c Hc. destruct (Hbefore _ _ _ Hc). split; [done|lia].
      * lia.
    + destruct (addCell _ _ _ _ _) as [[m1 hp1]|] eqn:Ha; simpl in H; [|done].
      destruct (addCell_swept _ _ _ _ _ _ _ Hs Ha) as [Hs1 _].
      apply (IH i (S j) m1 hp1 m' hp'); [done| |done].
      exact (addCell_nodup m hp i j ch m1 hp1 Hs Hnd Ha).
Qed.

Lemma readRows_nodup rows : forall i m hp m' hp',
  swept m hp i 0 -> nodup_adj hp ->
  readRows i rows m hp = Some (m', hp') -> nodup_adj hp'.
Proof.
  induction rows as [|row rows IH]; simpl; intros i m hp m' hp' Hs Hnd H.
  - by simplify_eq.
  - destruct (readRow i 0 row m hp) as [[m1 hp1]|] eqn:Hr; simpl in H; [|done].
    destruct (readRow_swept _ _ _ _ _ _ _ Hs Hr) as (Hs1 & _ & _).
    apply swept_next_row in Hs1.
    apply (IH (S i) m1 hp1 m' hp'); [done| |done].
    exact (readRow_nodup row i 0%nat m hp m1 hp1 Hs Hnd Hr).
Qed.

Lemma omap_length_le {A B} (f : A -> option B) (l : list A) :
  (length (omap f l) <= length l)%nat.
Proof.
  induction l as [|a l IH]; [done|].
  change (omap f (a :: l))
    with (match f a with Some y => y :: omap f l | None => omap f l end).
  destruct (f a); simpl; lia.
Qed.

(** The cells at the four positions next to [(i, j)]. *)
Lemma neighbours_bound m (l : list ptr) i j :
  NoDup l ->
  (forall q, q ∈ l -> exists i' j', at_pos m i' j' q /\ orthogonal i j i' j') ->
  (length l <= 4)%nat.
Proof.
  intros Hnd Hl.
  set (cand := omap (fun ab : nat * nat => cell_at m ab.1 ab.2 ≫= id)
                 [(S i, j); ((i - 1)%nat, j); (i, S j); (i, (j - 1)%nat)]).
  assert (Hsub : l ⊆ cand).
  { intros q Hq. destruct (Hl q Hq) as (i' & j' & Hat & Ho).
    apply list_elem_of_omap. exists (i', j'). split.
    - unfold orthogonal in Ho.
      assert (Hc : (i', j') = (S i, j) \/ (i', j') = ((i - 1)%nat, j) \/
                   (i', j') = (i, S j) \/ (i', j') = (i, (j - 1)%nat)).
      { destruct Ho as [[-> [->| ->]]|[-> [->| ->]]].
        - right. right. right. f_equal. lia.
        - right. right. by left.
        - right. left. f_equal. lia.
        - by left. }
      rewrite !elem_of_cons. tauto.
    - simpl. unfold at_pos in Hat. by rewrite Hat. }
  assert (Hlen : (length cand <= 4)%nat).
  { unfold cand. etrans; [apply omap_length_le|]. done. }
  etrans; [|exact Hlen]. apply submseteq_length. by apply NoDup_submseteq.
Qed.

(** X19: after [readMaze] no adjacency list holds a cell twice or the cell
    it belongs to, and none has more than four entries: [addCell] joins two
    cells once, when the later of the two is placed. *)
Theorem adjacency_no_duplicates rows m hp c x :
  ascii_rows rows = true ->
  readMaze rows = Some (m, hp) ->
  hp !! c = Some x ->
  NoDup (cell.adj x) /\ (c ∉ cell.adj x) /\ (length (cell.adj x) <= 4)%nat.
Proof.
  intros _ H Hx. pose proof (readMaze_ok _ _ _ H) as Hok.
  assert (Hnd : NoDup (cell.adj x)).
  { unfold readMaze in H.
    destruct (head rows) as [r0|]; simpl in H; [|done].
    destruct (newMaze _ _) as [m0|] eqn:Hn; simpl in H; [|done].
    destruct (readRows 0 rows m0 []) as [[m1 hp1]|] eqn:Hr; simpl in H; [|done].
    destruct (buildPaths m1 hp1) as [hp2|] eqn:Hb; simpl in H; [|done]. simplify_eq.
    destruct (newMaze_swept _ _ _ Hn) as (Hs0 & _).
    assert (Hnd1 : nodup_adj hp1).
    { apply (readRows_nodup rows 0 m0 [] m hp1 Hs0); [|done].
      intros p y Hy. by rewrite lookup_nil in Hy. }
    destruct (readRows_swept _ _ _ _ _ _ Hs0 Hr) as ([_ _ [Ht _ _] _ _ _ _ _] & _).
    unfold buildPaths in Hb.
    destruct (buildPathsRows_spec hp1 _ _ _ Hb) as ([Hs _] & _).
    { split; [done|]. intros p y Hy. left. by apply (Ht p y). }
    pose proof (strip_lookup hp hp1 c Hs) as Hl. rewrite Hx in Hl.
    destruct (hp1 !! c) as [x1|] eqn:Hx1; [|done]. destruct Hl as (_ & -> & _).
    by apply (Hnd1 c x1). }
  split; [done|].
  assert (Horth : forall q, q ∈ cell.adj x ->
    exists i1 j1 i2 j2, at_pos m i1 j1 c /\ at_pos m i2 j2 q /\ orthogonal i1 j1 i2 j2).
  { intros q Hq. apply (ok_orth _ _ Hok). by exists x. }
  split.
  - intros Hc. destruct (Horth c Hc) as (i1 & j1 & i2 & j2 & H1 & H2 & Ho).
    destruct (ok_inj _ _ Hok _ _ _ _ _ H1 H2) as [-> ->]. unfold orthogonal in Ho. lia.
  - destruct (proj1 (ok_placed _ _ Hok c)) as (i & j & Hc); [by eexists|].
    apply (neighbours_bound m _ i j); [done|].
    intros q Hq. destruct (Horth q Hq) as (i1 & j1 & i2 & j2 & H1 & H2 & Ho).
    destruct (ok_inj _ _ Hok _ _ _ _ _ H1 Hc) as [-> ->]. by exists i2, j2.
Qed.

Lemma adjacency_no_duplicates_witness :
  NoDup (cell.adj scenario1_key_a) /\ (6%nat ∉ cell.adj scenario1_key_a) /\
  (length (cell.adj scenario1_key_a) <= 4)%nat.
Proof.
  apply (adjacency_no_duplicates maze1 scenario1_maze scenario1_heap 6%nat scenario1_key_a).
  - vm_compute. reflexivity.
  - vm_compute. reflexivity.
  - reflexivity.
Defined.
